(** * rl4co: geometric state augmentation and the POMO policy orchestrator

    A shallow embedding of [rl4co/data/transforms.py] and of
    [ncobench/models/co/pomo/policy.py].

    Tensors of shape [batch, graph, 2] are lists of instances, an instance
    is a list of nodes, a node is a pair of coordinates.  Tensors of shape
    [batch, graph, 1] are lists of lists of values, tensors of shape
    [batch] (the angles) are lists of values.

    A floating-point value is a real number, one of the two infinities
    or NaN.  The tensors have one data type, a binary format with [prec]
    bits of precision and the exponent bound [emax] (24 and 128 for
    [torch.float32], the default; 53 and 1024 for [torch.float64]).  The
    sum, the product and the quotient of two finite values are the exact
    results rounded to the nearest number of the format, ties to even,
    with gradual underflow, and replaced by an infinity when the rounded
    result is out of range; division by zero and the other invalid
    operations follow IEEE 754.  The one simplification is that zero has
    no sign.  The cosine and the sine of the library are not fixed by
    IEEE 754: they are parameters of the data type. *)

From Stdlib Require Import Reals Machin Lra Lia ZArith.
From stdpp Require Import base option list gmap strings.

#[local] Open Scope R_scope.

(** ** Values *)

Inductive fval : Type :=
| Fin (r : R)
| PInf
| NInf
| NaN.

Definition is_finite (v : fval) : Prop :=
  match v with Fin _ => True | _ => False end.

(** ** Binary formats *)

Definition bpow (e : Z) : R := powerRZ 2 e.

(** The number [m * 2 ^ e]. *)
Definition dyadic (m e : Z) : R := IZR m * bpow e.

(** The magnitude of [x <> 0]: the exponent [e] with
    [2 ^ (e - 1) <= |x| < 2 ^ e]. *)
Definition mag (x : R) : Z := (Zfloor (ln (Rabs x) / ln 2) + 1)%Z.

(** The nearest integer, the even one of the two at a tie. *)
Definition Znearest (x : R) : Z :=
  let f := Zfloor x in
  if Rlt_dec (x - IZR f) (/ 2) then f
  else if Rlt_dec (/ 2) (x - IZR f) then (f + 1)%Z
  else if Z.even f then f else (f + 1)%Z.

(** The exponent of the last bit of the numbers of the magnitude of [x]
    in the format of precision [p] and exponent bound [emx]; the least
    exponent [3 - emx - p] is the one of the subnormal numbers. *)
Definition cexp_of (p emx : Z) (x : R) : Z := Z.max (mag x - p) (3 - emx - p).

(** Rounding to nearest, before the range is looked at. *)
Definition round_to (p emx : Z) (x : R) : R :=
  IZR (Znearest (x * bpow (- cexp_of p emx x))) * bpow (cexp_of p emx x).

(** The finite numbers of the format. *)
Definition representable_in (p emx : Z) (x : R) : Prop :=
  exists m e : Z,
    x = dyadic m e /\ (Z.abs m < 2 ^ p)%Z /\
    (3 - emx - p <= e)%Z /\ (e + p <= emx)%Z.

(** The data type of the tensors: the format, and [torch.cos] and
    [torch.sin] on its finite numbers. *)
Class Dtype : Type := {
  prec : Z;
  emax : Z;
  tcos : R -> R;
  tsin : R -> R;
}.

(** [torch.float32], with a cosine and a sine that are rounded
    correctly. *)
Definition float32 : Dtype :=
  {| prec := 24; emax := 128;
     tcos := fun t => round_to 24 128 (cos t);
     tsin := fun t => round_to 24 128 (sin t) |}.

Section Arithmetic.

Context {dtype : Dtype}.

Definition round (x : R) : R := round_to prec emax x.

Definition representable (x : R) : Prop := representable_in prec emax x.

(** The result of an operation whose exact value is [x]. *)
Definition rnd (x : R) : fval :=
  let y := round x in
  if Rlt_dec (Rabs y) (bpow emax) then Fin y
  else if Rlt_dec 0 y then PInf else NInf.

(** What is asked of a data type: at least 3 bits of precision and an
    exponent range that holds the angles up to [4 * pi]; a cosine and a
    sine that stay within [-1, 1] and are exact at 0. *)
Definition valid_format : Prop := (3 <= prec)%Z /\ (prec + 3 <= emax)%Z.

Definition valid_trig : Prop :=
  tcos 0 = 1 /\ tsin 0 = 0 /\
  forall t : R, -1 <= tcos t <= 1 /\ -1 <= tsin t <= 1.

(** The cosine and the sine are within [tau] of the exact ones, on the
    angles up to 16. *)
Definition trig_accurate (tau : R) : Prop :=
  forall t : R,
    Rabs t <= 16 ->
    Rabs (tcos t - cos t) <= tau /\ Rabs (tsin t - sin t) <= tau.

(** [math.pi] in the data type of the tensors. *)
Definition fpi : R := round PI.

Definition fneg (a : fval) : fval :=
  match a with
  | Fin r => Fin (- r)
  | PInf => NInf
  | NInf => PInf
  | NaN => NaN
  end.

Definition fadd (a b : fval) : fval :=
  match a, b with
  | Fin x, Fin y => rnd (x + y)
  | NaN, _ | _, NaN => NaN
  | PInf, NInf | NInf, PInf => NaN
  | PInf, _ | _, PInf => PInf
  | NInf, _ | _, NInf => NInf
  end.

Definition fsub (a b : fval) : fval := fadd a (fneg b).

(** The sign of a real number, for the products and quotients that involve
    an infinity or a zero divisor. *)
Inductive sign : Type := Neg | Zero | Pos.

Definition Rsign (r : R) : sign :=
  if Req_EM_T r 0 then Zero else if Rlt_dec 0 r then Pos else Neg.

Definition fsign (a : fval) : option sign :=
  match a with
  | Fin r => Some (Rsign r)
  | PInf => Some Pos
  | NInf => Some Neg
  | NaN => None
  end.

Definition inf_of_signs (s t : sign) : fval :=
  match s, t with
  | Zero, _ | _, Zero => NaN
  | Pos, Pos | Neg, Neg => PInf
  | Pos, Neg | Neg, Pos => NInf
  end.

Definition fmul (a b : fval) : fval :=
  match a, b with
  | Fin x, Fin y => rnd (x * y)
  | _, _ =>
      match fsign a, fsign b with
      | Some s, Some t => inf_of_signs s t
      | _, _ => NaN
      end
  end.

Definition fdiv (a b : fval) : fval :=
  match a, b with
  | NaN, _ | _, NaN => NaN
  | Fin x, Fin y =>
      if Req_EM_T y 0 then inf_of_signs (Rsign x) Pos else rnd (x / y)
  | Fin _, _ => Fin 0
  | _, Fin y => inf_of_signs (default Zero (fsign a))
                             (match Rsign y with Neg => Neg | _ => Pos end)
  | _, _ => NaN
  end.

Definition fcos (a : fval) : fval :=
  match a with Fin r => Fin (tcos r) | _ => NaN end.

Definition fsin (a : fval) : fval :=
  match a with Fin r => Fin (tsin r) | _ => NaN end.

(** [a > b]; every comparison with NaN is false. *)
Definition fgt (a b : fval) : bool :=
  match a, b with
  | NaN, _ | _, NaN => false
  | Fin x, Fin y => if Rlt_dec y x then true else false
  | PInf, PInf => false
  | PInf, _ => true
  | _, NInf => match a with NInf => false | _ => true end
  | _, _ => false
  end.

(** Minimum and maximum of two values as the reductions [Tensor.min] and
    [Tensor.max] combine them: NaN wins. *)
Definition fmin2 (a b : fval) : fval :=
  match a, b with
  | NaN, _ | _, NaN => NaN
  | _, _ => if fgt a b then b else a
  end.

Definition fmax2 (a b : fval) : fval :=
  match a, b with
  | NaN, _ | _, NaN => NaN
  | _, _ => if fgt b a then b else a
  end.

End Arithmetic.

(** ** Exceptions *)

Inductive exn : Type :=
| ValueError
| AssertionError
| IndexError
| KeyError
| RuntimeError
| ZeroDivisionError.

Inductive result (A : Type) : Type :=
| Ok (a : A)
| Err (e : exn).

Arguments Ok {A} a.
Arguments Err {A} e.

#[global] Instance result_ret : MRet result := fun A a => Ok a.

#[global] Instance result_bind : MBind result := fun A B f m =>
  match m with
  | Ok a => f a
  | Err e => Err e
  end.

(** The loop [for x in l: st = body(st, x)], stopping at the first
    exception. *)
Fixpoint for_each {S X : Type} (body : S -> X -> result S) (st : S)
    (l : list X) : result S :=
  match l with
  | [] => Ok st
  | x :: l' => st' ← body st x; for_each body st' l'
  end.

(** ** Tensors *)

Definition point : Type := fval * fval.

(** [Tensor]: shape [batch, graph, 2]; [Tensor1]: shape [batch, graph, 1]. *)
Abbreviation Tensor := (list (list point)).
Abbreviation Tensor1 := (list (list fval)).

Section Transforms.

Context {dtype : Dtype}.

(** An elementwise operation on the entries of the trailing dimension. *)
Definition tmap {A B : Type} (f : A -> B) (t : list (list A)) : list (list B) :=
  fmap (M := list) (fmap (M := list) f) t.

(** [x, y = xy.split(1, dim=2)], also [xy[..., [0]], xy[..., [1]]]. *)
Definition split_last (xy : Tensor) : Tensor1 * Tensor1 :=
  (tmap fst xy, tmap snd xy).

(** [torch.cat((x, y), dim=2)] of two [batch, graph, 1] tensors. *)
Definition cat_last (x y : Tensor1) : Tensor :=
  zip_with (zip_with pair) x y.

(** [torch.cat(zs, dim=0)]. *)
Definition cat_batch {A : Type} (zs : list (list A)) : list A := concat zs.

(** [c - x] and [x - c] with a scalar [c]. *)
Definition rsub_scalar (c : fval) (x : Tensor1) : Tensor1 :=
  tmap (fsub c) x.

Definition sub_scalar (x : Tensor1) (c : fval) : Tensor1 :=
  tmap (fun v => fsub v c) x.

(** [xy + c] on a [batch, graph, 2] tensor. *)
Definition add_scalar (xy : Tensor) (c : fval) : Tensor :=
  tmap (fun p : point => (fadd p.1 c, fadd p.2 c)) xy.

(** [s * x] where [s] has shape [batch, 1, 1] and [x] shape
    [batch, graph, 1]: the factor of a row is broadcast over its nodes. *)
Definition bmul (s : list fval) (x : Tensor1) : Tensor1 :=
  zip_with (fun c row => fmap (M := list) (fmul c) row) s x.

Definition tsub (a b : Tensor1) : Tensor1 := zip_with (zip_with fsub) a b.
Definition tadd (a b : Tensor1) : Tensor1 := zip_with (zip_with fadd) a b.

(** [xy.flip(-1)]: the two coordinates of every node are exchanged. *)
Definition flip_last (xy : Tensor) : Tensor :=
  tmap (fun p : point => (p.2, p.1)) xy.

(** [torch.where(mask, a, b)] with a mask of shape [batch, 1, 1]. *)
Definition where_ (mask : list bool) (a b : Tensor) : Tensor :=
  zip_with (fun (m : bool) (ab : list point * list point) =>
              if m then ab.1 else ab.2) mask (zip a b).

(** The entries of a tensor in storage order. *)
Definition elements (xy : Tensor) : list fval :=
  concat (fmap (M := list)
            (fun row => concat (fmap (M := list) (fun p : point => [p.1; p.2]) row))
            xy).

(** [x.min()] and [x.max()]: the reduction over all entries; torch raises
    on a tensor without entries. *)
Definition reduce_all (op : fval -> fval -> fval) (xy : Tensor) : result fval :=
  match elements xy with
  | [] => Err RuntimeError
  | v :: vs => Ok (foldl op v vs)
  end.

Definition tensor_min : Tensor -> result fval := reduce_all fmin2.
Definition tensor_max : Tensor -> result fval := reduce_all fmax2.

(** Python's [a // b] on integers. *)
Definition floordiv (a b : Z) : result Z :=
  if decide (b = 0%Z) then Err ZeroDivisionError else Ok (a / b)%Z.

(** The number of leading elements that the slice [l[:n]] selects in a
    sequence of length [len]: a negative [n] counts from the end. *)
Definition slice_stop (len : nat) (n : Z) : nat :=
  if decide (n < 0)%Z then Z.to_nat (Z.of_nat len + n)
  else Nat.min (Z.to_nat n) len.

(** [l[:n]] and [l[:n] = v]. *)
Definition slice_to {A : Type} (l : list A) (n : Z) : list A :=
  take (slice_stop (length l) n) l.

Definition slice_fill {A : Type} (l : list A) (n : Z) (v : A) : list A :=
  replicate (slice_stop (length l) n) v ++ drop (slice_stop (length l) n) l.

(** [t[i, j]] and [t[i, j] = p] with non-negative indices. *)
Definition getitem2 (t : Tensor) (i j : nat) : result point :=
  match t !! i with
  | None => Err IndexError
  | Some row =>
      match row !! j with
      | None => Err IndexError
      | Some p => Ok p
      end
  end.

Definition setitem2 (t : Tensor) (i j : nat) (p : point) : result Tensor :=
  match t !! i with
  | None => Err IndexError
  | Some row =>
      match row !! j with
      | None => Err IndexError
      | Some _ => Ok (<[i := <[j := p]> row]> t)
      end
  end.

(** ** Random numbers

    The generator is the stream of its future outputs, integers;
    [torch.rand(n)] takes the next [n] of them and maps each to a multiple
    of [2 ^ - prec] in [0, 1). *)
Definition rng : Type := nat -> Z.

Definition draw (k : Z) : R := dyadic (k mod 2 ^ prec) (- prec).

Definition rand (n : nat) (g : rng) : list fval * rng :=
  (fmap (M := list) (fun i => Fin (draw (g i))) (seq 0 n),
   fun i => g (n + i)%nat).

(** ** The dihedral group of order 8 *)

Definition dihedral_8_augmentation (xy : Tensor) : Tensor :=
  let '(x, y) := split_last xy in
  let z0 := cat_last x y in
  let z1 := cat_last (rsub_scalar (Fin 1) x) y in
  let z2 := cat_last x (rsub_scalar (Fin 1) y) in
  let z3 := cat_last (rsub_scalar (Fin 1) x) (rsub_scalar (Fin 1) y) in
  let z4 := cat_last y x in
  let z5 := cat_last (rsub_scalar (Fin 1) y) x in
  let z6 := cat_last y (rsub_scalar (Fin 1) x) in
  let z7 := cat_last (rsub_scalar (Fin 1) y) (rsub_scalar (Fin 1) x) in
  cat_batch [z0; z1; z2; z3; z4; z5; z6; z7].

(** [reduce] is used as a truth value. *)
Definition dihedral_8_augmentation_wrapper (xy : Tensor) (reduce : bool) : Tensor :=
  let xy := if reduce then slice_to xy (Z.of_nat (length xy) / 8)%Z else xy in
  dihedral_8_augmentation xy.

(** ** The symmetric (rotation and reflection) transform *)

(** The arguments have the shapes of the docstring as the caller passes
    them: [x] and [y] are [batch, graph, 1] tensors of one shape and [phi]
    holds one angle per row.  The broadcast operations then pair the angle
    of a row with the nodes of that row, and the nodes of [x] with the
    nodes of [y], position by position. *)
Definition symmetric_transform (x y : Tensor1) (phi : list fval)
    (offset : fval) : Tensor :=
  let x := sub_scalar x offset in
  let y := sub_scalar y offset in
  let x_prime := tsub (bmul (fcos <$> phi) x) (bmul (fsin <$> phi) y) in
  let y_prime := tadd (bmul (fsin <$> phi) x) (bmul (fcos <$> phi) y) in
  let mask := (fun p => fgt p (Fin (2 * fpi))) <$> phi in
  let xy := cat_last x_prime y_prime in
  let xy := where_ mask (flip_last xy) xy in
  add_scalar xy offset.

(** The default of [offset]. *)
Definition default_offset : fval := Fin (1 / 2).

(** The angles of [symmetric_augmentation]: [torch.rand(batch) * 4 * pi],
    with the leading [batch // num_augment] of them reset to 0 unless
    [first_augment]. *)
Definition symmetric_angles (batch : nat) (num_augment : Z)
    (first_augment : bool) (g : rng) : result (list fval * rng) :=
  let '(u, g') := rand batch g in
  let phi := (fun r => fmul (fmul r (Fin 4)) (Fin fpi)) <$> u in
  if first_augment then Ok (phi, g')
  else
    n ← floordiv (Z.of_nat batch) num_augment;
    Ok (slice_fill phi n (Fin 0), g').

Definition symmetric_augmentation (xy : Tensor) (num_augment : Z)
    (first_augment : bool) (g : rng) : result (Tensor * rng) :=
  '(phi, g') ← symmetric_angles (length xy) num_augment first_augment g;
  let '(x, y) := split_last xy in
  Ok (symmetric_transform x y phi default_offset, g').

(** ** Normalisation *)

Definition min_max_normalize (x : Tensor) : result Tensor :=
  lo ← tensor_min x;
  hi ← tensor_max x;
  Ok (tmap (fun p : point =>
              (fdiv (fsub p.1 lo) (fsub hi lo),
               fdiv (fsub p.2 lo) (fsub hi lo))) x).

(** ** Tensor dictionaries *)

(** A [TensorDict] with one batch dimension: [batch_size] is [td.size()],
    and every entry has [batch_size] rows. *)
Record TensorDict : Type := {
  batch_size : nat;
  entries : gmap string Tensor;
}.

(** [td[key]]. *)
Definition td_getitem (td : TensorDict) (key : string) : result Tensor :=
  match entries td !! key with
  | Some t => Ok t
  | None => Err KeyError
  end.

(** [td[key] = t]: the leading dimension of [t] has to be the batch size. *)
Definition td_setitem (td : TensorDict) (key : string) (t : Tensor) :
    result TensorDict :=
  if decide (length t = batch_size td)
  then Ok {| batch_size := batch_size td; entries := <[key := t]> (entries td) |}
  else Err RuntimeError.

(** [repeats] copies of a batch, one after the other along the batch
    axis. *)
Definition tile {A : Type} (repeats : nat) (x : list A) : list A :=
  concat (replicate repeats x).

(** Modelled from the spec: [batchify] of [rl4co.utils.ops] is not among
    the sources.  The augmented batch multiplies the batch size by the
    number of augmentations by tiling the batch dimension, so that row
    [k * batch + b] is replica [k] of instance [b]; this is the layout in
    which [dihedral_8_augmentation] stacks its images and in which
    [symmetric_augmentation] resets its leading angles.  The spec speaks
    of positive numbers of augmentations only; with another number the
    batch is left as it is. *)
Definition batchify (td : TensorDict) (repeats : Z) : TensorDict :=
  if decide (0 < repeats)%Z
  then {| batch_size := Z.to_nat repeats * batch_size td;
          entries := tile (Z.to_nat repeats) <$> entries td |}
  else td.

(** ** State augmentation *)

(** The function objects that [self.augmentation] can hold. *)
Inductive augmentation : Type :=
| dihedral8_fn
| symmetric_fn
| callable_fn (f : Tensor -> Z -> rng -> result (Tensor * rng)).

(** The truth value of an integer. *)
Definition truthy (n : Z) : bool := negb (n =? 0)%Z.

(** The call [self.augmentation(xy, self.num_augment)]: the second
    positional argument is [reduce] for the dihedral wrapper and
    [num_augment] for the symmetric augmentation. *)
Definition apply_augmentation (a : augmentation) (xy : Tensor)
    (num_augment : Z) (g : rng) : result (Tensor * rng) :=
  match a with
  | dihedral8_fn =>
      Ok (dihedral_8_augmentation_wrapper xy (truthy num_augment), g)
  | symmetric_fn => symmetric_augmentation xy num_augment false g
  | callable_fn f => f xy num_augment g
  end.

(** The argument [augment_fn]: a name or a callable. *)
Inductive augment_fn_arg : Type :=
| by_name (name : string)
| by_callable (f : augmentation).

Definition get_augment_function (augment_fn : augment_fn_arg) :
    result augmentation :=
  match augment_fn with
  | by_callable f => Ok f
  | by_name name =>
      if String.eqb name "dihedral8" then Ok dihedral8_fn
      else if String.eqb name "symmetric" then Ok symmetric_fn
      else Err ValueError
  end.

Record StateAugmentation : Type := {
  augmentation_of : augmentation;
  feats : list string;
  num_augment : Z;
  normalize : bool;
  first_aug_identity : bool;
}.

(** [self.augmentation == dihedral_8_augmentation_wrapper]. *)
Definition is_dihedral8 (a : augmentation) : bool :=
  match a with dihedral8_fn => true | _ => false end.

(** [StateAugmentation.__init__]; [feats_arg] is [None] by default. *)
Definition StateAugmentation_init (num_augment_arg : Z)
    (augment_fn : augment_fn_arg) (first_aug_identity_arg : bool)
    (normalize_arg : bool) (feats_arg : option (list string)) :
    result StateAugmentation :=
  a ← get_augment_function augment_fn;
  if is_dihedral8 a && negb (num_augment_arg =? 8)%Z
  then Err AssertionError
  else
    Ok {| augmentation_of := a;
          feats := match feats_arg with None => ["locs"] | Some l => l end;
          num_augment := num_augment_arg;
          normalize := normalize_arg;
          first_aug_identity := first_aug_identity_arg |}.

(** The body of the loop over [self.feats] in [__call__]; [td] is the
    argument of [__call__] and the state is [td_aug] with the generator. *)
Definition augment_feat (self : StateAugmentation) (td : TensorDict)
    (st : TensorDict * rng) (feat : string) : result (TensorDict * rng) :=
  let '(td_aug, g) := st in
  t ← td_getitem td_aug feat;
  init_aug_feat ← getitem2 t (batch_size td) 0;
  '(aug_feat, g') ← apply_augmentation (augmentation_of self) t
                       (num_augment self) g;
  aug_feat ← (if normalize self then min_max_normalize aug_feat
               else Ok aug_feat);
  aug_feat ← (if first_aug_identity self
               then setitem2 aug_feat (batch_size td) 0 init_aug_feat
               else Ok aug_feat);
  td_aug ← td_setitem td_aug feat aug_feat;
  Ok (td_aug, g').

(** [StateAugmentation.__call__]. *)
Definition StateAugmentation_call (self : StateAugmentation) (td : TensorDict)
    (g : rng) : result (TensorDict * rng) :=
  let td_aug := batchify td (num_augment self) in
  for_each (augment_feat self td) (td_aug, g) (feats self).

End Transforms.

(** ** The POMO policy *)

Module POMO.

(** A computation of the policy: it reads and updates the state of the
    process (module parameters, the random generator) and may raise. *)
Definition M (World A : Type) : Type := World -> result (A * World).

#[global] Instance M_ret {World : Type} : MRet (M World) :=
  fun A a w => Ok (a, w).

#[global] Instance M_bind {World : Type} : MBind (M World) :=
  fun A B k m w =>
    match m w with
    | Ok (a, w') => k a w'
    | Err e => Err e
    end.

Definition raise {World A : Type} (e : exn) : M World A := fun _ => Err e.

(** What [forward] returns: the dictionary with the keys [reward],
    [log_likelihood] and [actions]. *)
Record output (Value LL Actions : Type) : Type := {
  reward : Value;
  log_likelihood : LL;
  actions : option Actions;
}.

Arguments Build_output {Value LL Actions}.

Section Forward.

(** The collaborators of the policy are not among the sources: the
    tensor dictionary of the environment, the embedding, the encoder,
    the decoder and the log-likelihood are taken as they are given. *)
Context {World TD Value Embedding Encoded Aux LogP Actions LL : Type}.
Variable td_get : TD -> string -> option Value.
Variable init_embedding : TD -> M World Embedding.
Variable encoder : Embedding -> M World (Encoded * Aux).
Variable decoder : TD -> Encoded -> string -> M World (LogP * Actions * TD).
Variable get_log_likelihood : LogP -> Actions -> option Value -> M World LL.

(** [POMOPolicy.forward]. *)
Definition forward (td : TD) (phase : string) (decode_type : string)
    (return_actions : bool) : M World (output Value LL Actions) :=
  embedding ← init_embedding td;
  '(encoded_inputs, _) ← encoder embedding;
  '(_log_p, actions, td) ← decoder td encoded_inputs decode_type;
  ll ← get_log_likelihood _log_p actions (td_get td "mask");
  match td_get td "reward" with
  | None => raise KeyError
  | Some r =>
      mret (Build_output r ll (if return_actions then Some actions else None))
  end.

End Forward.

End POMO.

(** ** Notions of the specification *)

Section Notions.

Context {dtype : Dtype}.

(** The [k]-th block of [B] consecutive rows. *)
Definition batch_slice {A : Type} (k B : nat) (t : list A) : list A :=
  take B (drop (k * B) t).

(** The eight images of a point, in the order of the batch axis. *)
Definition dihedral_images : list (point -> point) :=
  [ fun p => (p.1, p.2);
    fun p => (fsub (Fin 1) p.1, p.2);
    fun p => (p.1, fsub (Fin 1) p.2);
    fun p => (fsub (Fin 1) p.1, fsub (Fin 1) p.2);
    fun p => (p.2, p.1);
    fun p => (fsub (Fin 1) p.2, p.1);
    fun p => (p.2, fsub (Fin 1) p.1);
    fun p => (fsub (Fin 1) p.2, fsub (Fin 1) p.1) ].

(** The image of the node [(a, b)] of a row with angle [phi]: the entry
    that [symmetric_transform] computes from the entries [a] of [x], [b]
    of [y] and the angle of their row. *)
Definition symmetric_point (a b phi offset : fval) : point :=
  let x := fsub a offset in
  let y := fsub b offset in
  let x_prime := fsub (fmul (fcos phi) x) (fmul (fsin phi) y) in
  let y_prime := fadd (fmul (fsin phi) x) (fmul (fcos phi) y) in
  let xy := if fgt phi (Fin (2 * fpi)) then (y_prime, x_prime)
            else (x_prime, y_prime) in
  (fadd xy.1 offset, fadd xy.2 offset).

(** The rotation by the angle [t] about the origin and about the point
    [(o, o)] as the operations of the data type compute it, and the
    exchange of the axes. *)
Definition frotate (t : fval) (p : point) : point :=
  (fsub (fmul (fcos t) p.1) (fmul (fsin t) p.2),
   fadd (fmul (fsin t) p.1) (fmul (fcos t) p.2)).

Definition frotate_about (o t : fval) (p : point) : point :=
  let q := frotate t (fsub p.1 o, fsub p.2 o) in (fadd q.1 o, fadd q.2 o).

Definition fswap_axes (p : point) : point := (p.2, p.1).

(** The same in the plane of the real numbers. *)
Definition rotate (t : R) (p : R * R) : R * R :=
  (cos t * p.1 - sin t * p.2, sin t * p.1 + cos t * p.2).

Definition rotate_about (o t : R) (p : R * R) : R * R :=
  let q := rotate t (p.1 - o, p.2 - o) in (q.1 + o, q.2 + o).

Definition swap_axes (p : R * R) : R * R := (p.2, p.1).

Definition fpoint (p : R * R) : point := (Fin p.1, Fin p.2).

Definition finite_point (p : point) : Prop := is_finite p.1 /\ is_finite p.2.

(** The Euclidean distance of two points of the plane. *)
Definition dist (p q : R * R) : R :=
  sqrt ((p.1 - q.1) * (p.1 - q.1) + (p.2 - q.2) * (p.2 - q.2)).

(** How far a coordinate of a node of [symmetric_transform] can be from
    the exact image when the cosine and the sine are within [tau]: six
    roundings of numbers up to 2 besides. *)
Definition transform_error (tau : R) : R := 6 * bpow (- prec) + tau.

(** The multiples of [2 ^ - prec] in [[0, 1]]: the draws of [torch.rand]
    and the number 1. *)
Definition on_grid (v : fval) : Prop :=
  exists k : Z, (0 <= k <= 2 ^ prec)%Z /\ v = Fin (dyadic k (- prec)).

Definition on_grid_point (p : point) : Prop := on_grid p.1 /\ on_grid p.2.

(** The image at position [k] of a batch, transformed again with the
    transform at position [j]. *)
Definition round_trip (j k : nat) (xy : Tensor) : Tensor :=
  batch_slice j (length xy)
    (dihedral_8_augmentation
       (batch_slice k (length xy) (dihedral_8_augmentation xy))).

(** What two reflections [1 - x] leave of a coordinate, and the round
    trips in which they occur: the two axis reflections, the point
    reflection and the diagonal reflection with themselves, and each
    quarter turn with the other one. *)
Definition reflect_twice (v : fval) : fval := fsub (Fin 1) (fsub (Fin 1) v).

Definition reflecting_round_trips : list (nat * nat) :=
  [(1, 1); (2, 2); (3, 3); (7, 7); (6, 5); (5, 6)]%nat.

Definition reflected_twice : list (point -> point) :=
  [ fun p => (reflect_twice p.1, p.2);
    fun p => (p.1, reflect_twice p.2);
    fun p => (reflect_twice p.1, reflect_twice p.2);
    fun p => (reflect_twice p.1, reflect_twice p.2);
    fun p => (p.1, reflect_twice p.2);
    fun p => (reflect_twice p.1, p.2) ].

(** What [symmetric_transform] does to a coordinate at the angle 0, where
    the cosine is 1 and the sine 0. *)
Definition recentre (v : fval) : fval :=
  fadd (fsub v (Fin (1 / 2))) (Fin (1 / 2)).

Definition recentre_point (p : point) : point := (recentre p.1, recentre p.2).

(** A coordinate from which the offset can be subtracted within the range
    of the data type, and a node of such coordinates. *)
Definition moderate (v : fval) : Prop :=
  exists r : R, v = Fin r /\ Rabs r <= bpow (emax - 2).

Definition moderate_point (p : point) : Prop := moderate p.1 /\ moderate p.2.

(** The entry [td_aug[feat][batch, 0]] that [__call__] saves before the
    augmentation and writes back after it. *)
Definition identity_slot (td_aug : TensorDict) (batch : nat) (feat : string) :
    result point :=
  t ← td_getitem td_aug feat; getitem2 t batch 0.

(** ** Concrete inputs *)

(** A tensor dictionary with the one feature [locs]. *)
Definition locs_td (t : Tensor) : TensorDict :=
  {| batch_size := length t; entries := {[ "locs"%string := t ]} |}.

(** The generator whose draws are all 0. *)
Definition zero_draws : rng := fun _ => 0%Z.

(** The callable [lambda xy, n: 1 - xy]. *)
Definition one_minus : augmentation :=
  callable_fn (fun xy _ g =>
                 Ok (tmap (fun p : point =>
                             (fsub (Fin 1) p.1, fsub (Fin 1) p.2)) xy, g)).

(** [StateAugmentation(num_augment=K, augment_fn=a, normalize=n)], with
    the defaults [first_aug_identity=True] and [feats=None]. *)
Definition configured (K : Z) (a : augmentation) (n : bool) : StateAugmentation :=
  {| augmentation_of := a;
     feats := ["locs"%string];
     num_augment := K;
     normalize := n;
     first_aug_identity := true |}.


(** ** Further notions *)

(** A coordinate inside the unit interval, a node inside the unit square. *)
Definition in_unit (v : fval) : Prop := exists r : R, v = Fin r /\ 0 <= r <= 1.

Definition in_unit_square (p : point) : Prop := in_unit p.1 /\ in_unit p.2.

(** A number of the data type that is small enough for the difference of
    two such numbers to stay in range, and a node of such coordinates. *)
Definition stored (v : fval) : Prop :=
  exists r : R, v = Fin r /\ representable r /\ Rabs r <= bpow (emax - 2).

Definition stored_point (p : point) : Prop := stored p.1 /\ stored p.2.

(** The position of the image that results from the image at position [k]
    followed by the image at position [j].  A position is read as three
    bits: bit 0 reflects the first coordinate of the image, bit 1 the
    second, bit 2 exchanges the coordinates of the input. *)
Definition dihedral_compose (j k : nat) : nat :=
  let a (n : nat) := Nat.odd n in
  let b (n : nat) := Nat.odd (n / 2) in
  let s (n : nat) := Nat.odd (n / 4) in
  let pos (a b s : bool) : nat :=
    (Nat.b2n a + 2 * Nat.b2n b + 4 * Nat.b2n s)%nat in
  if s j then pos (xorb (a j) (b k)) (xorb (b j) (a k)) (negb (s k))
  else pos (xorb (a j) (a k)) (xorb (b j) (b k)) (s k).

(** The angle that [symmetric_augmentation] computes from the output [k]
    of the generator. *)
Definition drawn_angle (k : Z) : fval :=
  fmul (fmul (Fin (draw k)) (Fin 4)) (Fin fpi).

(** Whether the slice [[: batch // num_augment]] holds position [i] of a
    sequence of [batch] elements: a negative bound counts from the end. *)
Definition in_leading_slice (batch : nat) (num_augment : Z) (i : nat) : Prop :=
  let q := (Z.of_nat batch / num_augment)%Z in
  if decide (q < 0)%Z then (Z.of_nat i < Z.of_nat batch + q)%Z
  else (Z.of_nat i < q)%Z.

(** A tensor dictionary is well formed when every entry has as many rows as
    the batch size says. *)
Definition td_wf (td : TensorDict) : Prop :=
  map_Forall (fun (_ : string) (t : Tensor) => length t = batch_size td)
    (entries td).

End Notions.

(** * Properties *)

(** ** Real numbers *)

Lemma Rabs_le_inv (a b : R) : Rabs a <= b -> - b <= a <= b.
Proof. unfold Rabs. destruct (Rcase_abs a); lra. Qed.

Lemma Rabs_lt_inv (a b : R) : Rabs a < b -> - b < a < b.
Proof. unfold Rabs. destruct (Rcase_abs a); lra. Qed.

(** ** Powers of two *)

Lemma bpow_gt_0 (e : Z) : 0 < bpow e.
Proof. apply powerRZ_lt. lra. Qed.

Lemma bpow_plus (a b : Z) : bpow (a + b) = bpow a * bpow b.
Proof. apply powerRZ_add. lra. Qed.

Lemma bpow_opp (e : Z) : bpow (- e) = / bpow e.
Proof.
  pose proof (bpow_gt_0 e) as H. pose proof (bpow_plus e (- e)) as P.
  rewrite Z.add_opp_diag_r in P. change (bpow 0) with 1 in P.
  apply Rmult_eq_reg_l with (bpow e); [|lra].
  rewrite <- P. field. lra.
Qed.

Lemma bpow_IZR (e : Z) : (0 <= e)%Z -> bpow e = IZR (2 ^ e).
Proof.
  intros He. rewrite <- (Z2Nat.id e He). unfold bpow.
  rewrite <- pow_powerRZ, pow_IZR. reflexivity.
Qed.

Lemma bpow_ge_1 (e : Z) : (0 <= e)%Z -> 1 <= bpow e.
Proof.
  intros He. rewrite bpow_IZR by exact He. apply IZR_le.
  pose proof (Z.pow_pos_nonneg 2 e ltac:(lia) He). lia.
Qed.

Lemma bpow_le (a b : Z) : (a <= b)%Z -> bpow a <= bpow b.
Proof.
  intros H. replace b with (a + (b - a))%Z by lia. rewrite bpow_plus.
  pose proof (bpow_gt_0 a). pose proof (bpow_ge_1 (b - a) ltac:(lia)). nra.
Qed.

Lemma bpow_lt (a b : Z) : (a < b)%Z -> bpow a < bpow b.
Proof.
  intros H. replace b with (a + 1 + (b - a - 1))%Z by lia.
  rewrite !bpow_plus. change (bpow 1) with (2 * 1).
  pose proof (bpow_gt_0 a). pose proof (bpow_ge_1 (b - a - 1) ltac:(lia)). nra.
Qed.

Lemma bpow_lt_inv (a b : Z) : bpow a < bpow b -> (a < b)%Z.
Proof.
  intros H. destruct (Z_lt_le_dec a b) as [L|L]; [exact L|].
  apply bpow_le in L. lra.
Qed.

Lemma bpow_le_inv (a b : Z) : bpow a <= bpow b -> (a <= b)%Z.
Proof.
  intros H. destruct (Z_lt_le_dec b a) as [L|L]; [|exact L].
  apply bpow_lt in L. lra.
Qed.

Lemma bpow_exp (e : Z) : bpow e = exp (IZR e * ln 2).
Proof. unfold bpow. rewrite powerRZ_Rpower by lra. reflexivity. Qed.

(** ** The magnitude of a real number *)

Lemma mag_spec (x : R) :
  x <> 0 -> bpow (mag x - 1) <= Rabs x < bpow (mag x).
Proof.
  intros Hx. assert (HA : 0 < Rabs x) by (apply Rabs_pos_lt; exact Hx).
  unfold mag. set (L := ln (Rabs x) / ln 2).
  pose proof (Zfloor_bound L) as [Hlo Hhi].
  assert (Hln2 : 0 < ln 2) by (pose proof ln_lt_2; lra).
  assert (HL : L * ln 2 = ln (Rabs x)) by (unfold L; field; lra).
  replace (Zfloor L + 1 - 1)%Z with (Zfloor L) by lia.
  rewrite !bpow_exp, plus_IZR. rewrite <- (exp_ln (Rabs x) HA) at 1 2.
  rewrite <- HL. split.
  - destruct (Rle_lt_or_eq_dec _ _ Hlo) as [H|H].
    + left. apply exp_increasing. nra.
    + rewrite H. right. reflexivity.
  - apply exp_increasing. nra.
Qed.

Lemma mag_unique (x : R) (e : Z) :
  bpow (e - 1) <= Rabs x < bpow e -> mag x = e.
Proof.
  intros [Hlo Hhi].
  assert (Hx : x <> 0).
  { intros ->. rewrite Rabs_R0 in Hlo. pose proof (bpow_gt_0 (e - 1)). lra. }
  destruct (mag_spec x Hx) as [Mlo Mhi].
  assert (e - 1 < mag x)%Z by (apply bpow_lt_inv; lra).
  assert (mag x - 1 < e)%Z by (apply bpow_lt_inv; lra).
  lia.
Qed.

Lemma mag_le_bpow (x : R) (e : Z) : x <> 0 -> Rabs x < bpow e -> (mag x <= e)%Z.
Proof.
  intros Hx H. destruct (mag_spec x Hx) as [Mlo _].
  assert (mag x - 1 < e)%Z by (apply bpow_lt_inv; lra). lia.
Qed.

Lemma mag_ge_bpow (x : R) (e : Z) : bpow (e - 1) <= Rabs x -> (e <= mag x)%Z.
Proof.
  intros H.
  assert (Hx : x <> 0).
  { intros ->. rewrite Rabs_R0 in H. pose proof (bpow_gt_0 (e - 1)). lra. }
  destruct (mag_spec x Hx) as [_ Mhi].
  assert (e - 1 < mag x)%Z by (apply bpow_lt_inv; lra). lia.
Qed.

Lemma mag_le (x y : R) : x <> 0 -> Rabs x <= Rabs y -> (mag x <= mag y)%Z.
Proof.
  intros Hx H. destruct (mag_spec x Hx) as [Mlo _].
  apply mag_ge_bpow. replace (mag x - 1)%Z with (mag x - 1)%Z by lia. lra.
Qed.

Lemma mag_opp (x : R) : mag (- x) = mag x.
Proof. unfold mag. rewrite Rabs_Ropp. reflexivity. Qed.

(** ** Rounding to the nearest integer, ties to even *)

Lemma Znearest_IZR (n : Z) : Znearest (IZR n) = n.
Proof.
  unfold Znearest. rewrite ZfloorZ.
  destruct (Rlt_dec (IZR n - IZR n) (/ 2)) as [_|H]; [reflexivity|lra].
Qed.

Lemma Znearest_floor_or_ceil (x : R) :
  Znearest x = Zfloor x \/ Znearest x = (Zfloor x + 1)%Z.
Proof.
  unfold Znearest.
  destruct (Rlt_dec _ _); [left; reflexivity|].
  destruct (Rlt_dec _ _); [right; reflexivity|].
  destruct (Z.even _); [left|right]; reflexivity.
Qed.

Lemma Znearest_half (x : R) : Rabs (IZR (Znearest x) - x) <= / 2.
Proof.
  pose proof (Zfloor_bound x) as [Hlo Hhi]. unfold Znearest.
  destruct (Rlt_dec (x - IZR (Zfloor x)) (/ 2)) as [H|H].
  - apply Rabs_le. lra.
  - destruct (Rlt_dec (/ 2) (x - IZR (Zfloor x))) as [H'|H'].
    + rewrite plus_IZR. apply Rabs_le. lra.
    + destruct (Z.even (Zfloor x)); [|rewrite plus_IZR]; apply Rabs_le; lra.
Qed.

Lemma Znearest_imp (x : R) (n : Z) : Rabs (x - IZR n) < / 2 -> Znearest x = n.
Proof.
  intros H. apply Rabs_def2 in H as [H1 H2].
  pose proof (Zfloor_bound x) as [Hlo Hhi].
  assert (Hcases : Zfloor x = n \/ Zfloor x = (n - 1)%Z).
  { assert (n - 1 <= Zfloor x)%Z.
    { apply Zfloor_lub. rewrite minus_IZR. lra. }
    assert (Zfloor x < n + 1)%Z.
    { apply lt_IZR. rewrite plus_IZR. lra. }
    lia. }
  unfold Znearest. destruct Hcases as [E|E]; rewrite E in *.
  - destruct (Rlt_dec (x - IZR n) (/ 2)) as [L|L]; [reflexivity|lra].
  - rewrite minus_IZR in *.
    destruct (Rlt_dec (x - (IZR n - 1)) (/ 2)) as [L|L]; [lra|].
    destruct (Rlt_dec (/ 2) (x - (IZR n - 1))) as [L'|L']; [lia|lra].
Qed.

Lemma Znearest_le (x y : R) : x <= y -> (Znearest x <= Znearest y)%Z.
Proof.
  intros H.
  destruct (Z_lt_le_dec (Znearest y) (Znearest x)) as [L|L]; [|exact L].
  exfalso.
  pose proof (Znearest_half x) as Hx. pose proof (Znearest_half y) as Hy.
  apply Rabs_le_inv in Hx, Hy.
  assert (HL : IZR (Znearest y) + 1 <= IZR (Znearest x)).
  { rewrite <- plus_IZR. apply IZR_le. lia. }
  (* then x = y = midpoint, both ties: same floor, same choice *)
  assert (Exy : x = y) by lra.
  subst y. lia.
Qed.

Lemma Znearest_opp (x : R) : Znearest (- x) = (- Znearest x)%Z.
Proof.
  pose proof (Zfloor_bound x) as [Hlo Hhi].
  destruct (Req_dec x (IZR (Zfloor x))) as [E|E].
  - rewrite E, <- opp_IZR, !Znearest_IZR. reflexivity.
  - assert (Hf : Zfloor (- x) = (- Zfloor x - 1)%Z).
    { apply Zfloor_eq. rewrite minus_IZR, opp_IZR. lra. }
    unfold Znearest. rewrite Hf, minus_IZR, opp_IZR.
    destruct (Rlt_dec (x - IZR (Zfloor x)) (/ 2)) as [A|A];
      destruct (Rlt_dec (- x - (- IZR (Zfloor x) - 1)) (/ 2)) as [B|B];
      try lra.
    + destruct (Rlt_dec (/ 2) (- x - (- IZR (Zfloor x) - 1))) as [C|C];
        [lia|lra].
    + destruct (Rlt_dec (/ 2) (x - IZR (Zfloor x))) as [C|C]; [lia|lra].
    + destruct (Rlt_dec (/ 2) (x - IZR (Zfloor x))) as [C|C]; [lra|].
      destruct (Rlt_dec (/ 2) (- x - (- IZR (Zfloor x) - 1))) as [C'|C'];
        [lra|].
      replace (- Zfloor x - 1)%Z with (- (Zfloor x + 1))%Z by lia.
      rewrite Z.even_opp, Z.even_add. simpl.
      destruct (Z.even (Zfloor x)); simpl; lia.
Qed.

(** ** Rounding to a binary format *)

Section Rounding.

Variables p emx : Z.
Hypothesis Hp : (1 <= p)%Z.

Lemma cexp_ge_emin (x : R) : (3 - emx - p <= cexp_of p emx x)%Z.
Proof. unfold cexp_of. lia. Qed.

Lemma cexp_opp (x : R) : cexp_of p emx (- x) = cexp_of p emx x.
Proof. unfold cexp_of. rewrite mag_opp. reflexivity. Qed.

Lemma cexp_le (x y : R) :
  x <> 0 -> Rabs x <= Rabs y -> (cexp_of p emx x <= cexp_of p emx y)%Z.
Proof.
  intros Hx H. pose proof (mag_le x y Hx H). unfold cexp_of. lia.
Qed.

Lemma bpow_ratio (e c : Z) : (c <= e)%Z -> bpow e * bpow (- c) = IZR (2 ^ (e - c)).
Proof.
  intros H. rewrite <- bpow_plus, <- bpow_IZR by lia. f_equal.
Qed.

Lemma round_0 : round_to p emx 0 = 0.
Proof.
  unfold round_to. rewrite Rmult_0_l.
  change 0 with (IZR 0) at 1. rewrite Znearest_IZR. simpl. ring.
Qed.

Lemma round_opp (x : R) : round_to p emx (- x) = - round_to p emx x.
Proof.
  unfold round_to. rewrite cexp_opp.
  replace (- x * bpow (- cexp_of p emx x)) with (- (x * bpow (- cexp_of p emx x)))
    by ring.
  rewrite Znearest_opp, opp_IZR. ring.
Qed.

(** A multiple of a power of two that is not finer than the format at
    that magnitude is not changed. *)
Lemma round_scaled (x : R) (m e : Z) :
  x = IZR m * bpow e -> (cexp_of p emx x <= e)%Z -> round_to p emx x = x.
Proof.
  intros Hx He. unfold round_to. set (c := cexp_of p emx x) in *.
  assert (Hs : x * bpow (- c) = IZR (m * 2 ^ (e - c))).
  { rewrite Hx at 1. rewrite Rmult_assoc, bpow_ratio by exact He.
    rewrite mult_IZR. reflexivity. }
  rewrite Hs, Znearest_IZR, <- Hs.
  rewrite Rmult_assoc, <- bpow_plus.
  replace (- c + c)%Z with 0%Z by lia. change (bpow 0) with 1. ring.
Qed.

Lemma round_ge_0 (x : R) : 0 <= x -> 0 <= round_to p emx x.
Proof.
  intros Hx. unfold round_to.
  pose proof (bpow_gt_0 (cexp_of p emx x)) as Hb.
  pose proof (bpow_gt_0 (- cexp_of p emx x)) as Hb'.
  assert (0 <= Znearest (x * bpow (- cexp_of p emx x)))%Z.
  { rewrite <- (Znearest_IZR 0). apply Znearest_le. simpl. nra. }
  apply IZR_le in H. nra.
Qed.

Lemma round_le_pos (x y : R) :
  0 < x -> x <= y -> round_to p emx x <= round_to p emx y.
Proof.
  intros Hx Hxy.
  assert (Hax : Rabs x = x) by (apply Rabs_pos_eq; lra).
  assert (Hay : Rabs y = y) by (apply Rabs_pos_eq; lra).
  assert (Hx0 : x <> 0) by lra. assert (Hy0 : y <> 0) by lra.
  pose proof (mag_le x y Hx0 ltac:(lra)) as Hmag.
  pose proof (cexp_le x y Hx0 ltac:(lra)) as Hc.
  destruct (Z.eq_dec (cexp_of p emx x) (cexp_of p emx y)) as [E|NE].
  - unfold round_to. rewrite E.
    pose proof (bpow_gt_0 (cexp_of p emx y)) as Hb.
    pose proof (bpow_gt_0 (- cexp_of p emx y)) as Hb'.
    assert (Hz : (Znearest (x * bpow (- cexp_of p emx y))
                  <= Znearest (y * bpow (- cexp_of p emx y)))%Z)
      by (apply Znearest_le; nra).
    apply IZR_le in Hz. nra.
  - assert (Hcy : cexp_of p emx y = (mag y - p)%Z) by (unfold cexp_of in *; lia).
    assert (Hmlt : (mag x < mag y)%Z) by (unfold cexp_of in *; lia).
    destruct (mag_spec x Hx0) as [_ Xhi]. destruct (mag_spec y Hy0) as [Ylo _].
    rewrite Hax in Xhi. rewrite Hay in Ylo.
    apply Rle_trans with (bpow (mag y - 1)).
    + unfold round_to. set (c := cexp_of p emx x) in *.
      pose proof (bpow_gt_0 c) as Hb. pose proof (bpow_gt_0 (- c)) as Hb'.
      assert (Hk : (c <= mag y - 1)%Z) by lia.
      assert (HB : x <= bpow (mag y - 1)).
      { pose proof (bpow_le (mag x) (mag y - 1) ltac:(lia)). lra. }
      assert (Hz : (Znearest (x * bpow (- c)) <= 2 ^ (mag y - 1 - c))%Z).
      { rewrite <- (Znearest_IZR (2 ^ (mag y - 1 - c))). apply Znearest_le.
        rewrite <- bpow_ratio by exact Hk. nra. }
      apply IZR_le in Hz. rewrite <- bpow_ratio in Hz by exact Hk.
      replace (bpow (mag y - 1))
        with (bpow (mag y - 1) * bpow (- c) * bpow c).
      * nra.
      * rewrite Rmult_assoc, <- bpow_plus.
        replace (- c + c)%Z with 0%Z by lia. change (bpow 0) with 1. ring.
    + unfold round_to. rewrite Hcy. set (c := (mag y - p)%Z).
      pose proof (bpow_gt_0 c) as Hb. pose proof (bpow_gt_0 (- c)) as Hb'.
      assert (Hk : (c <= mag y - 1)%Z) by (unfold c; lia).
      assert (Hz : (2 ^ (mag y - 1 - c) <= Znearest (y * bpow (- c)))%Z).
      { rewrite <- (Znearest_IZR (2 ^ (mag y - 1 - c))) at 1. apply Znearest_le.
        rewrite <- bpow_ratio by exact Hk. nra. }
      apply IZR_le in Hz. rewrite <- bpow_ratio in Hz by exact Hk.
      replace (bpow (mag y - 1))
        with (bpow (mag y - 1) * bpow (- c) * bpow c).
      * nra.
      * rewrite Rmult_assoc, <- bpow_plus.
        replace (- c + c)%Z with 0%Z by lia. change (bpow 0) with 1. ring.
Qed.

Lemma round_le (x y : R) : x <= y -> round_to p emx x <= round_to p emx y.
Proof.
  intros Hxy. destruct (Rlt_le_dec 0 x) as [Hx|Hx].
  - apply round_le_pos; assumption.
  - destruct (Rlt_le_dec y 0) as [Hy|Hy].
    + apply Ropp_le_cancel. rewrite <- !round_opp.
      apply round_le_pos; lra.
    + apply Rle_trans with 0.
      * apply Ropp_le_cancel. rewrite <- round_opp, Ropp_0.
        apply round_ge_0. lra.
      * apply round_ge_0. exact Hy.
Qed.

Lemma round_error (x : R) :
  Rabs (round_to p emx x - x) <= bpow (cexp_of p emx x) / 2.
Proof.
  unfold round_to. set (c := cexp_of p emx x).
  pose proof (bpow_gt_0 c) as Hb.
  pose proof (Znearest_half (x * bpow (- c))) as H.
  replace (IZR (Znearest (x * bpow (- c))) * bpow c - x)
    with ((IZR (Znearest (x * bpow (- c))) - x * bpow (- c)) * bpow c).
  - rewrite Rabs_mult, (Rabs_pos_eq (bpow c)) by lra. nra.
  - rewrite bpow_opp. field. lra.
Qed.

Lemma round_nearest (x : R) (n : Z) :
  Rabs (x * bpow (- cexp_of p emx x) - IZR n) < / 2 ->
  round_to p emx x = IZR n * bpow (cexp_of p emx x).
Proof.
  intros H. unfold round_to. rewrite (Znearest_imp _ n H). reflexivity.
Qed.

(** The mantissa of a rounded number has at most [p] bits, or is the
    power [2 ^ p]. *)
Lemma round_mantissa (x : R) :
  (Z.abs (Znearest (x * bpow (- cexp_of p emx x))) <= 2 ^ p)%Z.
Proof.
  set (c := cexp_of p emx x).
  destruct (Req_dec x 0) as [->|Hx].
  - rewrite Rmult_0_l. change 0 with (IZR 0). rewrite Znearest_IZR.
    pose proof (Z.pow_pos_nonneg 2 p ltac:(lia) ltac:(lia)). simpl. lia.
  - destruct (mag_spec x Hx) as [_ Hhi].
    pose proof (bpow_gt_0 (- c)) as Hb'.
    assert (Hk : (c <= mag x + (c - (mag x - p)))%Z) by lia.
    assert (Hs : Rabs (x * bpow (- c)) <= IZR (2 ^ p)).
    { rewrite Rabs_mult, (Rabs_pos_eq (bpow (- c))) by lra.
      assert (Hmc : (mag x - c <= p)%Z) by (unfold c, cexp_of; lia).
      apply Rle_trans with (bpow (mag x) * bpow (- c)); [nra|].
      rewrite <- bpow_plus, <- bpow_IZR by lia. apply bpow_le. lia. }
    apply Rabs_le_inv in Hs as [H1 H2].
    assert (- 2 ^ p <= Znearest (x * bpow (- c)))%Z.
    { rewrite <- (Znearest_IZR (- 2 ^ p)). apply Znearest_le.
      rewrite opp_IZR. exact H1. }
    assert (Znearest (x * bpow (- c)) <= 2 ^ p)%Z.
    { rewrite <- (Znearest_IZR (2 ^ p)) at 1. apply Znearest_le. exact H2. }
    lia.
Qed.

End Rounding.

(** ** The numbers of a data type *)

Lemma bpow_m1 : bpow (-1) = / 2.
Proof. unfold bpow. simpl. lra. Qed.

Lemma bpow_1 : bpow 1 = 2.
Proof. unfold bpow. simpl. lra. Qed.

Lemma bpow_2 : bpow 2 = 4.
Proof. unfold bpow. simpl. lra. Qed.

Lemma dyadic_0 (e : Z) : dyadic 0 e = 0.
Proof. unfold dyadic. ring. Qed.

Lemma dyadic_opp (m e : Z) : dyadic (- m) e = - dyadic m e.
Proof. unfold dyadic. rewrite opp_IZR. ring. Qed.

Lemma dyadic_add (m n e : Z) : dyadic m e + dyadic n e = dyadic (m + n) e.
Proof. unfold dyadic. rewrite plus_IZR. ring. Qed.

Lemma dyadic_sub (m n e : Z) : dyadic m e - dyadic n e = dyadic (m - n) e.
Proof. unfold dyadic. rewrite minus_IZR. ring. Qed.

(** The same number with a finer exponent. *)
Lemma dyadic_shift (m e k : Z) :
  (0 <= k)%Z -> dyadic m e = dyadic (m * 2 ^ k) (e - k).
Proof.
  intros Hk. unfold dyadic. rewrite mult_IZR, <- bpow_IZR by exact Hk.
  rewrite Rmult_assoc, <- bpow_plus. do 2 f_equal. lia.
Qed.

Lemma dyadic_scale (m e k : Z) : dyadic m e * bpow k = dyadic m (e + k).
Proof. unfold dyadic. rewrite bpow_plus. ring. Qed.

Lemma dyadic_abs (m e : Z) : Rabs (dyadic m e) = dyadic (Z.abs m) e.
Proof.
  unfold dyadic. pose proof (bpow_gt_0 e).
  rewrite Rabs_mult, Rabs_Zabs, (Rabs_pos_eq (bpow e)) by lra. reflexivity.
Qed.

Lemma dyadic_le (m n e : Z) : (m <= n)%Z -> dyadic m e <= dyadic n e.
Proof.
  intros H. unfold dyadic. pose proof (bpow_gt_0 e). apply IZR_le in H. nra.
Qed.

Lemma dyadic_lt (m n e : Z) : (m < n)%Z -> dyadic m e < dyadic n e.
Proof.
  intros H. unfold dyadic. pose proof (bpow_gt_0 e). apply IZR_lt in H. nra.
Qed.

Lemma dyadic_lt_inv (m n e : Z) : dyadic m e < dyadic n e -> (m < n)%Z.
Proof.
  intros H. destruct (Z_lt_le_dec m n) as [L|L]; [exact L|].
  apply (dyadic_le n m e) in L. lra.
Qed.

Lemma dyadic_eq_inv (m n e : Z) : dyadic m e = dyadic n e -> m = n.
Proof.
  intros H. destruct (Z.lt_total m n) as [L|[L|L]]; [|exact L|];
    apply (dyadic_lt _ _ e) in L; lra.
Qed.

Lemma dyadic_bpow (k e : Z) : (0 <= k)%Z -> dyadic (2 ^ k) e = bpow (k + e).
Proof.
  intros Hk. unfold dyadic. rewrite <- bpow_IZR by exact Hk.
  symmetry. apply bpow_plus.
Qed.

Section Format.

Context {dtype : Dtype}.

Lemma representable_dyadic (m e : Z) :
  (Z.abs m < 2 ^ prec)%Z -> (3 - emax - prec <= e)%Z -> (e + prec <= emax)%Z ->
  representable (dyadic m e).
Proof. intros Hm He He'. exists m, e. auto. Qed.

Lemma representable_opp (x : R) : representable x -> representable (- x).
Proof.
  intros (m & e & -> & Hm & He). exists (- m)%Z, e.
  split; [symmetry; apply dyadic_opp|]. split; [lia|exact He].
Qed.

Lemma representable_bound (x : R) : representable x -> Rabs x < bpow emax.
Proof.
  intros (m & e & -> & Hm & He & He').
  assert (Hp : (0 <= prec)%Z).
  { destruct (Z_lt_le_dec prec 0) as [L|L]; [|exact L].
    rewrite Z.pow_neg_r in Hm by exact L. lia. }
  rewrite dyadic_abs.
  apply Rlt_le_trans with (dyadic (2 ^ prec) e); [apply dyadic_lt; exact Hm|].
  rewrite dyadic_bpow by exact Hp. apply bpow_le. lia.
Qed.

Lemma representable_round (x : R) : representable x -> round x = x.
Proof.
  intros (m & e & -> & Hm & He & He'). unfold round.
  assert (Hp : (0 <= prec)%Z).
  { destruct (Z_lt_le_dec prec 0) as [L|L]; [|exact L].
    rewrite Z.pow_neg_r in Hm by exact L. lia. }
  destruct (Z.eq_dec m 0%Z) as [->|Hm0].
  - rewrite dyadic_0. apply round_0.
  - apply (round_scaled prec emax (dyadic m e) m e); [reflexivity|].
    unfold cexp_of. apply Z.max_lub; [|exact He].
    assert (mag (dyadic m e) <= prec + e)%Z; [|lia].
    apply mag_le_bpow.
    + unfold dyadic. pose proof (bpow_gt_0 e).
      assert (IZR m <> 0) by (apply not_0_IZR; exact Hm0). nra.
    + rewrite dyadic_abs, <- dyadic_bpow by exact Hp.
      apply dyadic_lt. exact Hm.
Qed.

Lemma rnd_round (x : R) : Rabs (round x) < bpow emax -> rnd x = Fin (round x).
Proof.
  intros H. unfold rnd. cbn zeta.
  destruct (Rlt_dec (Rabs (round x)) (bpow emax)); [reflexivity|contradiction].
Qed.

Lemma rnd_exact (x : R) : representable x -> rnd x = Fin x.
Proof.
  intros H. rewrite rnd_round; rewrite (representable_round x H);
    [reflexivity|apply representable_bound; exact H].
Qed.

Lemma rnd_0 : rnd 0 = Fin 0.
Proof.
  rewrite rnd_round; unfold round; rewrite round_0; [reflexivity|].
  rewrite Rabs_R0. apply bpow_gt_0.
Qed.

Lemma rnd_opp (x : R) : rnd (- x) = fneg (rnd x).
Proof.
  unfold rnd, round. cbn zeta. rewrite round_opp, Rabs_Ropp.
  destruct (Rlt_dec (Rabs (round_to prec emax x)) (bpow emax)) as [H|H];
    [reflexivity|].
  assert (Hn : round_to prec emax x <> 0).
  { intros E. apply H. rewrite E, Rabs_R0. apply bpow_gt_0. }
  destruct (Rlt_dec 0 (- round_to prec emax x)) as [A|A];
    destruct (Rlt_dec 0 (round_to prec emax x)) as [B|B];
    try reflexivity; lra.
Qed.

(** Rounding is monotone: the result lies between any two numbers of the
    format that enclose the exact value. *)
Lemma rnd_between (a b x : R) :
  (1 <= prec)%Z -> representable a -> representable b -> a <= x <= b ->
  rnd x = Fin (round x) /\ a <= round x <= b.
Proof.
  intros Hp Ha Hb [Hax Hxb].
  pose proof (round_le prec emax Hp a x Hax) as H1.
  pose proof (round_le prec emax Hp x b Hxb) as H2.
  fold (round a) in H1. fold (round b) in H2. fold (round x) in H1, H2.
  rewrite (representable_round a Ha) in H1.
  rewrite (representable_round b Hb) in H2.
  split; [|split; assumption].
  apply rnd_round.
  pose proof (representable_bound a Ha) as Ba.
  pose proof (representable_bound b Hb) as Bb.
  apply Rabs_lt_inv in Ba, Bb. apply Rabs_def1; lra.
Qed.

Lemma rnd_between_Fin (a b x : R) :
  (1 <= prec)%Z -> representable a -> representable b -> a <= x <= b ->
  exists y : R, rnd x = Fin y /\ a <= y <= b.
Proof.
  intros Hp Ha Hb Hx. exists (round x). apply rnd_between; assumption.
Qed.

End Format.

(** ** Valid formats *)

Lemma PI_bounds : 3 < PI <= 7 / 2.
Proof.
  split; [pose proof PI2_3_2; lra|].
  pose proof (PI_ineq 1) as [_ H].
  unfold sum_f_R0, tg_alt, PI_tg in H. simpl in H. lra.
Qed.

Section ValidFormat.

Context {dtype : Dtype}.

Lemma valid_format_pow : valid_format -> (8 <= 2 ^ prec)%Z.
Proof.
  intros [Hp _]. change 8%Z with (2 ^ 3)%Z. apply Z.pow_le_mono_r; lia.
Qed.

(** The numbers with at most three bits and a small exponent. *)
Lemma representable_small (x : R) (m e : Z) :
  valid_format -> x = dyadic m e -> (Z.abs m < 8)%Z -> (-6 <= e <= 3)%Z ->
  representable x.
Proof.
  intros V -> Hm He. pose proof (valid_format_pow V). destruct V as [Hp He'].
  apply representable_dyadic; lia.
Qed.

Lemma representable_0 : valid_format -> representable 0.
Proof.
  intros V. apply (representable_small 0 0 0 V); [|lia|lia].
  unfold dyadic. ring.
Qed.

Lemma representable_1 : valid_format -> representable 1.
Proof.
  intros V. apply (representable_small 1 1 0 V); [|lia|lia].
  unfold dyadic, bpow. simpl. ring.
Qed.

Lemma representable_2 : valid_format -> representable 2.
Proof.
  intros V. apply (representable_small 2 1 1 V); [|lia|lia].
  unfold dyadic. rewrite bpow_1. ring.
Qed.

Lemma representable_half : valid_format -> representable (1 / 2).
Proof.
  intros V. apply (representable_small (1 / 2) 1 (-1) V); [|lia|lia].
  unfold dyadic. rewrite bpow_m1. lra.
Qed.

Lemma rnd_half : valid_format -> rnd (1 / 2) = Fin (1 / 2).
Proof. intros V. apply rnd_exact, representable_half, V. Qed.

Lemma rnd_1 : valid_format -> rnd 1 = Fin 1.
Proof. intros V. apply rnd_exact, representable_1, V. Qed.

(** The error of a rounding of a number up to 2. *)
Lemma round_error_small (x : R) :
  valid_format -> Rabs x <= 2 -> Rabs (round x - x) <= bpow (- prec).
Proof.
  intros V Hx. pose proof (bpow_gt_0 (- prec)) as Hb.
  destruct (Req_dec x 0) as [->|Hx0].
  { unfold round. rewrite round_0, Rminus_0_r, Rabs_R0. lra. }
  destruct (Rle_lt_or_eq_dec _ _ Hx) as [Hlt|Heq].
  - unfold round. eapply Rle_trans; [apply round_error|].
    assert (Hm : (mag x <= 1)%Z).
    { apply mag_le_bpow; [exact Hx0|]. rewrite bpow_1. exact Hlt. }
    assert (Hc : (cexp_of prec emax x <= 1 - prec)%Z).
    { destruct V as [Hp He]. unfold cexp_of. lia. }
    apply bpow_le in Hc.
    replace (1 - prec)%Z with (1 + - prec)%Z in Hc by lia.
    rewrite bpow_plus, bpow_1 in Hc. lra.
  - assert (Hr : representable x).
    { unfold Rabs in Heq. destruct (Rcase_abs x).
      - replace x with (- 2) by lra. apply representable_opp, representable_2, V.
      - rewrite Heq. apply representable_2, V. }
    rewrite (representable_round x Hr), Rminus_diag, Rabs_R0. lra.
Qed.

(** A rounding of a number up to [B <= 2] stays within [B] and within
    [2 ^ - prec] of the exact value. *)
Lemma rnd_close (B x : R) :
  valid_format -> representable B -> B <= 2 -> Rabs x <= B ->
  exists y : R,
    rnd x = Fin y /\ Rabs (y - x) <= bpow (- prec) /\ Rabs y <= B.
Proof.
  intros V HB HB2 Hx. apply Rabs_le_inv in Hx.
  assert (Hp : (1 <= prec)%Z) by (destruct V; lia).
  destruct (rnd_between (- B) B x Hp (representable_opp B HB) HB Hx)
    as [E Hr].
  exists (round x). split; [exact E|]. split.
  - apply round_error_small; [exact V|]. apply Rabs_le. lra.
  - apply Rabs_le. exact Hr.
Qed.

(** A rounded number that is in range is a number of the format. *)
Lemma round_representable (x : R) :
  valid_format -> Rabs (round x) < bpow emax -> representable (round x).
Proof.
  intros V Hr. pose proof V as [Hp He].
  assert (Hp1 : (1 <= prec)%Z) by lia.
  unfold round in *. unfold round_to in *.
  set (c := cexp_of prec emax x) in *.
  set (n := Znearest (x * bpow (- c))) in *.
  pose proof (round_mantissa prec emax Hp1 x) as Hn. fold c in Hn. fold n in Hn.
  fold (dyadic n c) in *.
  destruct (Z.eq_dec n 0%Z) as [E0|N0].
  { rewrite E0, dyadic_0. apply representable_0, V. }
  assert (Hx0 : x <> 0).
  { intros ->. apply N0. unfold n. rewrite Rmult_0_l.
    change 0 with (IZR 0). apply Znearest_IZR. }
  assert (Hce : (c + prec <= emax)%Z).
  { destruct (Z.eq_dec c (3 - emax - prec)%Z) as [Ec|Nc]; [lia|].
    assert (Hc : c = (mag x - prec)%Z) by (unfold c, cexp_of in *; lia).
    destruct (mag_spec x Hx0) as [Hlo _].
    assert (Hbig : (2 ^ (prec - 1) <= Z.abs n)%Z).
    { assert (Hs : bpow (prec - 1) <= Rabs (x * bpow (- c))).
      { pose proof (bpow_gt_0 (- c)) as Hb.
        rewrite Rabs_mult, (Rabs_pos_eq (bpow (- c))) by lra.
        replace (prec - 1)%Z with (mag x - 1 + - c)%Z by lia.
        rewrite bpow_plus. nra. }
      rewrite bpow_IZR in Hs by lia.
      unfold Rabs in Hs. destruct (Rcase_abs (x * bpow (- c))) as [Hneg|Hpos].
      - assert (n <= - 2 ^ (prec - 1))%Z; [|lia].
        rewrite <- (Znearest_IZR (- 2 ^ (prec - 1))). apply Znearest_le.
        rewrite opp_IZR. lra.
      - assert (2 ^ (prec - 1) <= n)%Z; [|lia].
        rewrite <- (Znearest_IZR (2 ^ (prec - 1))) at 1. apply Znearest_le.
        exact Hs. }
    rewrite dyadic_abs in Hr.
    assert (Hlt : bpow (prec - 1 + c) < bpow emax).
    { eapply Rle_lt_trans; [|exact Hr].
      rewrite <- dyadic_bpow by lia. apply dyadic_le. exact Hbig. }
    apply bpow_lt_inv in Hlt. lia. }
  assert (Hcm : (3 - emax - prec <= c)%Z) by (unfold c, cexp_of; lia).
  destruct (Z.eq_dec (Z.abs n) (2 ^ prec)%Z) as [Emax|Nmax].
  - (* the mantissa is the power 2 ^ prec *)
    rewrite dyadic_abs, Emax, dyadic_bpow in Hr by lia.
    apply bpow_lt_inv in Hr.
    assert (Hpow : (2 ^ prec = 2 * 2 ^ (prec - 1))%Z).
    { rewrite <- Z.pow_succ_r by lia. f_equal. lia. }
    assert (Hhalf : (0 < 2 ^ (prec - 1))%Z) by (apply Z.pow_pos_nonneg; lia).
    exists (n / 2)%Z, (c + 1)%Z.
    assert (Hn2 : n = (n / 2 * 2 ^ 1)%Z).
    { change (2 ^ 1)%Z with 2%Z.
      destruct (Z.abs_eq_or_opp n) as [E|E]; rewrite E in Emax.
      - rewrite Emax, Hpow. rewrite (Z.mul_comm 2), Z.div_mul by lia. lia.
      - assert (n = - (2 * 2 ^ (prec - 1)))%Z as -> by lia.
        rewrite <- Z.mul_opp_r, (Z.mul_comm 2), Z.div_mul by lia. lia. }
    split.
    + rewrite Hn2 at 1. rewrite (dyadic_shift (n / 2) (c + 1) 1) by lia.
      f_equal. lia.
    + split; [|lia]. lia.
  - apply representable_dyadic; lia.
Qed.

Lemma rnd_representable (x y : R) :
  valid_format -> rnd x = Fin y -> representable y.
Proof.
  intros V. unfold rnd. cbn zeta.
  destruct (Rlt_dec (Rabs (round x)) (bpow emax)) as [H|H].
  - intros E. injection E as <-. apply round_representable; assumption.
  - destruct (Rlt_dec 0 (round x)); discriminate.
Qed.

(** Two numbers of the format that differ are at least the least
    positive number apart. *)
Lemma representable_gap (a b : R) :
  valid_format -> representable a -> representable b -> a < b ->
  bpow (3 - emax - prec) <= b - a.
Proof.
  intros V (m & e & -> & _ & He & _) (n & f & -> & _ & Hf & _) Hlt.
  set (emin := (3 - emax - prec)%Z) in *.
  rewrite (dyadic_shift m e (e - emin)) in * by lia.
  rewrite (dyadic_shift n f (f - emin)) in * by lia.
  replace (e - (e - emin))%Z with emin in * by lia.
  replace (f - (f - emin))%Z with emin in * by lia.
  apply dyadic_lt_inv in Hlt. rewrite dyadic_sub.
  replace (bpow emin) with (dyadic 1 emin) by (unfold dyadic; ring).
  apply dyadic_le. lia.
Qed.

Lemma representable_bpow (e : Z) :
  valid_format -> (3 - emax - prec <= e < emax)%Z -> representable (bpow e).
Proof.
  intros [Hp He] H.
  destruct (Z_lt_le_dec (e + 1) (prec + (3 - emax - prec))) as [L|L].
  - (* a subnormal power *)
    replace (bpow e) with (dyadic (2 ^ (e - (3 - emax - prec))) (3 - emax - prec)).
    + apply representable_dyadic; [|lia|lia].
      rewrite Z.abs_eq by (apply Z.pow_nonneg; lia).
      apply Z.pow_lt_mono_r; lia.
    + rewrite dyadic_bpow by lia. f_equal. lia.
  - replace (bpow e) with (dyadic (2 ^ (prec - 1)) (e - (prec - 1))).
    + apply representable_dyadic; [|lia|lia].
      rewrite Z.abs_eq by (apply Z.pow_nonneg; lia).
      apply Z.pow_lt_mono_r; lia.
    + rewrite dyadic_bpow by lia. f_equal. lia.
Qed.

(** A mantissa may also be the power [2 ^ prec] itself. *)
Lemma representable_dyadic_le (m e : Z) :
  valid_format ->
  (Z.abs m <= 2 ^ prec)%Z -> (3 - emax - prec <= e)%Z -> (e + prec < emax)%Z ->
  representable (dyadic m e).
Proof.
  intros V Hm He He'. pose proof V as [Hp _].
  destruct (Z.eq_dec (Z.abs m) (2 ^ prec)%Z) as [E|N].
  - assert (Hb : representable (bpow (prec + e)))
      by (apply representable_bpow; [exact V|lia]).
    destruct (Z.abs_eq_or_opp m) as [A|A]; rewrite A in E.
    + rewrite E, dyadic_bpow by lia. exact Hb.
    + replace m with (- 2 ^ prec)%Z by lia.
      rewrite dyadic_opp, dyadic_bpow by lia.
      apply representable_opp. exact Hb.
  - apply representable_dyadic; lia.
Qed.

End ValidFormat.

(** ** The angles of the draws *)

Section Angles.

Context {dtype : Dtype}.

Lemma mag_PI : mag PI = 2%Z.
Proof.
  apply mag_unique. pose proof PI_bounds.
  rewrite Rabs_pos_eq by lra. change (2 - 1)%Z with 1%Z.
  rewrite bpow_1, bpow_2. lra.
Qed.

Lemma cexp_PI : valid_format -> cexp_of prec emax PI = (2 - prec)%Z.
Proof. intros [Hp He]. unfold cexp_of. rewrite mag_PI. lia. Qed.

Lemma representable_3 : valid_format -> representable 3.
Proof.
  intros V. apply (representable_small 3 3 0 V); [|lia|lia].
  unfold dyadic, bpow. simpl. ring.
Qed.

Lemma representable_7_2 : valid_format -> representable (7 / 2).
Proof.
  intros V. apply (representable_small (7 / 2) 7 (-1) V); [|lia|lia].
  unfold dyadic. rewrite bpow_m1. lra.
Qed.

Lemma fpi_bounds : valid_format -> 3 <= fpi <= 7 / 2.
Proof.
  intros V. assert (Hp : (1 <= prec)%Z) by (destruct V; lia).
  pose proof PI_bounds as [H3 H7].
  pose proof (round_le prec emax Hp 3 PI ltac:(lra)) as L.
  pose proof (round_le prec emax Hp PI (7 / 2) H7) as U.
  fold (round 3) in L. fold (round (7 / 2)) in U. fold fpi in L, U.
  rewrite (representable_round 3 (representable_3 V)) in L.
  rewrite (representable_round _ (representable_7_2 V)) in U.
  split; assumption.
Qed.

Lemma fpi_close : valid_format -> Rabs (fpi - PI) <= bpow (1 - prec).
Proof.
  intros V. unfold fpi, round.
  eapply Rle_trans; [apply round_error|]. rewrite (cexp_PI V).
  replace (2 - prec)%Z with (1 + (1 - prec))%Z by lia.
  rewrite bpow_plus, bpow_1. pose proof (bpow_gt_0 (1 - prec)). lra.
Qed.

(** [math.pi] in the format: a mantissa at the exponent of the numbers
    between 2 and 4. *)
Lemma fpi_mantissa :
  valid_format ->
  exists m : Z,
    fpi = dyadic m (2 - prec) /\
    (3 * 2 ^ (prec - 2) <= m <= 7 * 2 ^ (prec - 3))%Z.
Proof.
  intros V. pose proof V as [Hp He].
  exists (Znearest (PI * bpow (- (2 - prec)))).
  assert (E : fpi = dyadic (Znearest (PI * bpow (- (2 - prec)))) (2 - prec)).
  { unfold fpi, round, round_to. rewrite (cexp_PI V). reflexivity. }
  split; [exact E|].
  pose proof (fpi_bounds V) as [L U]. rewrite E in L, U.
  split.
  - assert (H : dyadic (3 * 2 ^ (prec - 2) - 1) (2 - prec)
                < dyadic (Znearest (PI * bpow (- (2 - prec)))) (2 - prec)).
    { eapply Rlt_le_trans; [|exact L].
      replace 3 with (dyadic (3 * 2 ^ (prec - 2)) (2 - prec)).
      - apply dyadic_lt. lia.
      - replace (2 - prec)%Z with (0 - (prec - 2))%Z by lia.
        rewrite <- (dyadic_shift 3 0 (prec - 2)) by lia.
        unfold dyadic, bpow. simpl. ring. }
    apply dyadic_lt_inv in H. lia.
  - assert (H : dyadic (Znearest (PI * bpow (- (2 - prec)))) (2 - prec)
                < dyadic (7 * 2 ^ (prec - 3) + 1) (2 - prec)).
    { eapply Rle_lt_trans; [exact U|].
      replace (7 / 2) with (dyadic (7 * 2 ^ (prec - 3)) (2 - prec)).
      - apply dyadic_lt. lia.
      - replace (2 - prec)%Z with (-1 - (prec - 3))%Z by lia.
        rewrite <- (dyadic_shift 7 (-1) (prec - 3)) by lia.
        unfold dyadic. rewrite bpow_m1. lra. }
    apply dyadic_lt_inv in H. lia.
Qed.

Lemma pow_prec_split :
  valid_format ->
  (2 ^ prec = 8 * 2 ^ (prec - 3))%Z /\ (2 ^ (prec - 2) = 2 * 2 ^ (prec - 3))%Z /\
  (2 ^ (prec - 1) = 4 * 2 ^ (prec - 3))%Z /\ (0 < 2 ^ (prec - 3))%Z.
Proof.
  intros [Hp He].
  assert (H : forall k : Z, (0 <= k <= 3)%Z ->
                            (2 ^ (prec - 3 + k) = 2 ^ k * 2 ^ (prec - 3))%Z).
  { intros k Hk. rewrite Z.pow_add_r by lia. lia. }
  split; [|split; [|split]].
  - replace prec with (prec - 3 + 3)%Z at 1 by lia. apply (H 3%Z). lia.
  - replace (prec - 2)%Z with (prec - 3 + 1)%Z by lia. apply (H 1%Z). lia.
  - replace (prec - 1)%Z with (prec - 3 + 2)%Z by lia. apply (H 2%Z). lia.
  - apply Z.pow_pos_nonneg; lia.
Qed.

Lemma representable_fpi_scaled (k : Z) :
  valid_format -> (0 <= k <= 2)%Z -> representable (bpow k * fpi).
Proof.
  intros V Hk. destruct (fpi_mantissa V) as (m & -> & Hm).
  pose proof (pow_prec_split V) as (P0 & P2 & P1 & Ppos).
  destruct V as [Hp He].
  rewrite Rmult_comm, dyadic_scale. apply representable_dyadic; lia.
Qed.

Lemma representable_fpi : valid_format -> representable fpi.
Proof.
  intros V. pose proof (representable_fpi_scaled 0 V ltac:(lia)) as H.
  change (bpow 0) with 1 in H. rewrite Rmult_1_l in H. exact H.
Qed.

Lemma representable_2fpi : valid_format -> representable (2 * fpi).
Proof.
  intros V. rewrite <- bpow_1. apply representable_fpi_scaled; [exact V|lia].
Qed.

(** ** The draws *)

Lemma draw_mantissa (k : Z) : (0 <= prec)%Z -> (0 <= k mod 2 ^ prec < 2 ^ prec)%Z.
Proof.
  intros Hp. apply Z.mod_pos_bound. apply Z.pow_pos_nonneg; lia.
Qed.

Lemma bpow_prec_inv : (0 <= prec)%Z -> dyadic (2 ^ prec) (- prec) = 1.
Proof.
  intros Hp. rewrite dyadic_bpow by exact Hp.
  replace (prec + - prec)%Z with 0%Z by lia. reflexivity.
Qed.

Lemma draw_bounds (k : Z) :
  valid_format -> 0 <= draw k <= 1 - bpow (- prec).
Proof.
  intros [Hp He]. pose proof (draw_mantissa k ltac:(lia)) as Hk.
  unfold draw. split.
  - rewrite <- (dyadic_0 (- prec)). apply dyadic_le. lia.
  - rewrite <- (bpow_prec_inv ltac:(lia)).
    replace (bpow (- prec)) with (dyadic 1 (- prec)) by (unfold dyadic; ring).
    rewrite dyadic_sub. apply dyadic_le. lia.
Qed.

Lemma draw_lt_1 (k : Z) : valid_format -> 0 <= draw k < 1.
Proof.
  intros V. pose proof (draw_bounds k V). pose proof (bpow_gt_0 (- prec)). lra.
Qed.

Lemma representable_draw (k : Z) : valid_format -> representable (draw k).
Proof.
  intros [Hp He]. pose proof (draw_mantissa k ltac:(lia)) as Hk.
  apply representable_dyadic; lia.
Qed.

Lemma draw_times_4 (k : Z) :
  valid_format -> fmul (Fin (draw k)) (Fin 4) = Fin (draw k * 4).
Proof.
  intros [Hp He]. pose proof (draw_mantissa k ltac:(lia)) as Hk.
  cbn [fmul]. apply rnd_exact. unfold draw.
  rewrite <- bpow_2, dyadic_scale. apply representable_dyadic; lia.
Qed.

Lemma drawn_angle_rnd (k : Z) :
  valid_format -> drawn_angle k = rnd (draw k * 4 * fpi).
Proof.
  intros V. unfold drawn_angle. rewrite (draw_times_4 k V). reflexivity.
Qed.

(** The angle of the largest draw. *)
Lemma largest_angle :
  valid_format ->
  round ((1 - bpow (- prec)) * 4 * fpi) = 4 * fpi - bpow (4 - prec).
Proof.
  intros V. destruct (fpi_mantissa V) as (m & Em & Hm).
  pose proof (fpi_bounds V) as [L U]. pose proof V as [Hp He].
  pose proof (bpow_gt_0 (- prec)) as Hb.
  assert (Hb8 : bpow (- prec) <= / 8).
  { replace (/ 8) with (bpow (- 3)) by (unfold bpow; simpl; lra).
    apply bpow_le. lia. }
  set (z := (1 - bpow (- prec)) * 4 * fpi).
  assert (Hz : 8 <= z < 16) by (unfold z; nra).
  assert (Hmag : mag z = 4%Z).
  { apply mag_unique. rewrite Rabs_pos_eq by lra.
    replace (bpow (4 - 1)) with 8 by (unfold bpow; simpl; lra).
    replace (bpow 4) with 16 by (unfold bpow; simpl; lra). exact Hz. }
  assert (Hc : cexp_of prec emax z = (4 - prec)%Z)
    by (unfold cexp_of; rewrite Hmag; lia).
  assert (H4 : 4 * fpi = dyadic m (4 - prec)).
  { rewrite Em. unfold dyadic.
    replace (4 - prec)%Z with (2 - prec + 2)%Z by lia.
    rewrite bpow_plus, bpow_2. ring. }
  assert (Hm4 : IZR m * bpow (- prec) = fpi / 4).
  { rewrite Em. unfold dyadic.
    replace (2 - prec)%Z with (2 + - prec)%Z by lia.
    rewrite bpow_plus, bpow_2. field. }
  assert (Hs : z * bpow (- (4 - prec)) = IZR m - fpi / 4).
  { unfold z.
    transitivity ((1 - bpow (- prec)) * (4 * fpi * bpow (- (4 - prec))));
      [ring|].
    rewrite H4, dyadic_scale.
    replace (4 - prec + - (4 - prec))%Z with 0%Z by lia.
    unfold dyadic at 1. change (bpow 0) with 1. rewrite <- Hm4. ring. }
  unfold round. rewrite (round_nearest prec emax z (m - 1)).
  - rewrite Hc. fold (dyadic (m - 1) (4 - prec)).
    replace (bpow (4 - prec)) with (dyadic 1 (4 - prec)) by (unfold dyadic; ring).
    rewrite H4. symmetry. apply dyadic_sub.
  - rewrite Hc, Hs, minus_IZR. apply Rabs_def1; lra.
Qed.

(** X8 and C3 rest on it: the angle of a draw is a number of the format
    between 0 and the number before [4 * fpi], which is below [4 * pi]. *)
Lemma drawn_angle_range (k : Z) :
  valid_format ->
  exists v : R,
    drawn_angle k = Fin v /\ representable v /\
    0 <= v <= 4 * fpi - bpow (4 - prec) /\ v < 4 * PI.
Proof.
  intros V. pose proof V as [Hp He]. assert (Hp1 : (1 <= prec)%Z) by lia.
  pose proof (draw_bounds k V) as [D0 D1].
  pose proof (fpi_bounds V) as [L U].
  pose proof (bpow_gt_0 (- prec)) as Hb.
  set (z := draw k * 4 * fpi).
  assert (Hz0 : 0 <= z) by (unfold z; nra).
  assert (Hzmax : z <= (1 - bpow (- prec)) * 4 * fpi) by (unfold z; nra).
  pose proof (round_ge_0 prec emax z Hz0) as R0.
  pose proof (round_le prec emax Hp1 _ _ Hzmax) as R1.
  fold (round z) in R0, R1. fold (round ((1 - bpow (- prec)) * 4 * fpi)) in R1.
  rewrite (largest_angle V) in R1.
  pose proof (bpow_gt_0 (4 - prec)) as Hb4.
  assert (Hfin : Rabs (round z) < bpow emax).
  { rewrite Rabs_pos_eq by exact R0.
    apply Rlt_le_trans with (bpow 4).
    - replace (bpow 4) with 16 by (unfold bpow; simpl; lra). lra.
    - apply bpow_le. lia. }
  exists (round z). rewrite (drawn_angle_rnd k V). fold z.
  split; [apply rnd_round; exact Hfin|].
  split; [apply round_representable; assumption|].
  split; [split; assumption|].
  pose proof (fpi_close V) as Hc. apply Rabs_le_inv in Hc.
  replace (4 - prec)%Z with (3 + (1 - prec))%Z in R1, Hb4 by lia.
  rewrite bpow_plus in R1, Hb4.
  replace (bpow 3) with 8 in R1, Hb4 by (unfold bpow; simpl; lra).
  pose proof (bpow_gt_0 (1 - prec)). lra.
Qed.

Lemma half_mantissa :
  valid_format -> dyadic (2 ^ (prec - 1)) (- prec) = 1 / 2.
Proof.
  intros [Hp He]. rewrite dyadic_bpow by lia.
  replace (prec - 1 + - prec)%Z with (-1)%Z by lia. rewrite bpow_m1. lra.
Qed.

(** The mask [phi > 2 * math.pi] on the angle of a draw: the upper half
    of the draws. *)
Lemma drawn_angle_split (k : Z) :
  valid_format ->
  fgt (drawn_angle k) (Fin (2 * fpi)) = true <-> 1 / 2 < draw k.
Proof.
  intros V. pose proof V as [Hp He]. assert (Hp1 : (1 <= prec)%Z) by lia.
  destruct (drawn_angle_range k V) as (v & Ev & _ & _ & _).
  pose proof Ev as Ev'. rewrite (drawn_angle_rnd k V) in Ev'.
  assert (Hv : v = round (draw k * 4 * fpi)).
  { unfold rnd in Ev'. cbn zeta in Ev'.
    destruct (Rlt_dec _ _); [congruence|].
    destruct (Rlt_dec _ _); discriminate. }
  rewrite Ev. cbn [fgt].
  pose proof (fpi_bounds V) as [L U].
  pose proof (draw_bounds k V) as [D0 D1].
  destruct (Rlt_dec (2 * fpi) v) as [Hgt|Hle]; split; intros H;
    try reflexivity; try discriminate.
  - (* the angle is beyond the split, so the draw is beyond one half *)
    destruct (Rlt_le_dec (1 / 2) (draw k)) as [G|G]; [exact G|].
    exfalso.
    assert (Hz : draw k * 4 * fpi <= 2 * fpi) by nra.
    pose proof (round_le prec emax Hp1 _ _ Hz) as R.
    fold (round (draw k * 4 * fpi)) in R. fold (round (2 * fpi)) in R.
    rewrite (representable_round _ (representable_2fpi V)) in R. lra.
  - (* the draw is beyond one half: at least one grid step *)
    exfalso. apply Hle.
    destruct (fpi_mantissa V) as (m & Em & Hm).
    pose proof (pow_prec_split V) as (P0 & P2 & P1 & Ppos).
    pose proof (draw_mantissa k ltac:(lia)) as Hk.
    assert (Hk1 : (2 ^ (prec - 1) + 1 <= k mod 2 ^ prec)%Z).
    { unfold draw in H. rewrite <- (half_mantissa V) in H.
      apply dyadic_lt_inv in H. lia. }
    assert (Hd : 1 / 2 + bpow (- prec) <= draw k).
    { unfold draw. rewrite <- (half_mantissa V).
      replace (bpow (- prec)) with (dyadic 1 (- prec)) by (unfold dyadic; ring).
      rewrite dyadic_add. apply dyadic_le. exact Hk1. }
    set (S := dyadic (m + 1) (3 - prec)).
    assert (HS : S = 2 * fpi + bpow (3 - prec)).
    { unfold S. rewrite <- dyadic_add. f_equal.
      - rewrite Em. unfold dyadic.
        replace (3 - prec)%Z with (2 - prec + 1)%Z by lia.
        rewrite bpow_plus, bpow_1. ring.
      - unfold dyadic. ring. }
    assert (HSr : representable S)
      by (apply representable_dyadic_le; [exact V|lia..]).
    assert (HSz : S <= draw k * 4 * fpi).
    { rewrite HS. replace (3 - prec)%Z with (3 + - prec)%Z by lia.
      rewrite bpow_plus.
      replace (bpow 3) with 8 by (unfold bpow; simpl; lra).
      pose proof (bpow_gt_0 (- prec)). nra. }
    pose proof (round_le prec emax Hp1 _ _ HSz) as R.
    fold (round S) in R. fold (round (draw k * 4 * fpi)) in R.
    rewrite (representable_round S HSr) in R.
    pose proof (bpow_gt_0 (3 - prec)). lra.
Qed.

Lemma draw_0 : draw 0 = 0.
Proof. unfold draw. rewrite Zmod_0_l. apply dyadic_0. Qed.

Lemma drawn_angle_0 : drawn_angle 0 = Fin 0.
Proof.
  unfold drawn_angle. rewrite draw_0. cbn [fmul].
  rewrite Rmult_0_l, rnd_0. cbn [fmul]. rewrite Rmult_0_l. apply rnd_0.
Qed.

(** The angle of the draw 1/2 is the split itself. *)
Lemma drawn_angle_half :
  valid_format ->
  draw (2 ^ (prec - 1)) = 1 / 2 /\
  drawn_angle (2 ^ (prec - 1)) = Fin (2 * fpi).
Proof.
  intros V. pose proof V as [Hp He].
  pose proof (pow_prec_split V) as (P0 & P2 & P1 & Ppos).
  assert (Hd : draw (2 ^ (prec - 1)) = 1 / 2).
  { unfold draw. rewrite Z.mod_small by lia. apply half_mantissa, V. }
  split; [exact Hd|].
  rewrite (drawn_angle_rnd _ V), Hd.
  replace (1 / 2 * 4 * fpi) with (2 * fpi) by lra.
  apply rnd_exact, representable_2fpi, V.
Qed.

End Angles.

(** ** [torch.float32] *)

Lemma float32_valid_format : @valid_format float32.
Proof. split; simpl; lia. Qed.

Lemma float32_valid_trig : @valid_trig float32.
Proof.
  pose proof float32_valid_format as V.
  assert (R1 : round_to 24 128 1 = 1)
    by (apply (representable_round (dtype := float32)), representable_1, V).
  assert (Rm1 : round_to 24 128 (-1) = -1).
  { replace (-1) with (- (1)) by lra. rewrite round_opp, R1. reflexivity. }
  split; [|split].
  - simpl. rewrite cos_0. exact R1.
  - simpl. rewrite sin_0. apply round_0.
  - intros t. simpl. rewrite <- R1, <- Rm1.
    pose proof (COS_bound t) as [C1 C2]. pose proof (SIN_bound t) as [S1 S2].
    repeat split; apply round_le; (lia || assumption).
Qed.

Lemma float32_trig_accurate : @trig_accurate float32 (bpow (- 24)).
Proof.
  pose proof float32_valid_format as V. intros t _. simpl.
  pose proof (COS_bound t) as [C1 C2]. pose proof (SIN_bound t) as [S1 S2].
  split; apply (round_error_small (dtype := float32)); try exact V;
    apply Rabs_le; lra.
Qed.

(** ** Arithmetic on values *)

Section Values.

Context {dtype : Dtype}.

Lemma fadd_Fin (a b : R) : fadd (Fin a) (Fin b) = rnd (a + b).
Proof. reflexivity. Qed.

Lemma fsub_Fin (a b : R) : fsub (Fin a) (Fin b) = rnd (a - b).
Proof. reflexivity. Qed.

Lemma fmul_Fin (a b : R) : fmul (Fin a) (Fin b) = rnd (a * b).
Proof. reflexivity. Qed.

Lemma fdiv_Fin (a b : R) : b <> 0 -> fdiv (Fin a) (Fin b) = rnd (a / b).
Proof.
  intros Hb. cbn [fdiv]. destruct (Req_EM_T b 0) as [E|_]; [contradiction|].
  reflexivity.
Qed.

Lemma fgt_Fin (a b : R) :
  fgt (Fin a) (Fin b) = if Rlt_dec b a then true else false.
Proof. reflexivity. Qed.

(** An operation whose exact result is a number of the format. *)
Lemma fadd_exact (a b c : R) :
  a + b = c -> representable c -> fadd (Fin a) (Fin b) = Fin c.
Proof. intros <- H. apply rnd_exact, H. Qed.

Lemma fsub_exact (a b c : R) :
  a - b = c -> representable c -> fsub (Fin a) (Fin b) = Fin c.
Proof. intros <- H. apply rnd_exact, H. Qed.

Lemma fmul_exact (a b c : R) :
  a * b = c -> representable c -> fmul (Fin a) (Fin b) = Fin c.
Proof. intros <- H. apply rnd_exact, H. Qed.

Lemma fdiv_exact (a b c : R) :
  b <> 0 -> a / b = c -> representable c -> fdiv (Fin a) (Fin b) = Fin c.
Proof. intros Hb <- H. rewrite fdiv_Fin by exact Hb. apply rnd_exact, H. Qed.

Lemma fsub_same (c : R) : fsub (Fin c) (Fin c) = Fin 0.
Proof. rewrite fsub_Fin, Rminus_diag. apply rnd_0. Qed.

Lemma fmul_0_l (a : R) : fmul (Fin 0) (Fin a) = Fin 0.
Proof. rewrite fmul_Fin, Rmult_0_l. apply rnd_0. Qed.


Lemma fmul_1_l (a : R) : representable a -> fmul (Fin 1) (Fin a) = Fin a.
Proof. intros H. rewrite fmul_Fin, Rmult_1_l. apply rnd_exact, H. Qed.

Lemma fadd_0_l (a : R) : representable a -> fadd (Fin 0) (Fin a) = Fin a.
Proof. intros H. rewrite fadd_Fin, Rplus_0_l. apply rnd_exact, H. Qed.

Lemma fsub_0_r (a : R) : representable a -> fsub (Fin a) (Fin 0) = Fin a.
Proof. intros H. rewrite fsub_Fin, Rminus_0_r. apply rnd_exact, H. Qed.

End Values.

(** ** Rounding of concrete numbers *)

(** The rounding of [m * 2 ^ e] for a mantissa [m] of [q] bits: the
    mantissa [n] at the exponent [c] of the format, when [n] is within
    half a unit of the exact quotient. *)
Lemma round_dyadic {dtype : Dtype} (m e q n c : Z) :
  (2 ^ (q - 1) <= Z.abs m < 2 ^ q)%Z -> (1 <= q)%Z ->
  c = Z.max (q + e - prec) (3 - emax - prec) -> (e <= c)%Z ->
  (2 * Z.abs (m - n * 2 ^ (c - e)) < 2 ^ (c - e))%Z ->
  round (dyadic m e) = dyadic n c.
Proof.
  intros Hm Hq Hc Hec Hn.
  assert (Hmag : mag (dyadic m e) = (q + e)%Z).
  { apply mag_unique. rewrite dyadic_abs.
    replace (q + e - 1)%Z with (q - 1 + e)%Z by lia.
    rewrite <- !dyadic_bpow by lia.
    split; [apply dyadic_le|apply dyadic_lt]; lia. }
  assert (Hcexp : cexp_of prec emax (dyadic m e) = c)
    by (unfold cexp_of; rewrite Hmag; lia).
  unfold round. rewrite (round_nearest prec emax _ n); rewrite Hcexp;
    [reflexivity|].
  set (k := (c - e)%Z) in *.
  assert (Hk : (0 < 2 ^ k)%Z) by (apply Z.pow_pos_nonneg; lia).
  assert (Hs : dyadic m e * bpow (- c) = IZR m / IZR (2 ^ k)).
  { rewrite dyadic_scale. unfold dyadic.
    replace (e + - c)%Z with (- k)%Z by lia.
    rewrite bpow_opp, bpow_IZR by lia. reflexivity. }
  rewrite Hs.
  assert (Hpos : 0 < IZR (2 ^ k)) by (apply IZR_lt; exact Hk).
  replace (IZR m / IZR (2 ^ k) - IZR n)
    with (IZR (m - n * 2 ^ k) / IZR (2 ^ k))
    by (rewrite minus_IZR, mult_IZR; field; lra).
  unfold Rdiv. rewrite Rabs_mult, Rabs_Zabs, Rabs_inv,
    (Rabs_pos_eq (IZR (2 ^ k))) by lra.
  apply IZR_lt in Hn. rewrite mult_IZR in Hn.
  apply Rmult_lt_reg_r with (IZR (2 ^ k)); [exact Hpos|].
  rewrite Rmult_assoc, Rinv_l by lra. lra.
Qed.

Section Dihedral.

Context {dtype : Dtype}.

(** ** Elementwise operations *)

Lemma tmap_length {A B : Type} (f : A -> B) (t : list (list A)) :
  length (tmap f t) = length t.
Proof. unfold tmap. apply length_fmap. Qed.

Lemma tmap_tmap {A B C : Type} (f : A -> B) (h : B -> C) (t : list (list A)) :
  tmap h (tmap f t) = tmap (h ∘ f) t.
Proof.
  unfold tmap. rewrite <- list_fmap_compose.
  apply list_fmap_ext. intros _ row _. simpl.
  rewrite <- list_fmap_compose. reflexivity.
Qed.

Lemma tmap_id {A : Type} (f : A -> A) (t : list (list A)) :
  (forall a, f a = a) -> tmap f t = t.
Proof.
  intros E. unfold tmap.
  induction t as [|row t IH]; simpl; [reflexivity|].
  f_equal; [|exact IH].
  induction row as [|a row IHrow]; simpl; [reflexivity|].
  rewrite E. f_equal. exact IHrow.
Qed.

Lemma tmap_row_lengths {A B : Type} (f : A -> B) (t : list (list A)) :
  length <$> tmap f t = length <$> t.
Proof.
  unfold tmap. rewrite <- list_fmap_compose.
  apply list_fmap_ext. intros _ row _. simpl. apply length_fmap.
Qed.

Lemma zip_with_fmap_same {A B C D : Type} (h : B -> C -> D) (f : A -> B)
    (k : A -> C) (l : list A) :
  zip_with h (f <$> l) (k <$> l) = (fun a => h (f a) (k a)) <$> l.
Proof. induction l as [|a l IH]; simpl; [reflexivity|]. f_equal. exact IH. Qed.

(** Joining two coordinate planes taken from one tensor. *)
Lemma cat_last_tmap {A : Type} (f k : A -> fval) (t : list (list A)) :
  cat_last (tmap f t) (tmap k t) = tmap (fun a => (f a, k a)) t.
Proof.
  unfold cat_last, tmap. rewrite zip_with_fmap_same.
  apply list_fmap_ext. intros _ row _. apply zip_with_fmap_same.
Qed.

Lemma rsub_scalar_tmap {A : Type} (c : fval) (f : A -> fval) (t : list (list A)) :
  rsub_scalar c (tmap f t) = tmap (fun a => fsub c (f a)) t.
Proof. unfold rsub_scalar. apply tmap_tmap. Qed.

(** ** Slices of the batch axis *)


Lemma batch_slice_concat {A : Type} (B : nat) (zs : list (list A)) :
  Forall (fun z => length z = B) zs ->
  forall k z, zs !! k = Some z -> batch_slice k B (concat zs) = z.
Proof.
  unfold batch_slice.
  induction 1 as [|z0 zs Hz0 Hzs IH]; intros k z Hk; [discriminate|].
  destruct k as [|k]; simpl in *.
  - injection Hk as <-. rewrite drop_0, take_app_length'; [reflexivity|congruence].
  - rewrite drop_app_add'; [|congruence]. apply IH. exact Hk.
Qed.

Lemma tile_length {A : Type} (n : nat) (x : list A) :
  length (tile n x) = (n * length x)%nat.
Proof.
  unfold tile. induction n as [|n IH]; simpl; [reflexivity|].
  rewrite length_app, IH. reflexivity.
Qed.

Lemma tile_lookup {A : Type} (n : nat) (x : list A) (k b : nat) :
  (k < n)%nat -> (b < length x)%nat ->
  tile n x !! (k * length x + b)%nat = x !! b.
Proof.
  unfold tile. revert k. induction n as [|n IH]; intros k Hk Hb; [lia|].
  simpl. destruct k as [|k]; simpl.
  - apply lookup_app_l. exact Hb.
  - rewrite lookup_app_r by lia.
    replace (length x + k * length x + b - length x)%nat
      with (k * length x + b)%nat by lia.
    apply IH; lia.
Qed.

(** ** The dihedral transform *)


Lemma dihedral_8_augmentation_images (xy : Tensor) :
  dihedral_8_augmentation xy =
  cat_batch ((fun T => tmap T xy) <$> dihedral_images).
Proof.
  unfold dihedral_8_augmentation, split_last.
  rewrite !rsub_scalar_tmap, !cat_last_tmap. reflexivity.
Qed.

Lemma dihedral_8_augmentation_slice (xy : Tensor) (k : nat) (T : point -> point) :
  dihedral_images !! k = Some T ->
  batch_slice k (length xy) (dihedral_8_augmentation xy) = tmap T xy.
Proof.
  intros Hk. rewrite dihedral_8_augmentation_images. unfold cat_batch.
  apply batch_slice_concat.
  - apply Forall_fmap, Forall_forall. intros T' _. simpl. apply tmap_length.
  - rewrite list_lookup_fmap, Hk. reflexivity.
Qed.

Lemma dihedral_identity_slice (xy : Tensor) :
  batch_slice 0 (length xy) (dihedral_8_augmentation xy) = xy.
Proof.
  rewrite (dihedral_8_augmentation_slice xy 0 _ eq_refl).
  apply tmap_id. intros [a b]. reflexivity.
Qed.

(** C2: [dihedral_8_augmentation] maps a tensor of shape (batch, nodes, 2)
    to one of shape (8 * batch, nodes, 2) whose eight batch slices are, in
    this order, the images (x,y), (1-x,y), (x,1-y), (1-x,1-y), (y,x),
    (1-y,x), (y,1-x), (1-y,1-x) of the input; the first slice is the input
    itself, also when the transform is applied again to that first slice. *)
Theorem dihedral_8_augmentation_spec (xy : Tensor) :
  length (dihedral_8_augmentation xy) = (8 * length xy)%nat /\
  length <$> dihedral_8_augmentation xy = tile 8 (length <$> xy) /\
  (fun k => batch_slice k (length xy) (dihedral_8_augmentation xy)) <$> seq 0 8
    = (fun T => tmap T xy) <$> dihedral_images /\
  batch_slice 0 (length xy) (dihedral_8_augmentation xy) = xy /\
  batch_slice 0 (length xy)
    (dihedral_8_augmentation
       (batch_slice 0 (length xy) (dihedral_8_augmentation xy))) = xy.
Proof.
  split; [|split; [|split; [|split]]].
  - rewrite dihedral_8_augmentation_images. unfold cat_batch. simpl.
    rewrite !length_app, !tmap_length. simpl. lia.
  - rewrite dihedral_8_augmentation_images. unfold cat_batch, tile. simpl.
    rewrite !fmap_app, !tmap_row_lengths. reflexivity.
  - simpl.
    repeat (apply (f_equal2 cons);
            [apply dihedral_8_augmentation_slice; reflexivity|]).
    reflexivity.
  - apply dihedral_identity_slice.
  - rewrite !dihedral_identity_slice. reflexivity.
Qed.

Lemma dihedral_8_augmentation_twice (xy : Tensor) (j k : nat)
    (Tj Tk : point -> point) :
  dihedral_images !! k = Some Tk ->
  dihedral_images !! j = Some Tj ->
  batch_slice j (length xy)
    (dihedral_8_augmentation
       (batch_slice k (length xy) (dihedral_8_augmentation xy)))
  = tmap (Tj ∘ Tk) xy.
Proof.
  intros Hk Hj. rewrite (dihedral_8_augmentation_slice xy k Tk Hk).
  rewrite <- (tmap_length Tk xy) at 1.
  rewrite (dihedral_8_augmentation_slice _ j Tj Hj). apply tmap_tmap.
Qed.

(** ** Round trips through the dihedral images *)

Lemma round_trip_tmap (xy : Tensor) (j k : nat) (Tj Tk : point -> point) :
  dihedral_images !! k = Some Tk ->
  dihedral_images !! j = Some Tj ->
  round_trip j k xy = tmap (Tj ∘ Tk) xy.
Proof. apply dihedral_8_augmentation_twice. Qed.

Lemma tmap_ext {A B : Type} (f h : A -> B) (t : list (list A)) :
  (forall a, f a = h a) -> tmap f t = tmap h t.
Proof.
  intros E. unfold tmap. apply list_fmap_ext. intros _ row _.
  apply list_fmap_ext. intros _ a _. apply E.
Qed.

Lemma tmap_ext_Forall {A B : Type} (P : A -> Prop) (f h : A -> B)
    (t : list (list A)) :
  Forall (Forall P) t -> (forall a, P a -> f a = h a) -> tmap f t = tmap h t.
Proof.
  intros Ht E. unfold tmap. apply list_fmap_ext. intros i row Hrow.
  apply list_fmap_ext. intros j a Ha. apply E.
  eapply Forall_lookup_1; [|exact Ha].
  eapply Forall_lookup_1; [exact Ht|exact Hrow].
Qed.

Lemma tmap_id_Forall {A : Type} (P : A -> Prop) (f : A -> A)
    (t : list (list A)) :
  Forall (Forall P) t -> (forall a, P a -> f a = a) -> tmap f t = t.
Proof.
  intros Ht E. rewrite (tmap_ext_Forall P f (fun a => a) t Ht E).
  apply tmap_id. reflexivity.
Qed.

(** The reflection [1 - x] of a number of the grid is exact and on the
    grid again. *)
Lemma on_grid_reflect (k : Z) :
  valid_format -> (0 <= k <= 2 ^ prec)%Z ->
  fsub (Fin 1) (Fin (dyadic k (- prec)))
  = Fin (dyadic (2 ^ prec - k) (- prec)).
Proof.
  intros V Hk. pose proof V as [Hp He].
  apply fsub_exact.
  - assert (H1 : dyadic (2 ^ prec) (- prec) = 1) by (apply bpow_prec_inv; lia).
    rewrite <- H1 at 1. apply dyadic_sub.
  - apply representable_dyadic_le; [exact V|lia..].
Qed.

Lemma on_grid_reflect_twice (v : fval) :
  valid_format -> on_grid v -> reflect_twice v = v.
Proof.
  intros V (k & Hk & ->). unfold reflect_twice.
  rewrite (on_grid_reflect k V Hk), (on_grid_reflect _ V) by lia.
  do 2 f_equal. lia.
Qed.

(** C4, as amended: re-transforming an image with the inverse of the
    transform that produced it.  The identity and the exchange of the
    axes, at positions 0 and 4, are their own inverse on every batch.  The
    two quarter turns at positions 5 and 6 are not: each of them applied
    twice is the point reflection of position 3.  In the other round
    trips (the reflections at positions 1, 2, 3 and 7 with themselves, a
    quarter turn with the other one) a coordinate is reflected twice,
    [1 - (1 - x)] in place of [x]; this is [x] itself for the coordinates
    on the grid of [torch.rand], where the reflection is exact, so that
    these six round trips give such a batch back. *)
Theorem dihedral_8_inverse_images (xy : Tensor) :
  round_trip 0 0 xy = xy /\
  round_trip 4 4 xy = xy /\
  round_trip 5 5 xy = batch_slice 3 (length xy) (dihedral_8_augmentation xy) /\
  round_trip 6 6 xy = batch_slice 3 (length xy) (dihedral_8_augmentation xy) /\
  (fun jk : nat * nat => round_trip jk.1 jk.2 xy) <$> reflecting_round_trips
    = (fun T => tmap T xy) <$> reflected_twice /\
  (valid_format -> Forall (Forall on_grid_point) xy ->
   (fun jk : nat * nat => round_trip jk.1 jk.2 xy) <$> reflecting_round_trips
     = replicate 6 xy).
Proof.
  assert (Htrips :
    (fun jk : nat * nat => round_trip jk.1 jk.2 xy) <$> reflecting_round_trips
    = (fun T => tmap T xy) <$> reflected_twice).
  { unfold reflecting_round_trips, reflected_twice.
    cbn [fmap list_fmap fst snd].
    repeat (apply (f_equal2 cons);
            [erewrite round_trip_tmap by reflexivity; reflexivity|]).
    reflexivity. }
  split; [|split; [|split; [|split; [|split]]]].
  - erewrite round_trip_tmap by reflexivity.
    apply tmap_id. intros [a b]. reflexivity.
  - erewrite round_trip_tmap by reflexivity.
    apply tmap_id. intros [a b]. reflexivity.
  - erewrite round_trip_tmap by reflexivity.
    erewrite dihedral_8_augmentation_slice by reflexivity. reflexivity.
  - erewrite round_trip_tmap by reflexivity.
    erewrite dihedral_8_augmentation_slice by reflexivity. reflexivity.
  - exact Htrips.
  - intros V Hgrid. rewrite Htrips. unfold reflected_twice.
    cbn [fmap list_fmap replicate].
    repeat (apply (f_equal2 cons);
            [apply (tmap_id_Forall on_grid_point); [exact Hgrid|];
             intros [a b] [Ha Hb]; cbn [fst snd] in *;
             rewrite ?(on_grid_reflect_twice a V Ha),
                     ?(on_grid_reflect_twice b V Hb); reflexivity|]).
    reflexivity.
Qed.

End Dihedral.

(** ** Concrete numbers of [torch.float32] *)

Lemma rnd_rounded {dtype : Dtype} (x y : R) :
  round x = y -> representable y -> rnd x = Fin y.
Proof.
  intros <- H. apply rnd_round, representable_bound, H.
Qed.

Lemma one_dyadic (k : Z) : (0 <= k)%Z -> 1 = dyadic (2 ^ k) (- k).
Proof.
  intros Hk. rewrite dyadic_bpow by exact Hk.
  replace (k + - k)%Z with 0%Z by lia. reflexivity.
Qed.

Lemma half_dyadic (k : Z) : (0 <= k)%Z -> 1 / 2 = dyadic (2 ^ k) (- (k + 1)).
Proof.
  intros Hk. rewrite dyadic_bpow by exact Hk.
  replace (k + - (k + 1))%Z with (-1)%Z by lia. rewrite bpow_m1. lra.
Qed.

(** Conditions on concrete integers. *)
Ltac float32_side :=
  cbn [prec emax float32];
  repeat match goal with |- _ /\ _ => split end;
  first [ lia | reflexivity | (vm_compute; intro; discriminate) ].

Section Float32.

#[local] Existing Instance float32.

Lemma float32_representable (x : R) (m e : Z) :
  x = dyadic m e ->
  (Z.abs m <? 2 ^ 24)%Z && (-149 <=? e)%Z && (e <=? 104)%Z = true ->
  representable x.
Proof.
  intros -> H. apply andb_prop in H as [H He2]. apply andb_prop in H as [Hm He].
  apply Z.ltb_lt in Hm. apply Z.leb_le in He, He2.
  apply representable_dyadic; cbn [prec emax float32]; lia.
Qed.

Lemma float32_rnd (x : R) (m e : Z) :
  x = dyadic m e ->
  (Z.abs m <? 2 ^ 24)%Z && (-149 <=? e)%Z && (e <=? 104)%Z = true ->
  rnd x = Fin x.
Proof. intros E H. apply rnd_exact. exact (float32_representable x m e E H). Qed.

Lemma float32_on_grid (x : R) (k : Z) :
  x = dyadic k (-24) -> (0 <=? k)%Z && (k <=? 2 ^ 24)%Z = true ->
  on_grid (Fin x).
Proof.
  intros -> H. apply andb_prop in H as [H0 H1]. apply Z.leb_le in H0, H1.
  exists k. split; [cbn [prec float32]; lia|reflexivity].
Qed.

End Float32.

Section DihedralExamples.

#[local] Existing Instance float32.

Lemma dihedral_8_inverse_images_witness :
  (fun jk : nat * nat => round_trip jk.1 jk.2 [[(Fin (1 / 4), Fin 1)]])
    <$> reflecting_round_trips
  = replicate 6 [[(Fin (1 / 4), Fin 1)]].
Proof.
  destruct (dihedral_8_inverse_images [[(Fin (1 / 4), Fin 1)]])
    as (_ & _ & _ & _ & _ & H).
  apply H; [exact float32_valid_format|].
  repeat constructor.
  - apply (float32_on_grid (1 / 4) (2 ^ 22)); [|reflexivity].
    rewrite dyadic_bpow by lia. unfold bpow. simpl. lra.
  - apply (float32_on_grid 1 (2 ^ 24)); [|reflexivity].
    rewrite dyadic_bpow by lia. reflexivity.
Defined.

(** The number of [torch.float32] next to 0.1 and what two reflections
    leave of it. *)
Lemma reflect_twice_tenth :
  reflect_twice (Fin (dyadic 13421773 (-27))) = Fin (dyadic 1677722 (-24)).
Proof.
  unfold reflect_twice.
  assert (E1 : fsub (Fin 1) (Fin (dyadic 13421773 (-27)))
               = Fin (dyadic 15099494 (-24))).
  { rewrite fsub_Fin. apply rnd_rounded.
    - rewrite (one_dyadic 27) at 1 by lia. rewrite dyadic_sub.
      apply (round_dyadic _ _ 27); float32_side.
    - apply representable_dyadic; float32_side. }
  rewrite E1. apply fsub_exact.
  - rewrite (one_dyadic 24) at 1 by lia. rewrite dyadic_sub.
    f_equal.
  - apply representable_dyadic; float32_side.
Qed.

(** C4 as stated fails.  The quarter turns are not their own inverse: the
    image at position 5 of the point (0, 0) is (1, 0), and the same
    transform sends it on to (1, 1); likewise at position 6.  And a
    reflection is its own inverse up to rounding only: in
    [torch.float32] the number next to 0.1, 13421773 / 2 ^ 27, reflected
    twice is 1677722 / 2 ^ 24. *)
Lemma dihedral_round_trips_not_inverse :
  round_trip 5 5 [[(Fin 0, Fin 0)]] = [[(Fin 1, Fin 1)]] /\
  round_trip 6 6 [[(Fin 0, Fin 0)]] = [[(Fin 1, Fin 1)]] /\
  ([[(Fin 1, Fin 1)]] : Tensor) <> [[(Fin 0, Fin 0)]] /\
  round_trip 1 1 [[(Fin (dyadic 13421773 (-27)), Fin 0)]]
  = [[(Fin (dyadic 1677722 (-24)), Fin 0)]] /\
  dyadic 1677722 (-24) <> dyadic 13421773 (-27).
Proof.
  assert (E1 : fsub (Fin 1) (Fin 0) = Fin 1).
  { apply fsub_exact; [lra|]. apply representable_1, float32_valid_format. }
  split; [|split; [|split; [|split]]].
  - erewrite round_trip_tmap by reflexivity.
    cbn [tmap fmap list_fmap compose fst snd]. rewrite !E1. reflexivity.
  - erewrite round_trip_tmap by reflexivity.
    cbn [tmap fmap list_fmap compose fst snd]. rewrite !E1. reflexivity.
  - intros H. injection H as H _. lra.
  - erewrite round_trip_tmap by reflexivity.
    cbn [tmap fmap list_fmap compose fst snd].
    fold (reflect_twice (Fin (dyadic 13421773 (-27)))).
    rewrite reflect_twice_tenth. reflexivity.
  - rewrite (dyadic_shift 1677722 (-24) 3) by lia.
    intros H. apply dyadic_eq_inv in H. discriminate.
Qed.

End DihedralExamples.

(** ** Construction of [StateAugmentation] *)

(** C5: constructing with the name "dihedral8" and a [num_augment] other
    than 8 raises (the assertion of [__init__] fails), and constructing
    with a name that is neither "dihedral8" nor "symmetric" raises (the
    [ValueError] of [get_augment_function]).  Both happen in [__init__]:
    no object is returned that could be called.  The two names are
    accepted otherwise. *)
Theorem StateAugmentation_init_rejects (num_augment_arg : Z) (name : string)
    (first_aug_identity_arg normalize_arg : bool)
    (feats_arg : option (list string)) :
  (num_augment_arg <> 8%Z ->
   StateAugmentation_init num_augment_arg (by_name "dihedral8")
     first_aug_identity_arg normalize_arg feats_arg = Err AssertionError) /\
  (name <> "dihedral8"%string -> name <> "symmetric"%string ->
   StateAugmentation_init num_augment_arg (by_name name)
     first_aug_identity_arg normalize_arg feats_arg = Err ValueError) /\
  (exists self,
      StateAugmentation_init 8 (by_name "dihedral8")
        first_aug_identity_arg normalize_arg feats_arg = Ok self /\
      augmentation_of self = dihedral8_fn) /\
  (exists self,
      StateAugmentation_init num_augment_arg (by_name "symmetric")
        first_aug_identity_arg normalize_arg feats_arg = Ok self /\
      augmentation_of self = symmetric_fn).
Proof.
  split; [|split; [|split]].
  - intros HK. unfold StateAugmentation_init. simpl.
    destruct (Z.eqb_spec num_augment_arg 8) as [E|_]; [contradiction|].
    reflexivity.
  - intros H1 H2. unfold StateAugmentation_init, get_augment_function.
    destruct (String.eqb_spec name "dihedral8") as [E|_]; [contradiction|].
    destruct (String.eqb_spec name "symmetric") as [E|_]; [contradiction|].
    reflexivity.
  - eexists. split; reflexivity.
  - eexists. split; reflexivity.
Qed.

Lemma StateAugmentation_init_rejects_witness :
  StateAugmentation_init 4 (by_name "dihedral8") true false None
    = Err AssertionError /\
  StateAugmentation_init 4 (by_name "unknown") true false None
    = Err ValueError.
Proof.
  destruct (StateAugmentation_init_rejects 4 "unknown" true false None)
    as (Hdihedral & Hname & _).
  split.
  - apply Hdihedral. lia.
  - apply Hname; discriminate.
Defined.

(** ** The POMO policy *)

(** C9: [forward] does not look at [phase]: with the same batch, decode
    type, [return_actions] flag, collaborators and initial state of the
    process (parameters and random generator), two calls that differ in the
    phase only return the same result, whether a dictionary of reward,
    log-likelihood and actions or an exception, and leave the same state. *)
Theorem forward_phase_irrelevant
    {World TD Value Embedding Encoded Aux LogP Actions LL : Type}
    (td_get : TD -> string -> option Value)
    (init_embedding : TD -> POMO.M World Embedding)
    (encoder : Embedding -> POMO.M World (Encoded * Aux))
    (decoder : TD -> Encoded -> string -> POMO.M World (LogP * Actions * TD))
    (get_log_likelihood :
       LogP -> Actions -> option Value -> POMO.M World LL)
    (td : TD) (phase phase' decode_type : string) (return_actions : bool)
    (w : World) :
  POMO.forward td_get init_embedding encoder decoder get_log_likelihood
    td "train" decode_type return_actions w
  = POMO.forward td_get init_embedding encoder decoder get_log_likelihood
      td "eval" decode_type return_actions w /\
  POMO.forward td_get init_embedding encoder decoder get_log_likelihood
    td phase decode_type return_actions w
  = POMO.forward td_get init_embedding encoder decoder get_log_likelihood
      td phase' decode_type return_actions w.
Proof. split; reflexivity. Qed.


Section SymmetricRows.

Context {dtype : Dtype}.

(** ** The symmetric transform, row by row *)

Lemma symmetric_transform_row (rx ry : list fval) (ph offset : fval) :
  (fun p : point => (fadd p.1 offset, fadd p.2 offset)) <$>
    (if fgt ph (Fin (2 * fpi))
     then (fun p : point => (p.2, p.1)) <$>
            zip_with pair
              (zip_with fsub
                 (fmul (fcos ph) <$> ((fun v => fsub v offset) <$> rx))
                 (fmul (fsin ph) <$> ((fun v => fsub v offset) <$> ry)))
              (zip_with fadd
                 (fmul (fsin ph) <$> ((fun v => fsub v offset) <$> rx))
                 (fmul (fcos ph) <$> ((fun v => fsub v offset) <$> ry)))
     else zip_with pair
              (zip_with fsub
                 (fmul (fcos ph) <$> ((fun v => fsub v offset) <$> rx))
                 (fmul (fsin ph) <$> ((fun v => fsub v offset) <$> ry)))
              (zip_with fadd
                 (fmul (fsin ph) <$> ((fun v => fsub v offset) <$> rx))
                 (fmul (fcos ph) <$> ((fun v => fsub v offset) <$> ry))))
  = zip_with (fun a b => symmetric_point a b ph offset) rx ry.
Proof.
  unfold symmetric_point.
  revert ry. induction rx as [|a rx IH]; intros [|b ry].
  - destruct (fgt ph (Fin (2 * fpi))); reflexivity.
  - destruct (fgt ph (Fin (2 * fpi))); reflexivity.
  - destruct (fgt ph (Fin (2 * fpi))); reflexivity.
  - specialize (IH ry).
    destruct (fgt ph (Fin (2 * fpi))); cbn [fmap list_fmap zip_with fst snd] in *;
      f_equal; exact IH.
Qed.

Lemma symmetric_transform_rows (x y : Tensor1) (phi : list fval) (offset : fval) :
  symmetric_transform x y phi offset
  = zip_with (fun ph (r : list fval * list fval) =>
                zip_with (fun a b => symmetric_point a b ph offset) r.1 r.2)
      phi (zip x y).
Proof.
  unfold symmetric_transform, add_scalar, where_, flip_last, cat_last, tsub,
    tadd, bmul, sub_scalar, tmap.
  revert x y. induction phi as [|ph phi IH]; intros x y; [reflexivity|].
  destruct x as [|rx x]; [reflexivity|].
  destruct y as [|ry y]; [reflexivity|].
  specialize (IH x y).
  cbn [fmap list_fmap zip_with zip fst snd] in *.
  f_equal; [|exact IH].
  apply symmetric_transform_row.
Qed.

Lemma symmetric_transform_node (x y : Tensor1) (phi : list fval)
    (offset : fval) (i j : nat) (rx ry : list fval) (a b ph : fval) :
  x !! i = Some rx -> y !! i = Some ry -> phi !! i = Some ph ->
  rx !! j = Some a -> ry !! j = Some b ->
  symmetric_transform x y phi offset !! i ≫= (.!! j)
  = Some (symmetric_point a b ph offset).
Proof.
  intros Hx Hy Hphi Ha Hb.
  rewrite symmetric_transform_rows, lookup_zip_with, Hphi. simpl.
  rewrite lookup_zip_with, Hx, Hy. simpl.
  rewrite lookup_zip_with, Ha, Hb. reflexivity.
Qed.

Lemma symmetric_transform_tensor (xy : Tensor) (phi : list fval) (offset : fval) :
  symmetric_transform (tmap fst xy) (tmap snd xy) phi offset
  = zip_with (fun ph row =>
                (fun p : point => symmetric_point p.1 p.2 ph offset) <$> row)
      phi xy.
Proof.
  rewrite symmetric_transform_rows. unfold tmap.
  revert phi. induction xy as [|row xy IH]; intros [|ph phi]; try reflexivity.
  cbn [fmap list_fmap zip zip_with fst snd].
  f_equal; [|apply IH].
  apply zip_with_fmap_same.
Qed.


(** The node that [symmetric_transform] computes is the rotation about
    the offset, in the arithmetic of the data type, with the axes
    exchanged when the angle is beyond the split. *)
Lemma symmetric_point_rotation (a b o : fval) (t : R) :
  t <= 2 * fpi ->
  symmetric_point a b (Fin t) o = frotate_about o (Fin t) (a, b).
Proof.
  intros Ht. unfold symmetric_point. rewrite fgt_Fin.
  destruct (Rlt_dec (2 * fpi) t) as [H|_]; [lra|]. reflexivity.
Qed.

Lemma symmetric_point_reflection (a b o : fval) (t : R) :
  2 * fpi < t ->
  symmetric_point a b (Fin t) o
  = fswap_axes (frotate_about o (Fin t) (a, b)).
Proof.
  intros Ht. unfold symmetric_point. rewrite fgt_Fin.
  destruct (Rlt_dec (2 * fpi) t) as [_|H]; [|lra]. reflexivity.
Qed.

End SymmetricRows.

(** ** The error of the symmetric transform *)

Lemma Rabs_mult_le (x y X Y : R) :
  Rabs x <= X -> Rabs y <= Y -> Rabs (x * y) <= X * Y.
Proof.
  intros Hx Hy. rewrite Rabs_mult.
  apply Rmult_le_compat; try apply Rabs_pos; assumption.
Qed.

Lemma product_close (c c0 A A0 u tau : R) :
  Rabs c <= 1 -> Rabs A0 <= 1 / 2 ->
  Rabs (A - A0) <= u -> Rabs (c - c0) <= tau ->
  Rabs (c * A - c0 * A0) <= u + tau / 2.
Proof.
  intros Hc HA0 HA Hc0.
  replace (c * A - c0 * A0) with (c * (A - A0) + (c - c0) * A0) by ring.
  eapply Rle_trans; [apply Rabs_triang|].
  pose proof (Rabs_mult_le _ _ _ _ Hc HA).
  pose proof (Rabs_mult_le _ _ _ _ Hc0 HA0). lra.
Qed.

Section TransformError.

Context {dtype : Dtype}.

Lemma representable_3_2 : valid_format -> representable (3 / 2).
Proof.
  intros V. apply (representable_small (3 / 2) 3 (-1) V); [|lia|lia].
  unfold dyadic. rewrite bpow_m1. lra.
Qed.

(** One coordinate of the node: the sum of two products and the offset,
    with six roundings. *)
Lemma linear_close (k1 k2 A B k1' k2' A0 B0 tau : R) :
  valid_format ->
  Rabs k1 <= 1 -> Rabs k2 <= 1 -> Rabs A <= 1 / 2 -> Rabs B <= 1 / 2 ->
  Rabs A0 <= 1 / 2 -> Rabs B0 <= 1 / 2 ->
  Rabs (A - A0) <= bpow (- prec) -> Rabs (B - B0) <= bpow (- prec) ->
  Rabs (k1 - k1') <= tau -> Rabs (k2 - k2') <= tau ->
  exists r : R,
    fadd (fadd (fmul (Fin k1) (Fin A)) (fmul (Fin k2) (Fin B))) (Fin (1 / 2))
    = Fin r /\
    Rabs (r - (k1' * A0 + k2' * B0 + 1 / 2)) <= transform_error tau.
Proof.
  intros V Hk1 Hk2 HA HB HA0 HB0 HAA HBB Hkk1 Hkk2.
  pose proof (representable_half V) as Rh.
  pose proof (representable_1 V) as R1.
  pose proof (representable_3_2 V) as R32.
  destruct (rnd_close (1 / 2) (k1 * A) V Rh ltac:(lra)) as (p1 & E1 & P1 & Q1).
  { replace (1 / 2) with (1 * (1 / 2)) by lra. apply Rabs_mult_le; assumption. }
  destruct (rnd_close (1 / 2) (k2 * B) V Rh ltac:(lra)) as (p2 & E2 & P2 & Q2).
  { replace (1 / 2) with (1 * (1 / 2)) by lra. apply Rabs_mult_le; assumption. }
  destruct (rnd_close 1 (p1 + p2) V R1 ltac:(lra)) as (d & E3 & P3 & Q3).
  { apply Rabs_le_inv in Q1, Q2. apply Rabs_le. lra. }
  destruct (rnd_close (3 / 2) (d + 1 / 2) V R32 ltac:(lra)) as (r & E4 & P4 & Q4).
  { apply Rabs_le_inv in Q3. apply Rabs_le. lra. }
  exists r. split.
  - rewrite !fmul_Fin, E1, E2, fadd_Fin, E3, fadd_Fin, E4. reflexivity.
  - pose proof (product_close _ _ _ _ _ _ Hk1 HA0 HAA Hkk1) as C1.
    pose proof (product_close _ _ _ _ _ _ Hk2 HB0 HBB Hkk2) as C2.
    unfold transform_error.
    apply Rabs_le_inv in P1, P2, P3, P4, C1, C2. apply Rabs_le. lra.
Qed.

Lemma fsub_fmul (p s B : R) :
  fsub (Fin p) (fmul (Fin s) (Fin B)) = fadd (Fin p) (fmul (Fin (- s)) (Fin B)).
Proof.
  unfold fsub. f_equal. rewrite !fmul_Fin, <- rnd_opp. f_equal. ring.
Qed.

(** The node of a point of the unit square with the offset 1/2, for a
    cosine and a sine of the data type that are within [tau] of two
    numbers [c0] and [s0]: each coordinate is within
    [transform_error tau] of the image that [c0] and [s0] give in exact
    arithmetic. *)
Lemma symmetric_point_linear (a b t c0 s0 tau : R) :
  valid_format -> valid_trig ->
  Rabs (tcos t - c0) <= tau -> Rabs (tsin t - s0) <= tau ->
  0 <= a <= 1 -> 0 <= b <= 1 ->
  exists p : R * R,
    symmetric_point (Fin a) (Fin b) (Fin t) (Fin (1 / 2)) = fpoint p /\
    let P := (c0 * (a - 1 / 2) - s0 * (b - 1 / 2) + 1 / 2,
              s0 * (a - 1 / 2) + c0 * (b - 1 / 2) + 1 / 2) in
    let P' := if Rlt_dec (2 * fpi) t then swap_axes P else P in
    Rabs (p.1 - P'.1) <= transform_error tau /\
    Rabs (p.2 - P'.2) <= transform_error tau.
Proof.
  intros V (_ & _ & Htrig) Hcc Hss Ha Hb.
  pose proof (representable_half V) as Rh.
  destruct (Htrig t) as [Hc Hs].
  destruct (rnd_close (1 / 2) (a - 1 / 2) V Rh ltac:(lra)) as (A & EA & PA & QA);
    [apply Rabs_le; lra|].
  destruct (rnd_close (1 / 2) (b - 1 / 2) V Rh ltac:(lra)) as (B & EB & PB & QB);
    [apply Rabs_le; lra|].
  assert (HA0 : Rabs (a - 1 / 2) <= 1 / 2) by (apply Rabs_le; lra).
  assert (HB0 : Rabs (b - 1 / 2) <= 1 / 2) by (apply Rabs_le; lra).
  assert (Hc1 : Rabs (tcos t) <= 1) by (apply Rabs_le; lra).
  assert (Hs1 : Rabs (tsin t) <= 1) by (apply Rabs_le; lra).
  assert (Hs1' : Rabs (- tsin t) <= 1) by (rewrite Rabs_Ropp; exact Hs1).
  assert (Hss' : Rabs (- tsin t - - s0) <= tau).
  { replace (- tsin t - - s0) with (- (tsin t - s0)) by ring.
    rewrite Rabs_Ropp. exact Hss. }
  destruct (linear_close (tcos t) (- tsin t) A B c0 (- s0)
              (a - 1 / 2) (b - 1 / 2) tau V Hc1 Hs1' QA QB HA0 HB0 PA PB
              Hcc Hss') as (x' & Ex & Px).
  destruct (linear_close (tsin t) (tcos t) A B s0 c0
              (a - 1 / 2) (b - 1 / 2) tau V Hs1 Hc1 QA QB HA0 HB0 PA PB
              Hss Hcc) as (y' & Ey & Py).
  assert (Hx : fadd (fsub (fmul (fcos (Fin t)) (fsub (Fin a) (Fin (1 / 2))))
                        (fmul (fsin (Fin t)) (fsub (Fin b) (Fin (1 / 2)))))
                 (Fin (1 / 2)) = Fin x').
  { rewrite !fsub_Fin, EA, EB. cbn [fcos fsin].
    rewrite fmul_Fin at 1.
    destruct (rnd (tcos t * A)) as [p| | |] eqn:Ep.
    - rewrite fsub_fmul. rewrite <- Ep, <- fmul_Fin. exact Ex.
    - rewrite fmul_Fin, Ep in Ex. rewrite fmul_Fin in *.
      destruct (rnd (- tsin t * B)), (rnd (tsin t * B));
        cbn [fadd fsub fneg] in *; try discriminate.
    - rewrite fmul_Fin, Ep in Ex. rewrite fmul_Fin in *.
      destruct (rnd (- tsin t * B)), (rnd (tsin t * B));
        cbn [fadd fsub fneg] in *; try discriminate.
    - rewrite fmul_Fin, Ep in Ex. rewrite fmul_Fin in *.
      destruct (rnd (- tsin t * B)), (rnd (tsin t * B));
        cbn [fadd fsub fneg] in *; try discriminate. }
  assert (Hy : fadd (fadd (fmul (fsin (Fin t)) (fsub (Fin a) (Fin (1 / 2))))
                        (fmul (fcos (Fin t)) (fsub (Fin b) (Fin (1 / 2)))))
                 (Fin (1 / 2)) = Fin y').
  { rewrite !fsub_Fin, EA, EB. cbn [fcos fsin]. exact Ey. }
  unfold symmetric_point. cbn zeta. rewrite fgt_Fin.
  destruct (Rlt_dec (2 * fpi) t) as [Hm|Hm]; cbn [fst snd].
  - exists (y', x'). split; [rewrite Hx, Hy; reflexivity|].
    unfold swap_axes. cbn [fst snd]. split; [exact Py|].
    replace (c0 * (a - 1 / 2) - s0 * (b - 1 / 2) + 1 / 2)
      with (c0 * (a - 1 / 2) + - s0 * (b - 1 / 2) + 1 / 2) by ring.
    exact Px.
  - exists (x', y'). split; [rewrite Hx, Hy; reflexivity|].
    cbn [fst snd]. split; [|exact Py].
    replace (c0 * (a - 1 / 2) - s0 * (b - 1 / 2) + 1 / 2)
      with (c0 * (a - 1 / 2) + - s0 * (b - 1 / 2) + 1 / 2) by ring.
    exact Px.
Qed.

(** The node of a point of the unit square at an angle up to 16, with
    the offset 1/2: each coordinate is within [transform_error tau] of
    the exact image. *)
Lemma symmetric_point_close (a b t tau : R) :
  valid_format -> valid_trig -> trig_accurate tau ->
  0 <= a <= 1 -> 0 <= b <= 1 -> Rabs t <= 16 ->
  exists p : R * R,
    symmetric_point (Fin a) (Fin b) (Fin t) (Fin (1 / 2)) = fpoint p /\
    let P := if Rlt_dec (2 * fpi) t
             then swap_axes (rotate_about (1 / 2) t (a, b))
             else rotate_about (1 / 2) t (a, b) in
    Rabs (p.1 - P.1) <= transform_error tau /\
    Rabs (p.2 - P.2) <= transform_error tau.
Proof.
  intros V VT Hacc Ha Hb Ht. destruct (Hacc t Ht) as [Hcc Hss].
  destruct (symmetric_point_linear a b t (cos t) (sin t) tau V VT Hcc Hss
              Ha Hb) as (p & Ep & Hp).
  exists p. split; [exact Ep|].
  unfold rotate_about, rotate. cbn [fst snd]. cbn zeta in Hp.
  destruct (Rlt_dec (2 * fpi) t); exact Hp.
Qed.


End TransformError.

(** ** Rotation and reflection *)

Lemma PI_tight : 314159265 / 100000000 < PI < 314159266 / 100000000.
Proof.
  pose proof (PI_2_3_7_ineq 5) as [L U].
  unfold PI_2_3_7_tg, tg_alt, Ratan_seq in L, U.
  simpl in L, U.
  split; lra.
Qed.

Lemma Rabs_sin_le (x : R) : Rabs (sin x) <= Rabs x.
Proof.
  assert (H : forall y : R, 0 < y -> Rabs (sin y) <= y).
  { intros y Hy. apply Rabs_le. pose proof (sin_lt_x y Hy).
    pose proof (SIN_bound y) as [S1 S2]. pose proof PI_bounds as [P1 P2].
    destruct (Rle_or_lt 1 y) as [H1|H1]; [lra|].
    pose proof (sin_gt_0 y Hy ltac:(lra)). lra. }
  destruct (Rtotal_order x 0) as [Hx|[->|Hx]].
  - specialize (H (- x) ltac:(lra)). rewrite sin_neg, Rabs_Ropp in H.
    rewrite (Rabs_left x) by lra. exact H.
  - rewrite sin_0, Rabs_R0. lra.
  - rewrite (Rabs_pos_eq x) by lra. apply H, Hx.
Qed.

(** The cosine and the sine next to a full turn. *)
Lemma near_full_turn (t : R) :
  Rabs (t - 2 * PI) <= 1 / 4 -> 7 / 8 <= cos t /\ Rabs (sin t) <= 1 / 4.
Proof.
  intros H. set (d := t - 2 * PI) in *.
  assert (Hc : cos t = cos d).
  { unfold d. rewrite cos_minus, cos_2PI, sin_2PI. ring. }
  assert (Hs : sin t = sin d).
  { unfold d. rewrite sin_minus, cos_2PI, sin_2PI. ring. }
  rewrite Hc, Hs.
  pose proof (Rabs_sin_le d) as S1.
  pose proof (Rabs_sin_le (d / 2)) as S2.
  assert (Hd2 : Rabs (d / 2) <= 1 / 8).
  { apply Rabs_le_inv in H. apply Rabs_le. lra. }
  split; [|lra].
  replace d with (2 * (d / 2)) by field. rewrite cos_2a_sin.
  assert (S3 : Rabs (sin (d / 2)) <= 1 / 8) by lra.
  apply Rabs_le_inv in S3. nra.
Qed.

Section RotationReflection.

Context {dtype : Dtype}.

(** C3, as amended: on tensors [x] and [y] of one shape with one angle
    per row, [symmetric_transform] subtracts the offset from both
    coordinates, rotates by the angle of the row and adds the offset back,
    every operation rounded to the data type.  An angle up to and
    including the split [2 * pi] of the data type gives this rotation
    alone; an angle strictly beyond it gives the rotation followed by the
    exchange of the two axes.  The angle of a draw is a finite number in
    [[0, 4 * pi)], and it is reflected exactly when the draw is beyond
    one half.  For a node of the unit square, the offset 1/2 and a
    cosine and a sine within [tau], every coordinate of the result is
    within [transform_error tau] of the exact rotation, or of the exact
    rotation with its axes exchanged. *)
Theorem symmetric_transform_rotation_reflection (x y : Tensor1)
    (phi : list fval) (i j : nat) (rx ry : list fval) (a b t o : R) (k : Z) :
  valid_format ->
  length <$> x = length <$> y -> length phi = length x ->
  x !! i = Some rx -> y !! i = Some ry -> phi !! i = Some (Fin t) ->
  rx !! j = Some (Fin a) -> ry !! j = Some (Fin b) ->
  (t <= 2 * fpi ->
   symmetric_transform x y phi (Fin o) !! i ≫= (.!! j)
   = Some (frotate_about (Fin o) (Fin t) (Fin a, Fin b))) /\
  (2 * fpi < t ->
   symmetric_transform x y phi (Fin o) !! i ≫= (.!! j)
   = Some (fswap_axes (frotate_about (Fin o) (Fin t) (Fin a, Fin b)))) /\
  (0 <= draw k < 1 /\
   exists v : R,
     drawn_angle k = Fin v /\ 0 <= v < 4 * PI /\
     (fgt (Fin v) (Fin (2 * fpi)) = true <-> 1 / 2 < draw k)) /\
  (forall tau : R,
     valid_trig -> trig_accurate tau ->
     0 <= a <= 1 -> 0 <= b <= 1 -> Rabs t <= 16 -> o = 1 / 2 ->
     exists p : R * R,
       symmetric_transform x y phi (Fin o) !! i ≫= (.!! j)
       = Some (fpoint p) /\
       let P := if Rlt_dec (2 * fpi) t
                then swap_axes (rotate_about (1 / 2) t (a, b))
                else rotate_about (1 / 2) t (a, b) in
       Rabs (p.1 - P.1) <= transform_error tau /\
       Rabs (p.2 - P.2) <= transform_error tau).
Proof.
  intros V _ _ Hx Hy Hphi Ha Hb.
  rewrite (symmetric_transform_node x y phi (Fin o) i j rx ry _ _ _
             Hx Hy Hphi Ha Hb).
  split; [|split; [|split]].
  - intros Ht. rewrite symmetric_point_rotation by exact Ht. reflexivity.
  - intros Ht. rewrite symmetric_point_reflection by exact Ht. reflexivity.
  - split; [apply draw_lt_1, V|].
    destruct (drawn_angle_range k V) as (v & Ev & _ & [H0 _] & H4).
    exists v. split; [exact Ev|]. split; [lra|].
    rewrite <- Ev. apply drawn_angle_split, V.
  - intros tau VT Hacc Ha' Hb' Ht ->.
    destruct (symmetric_point_close a b t tau V VT Hacc Ha' Hb' Ht)
      as (p & Ep & Hp).
    exists p. rewrite Ep. split; [reflexivity|exact Hp].
Qed.

End RotationReflection.

Section RotationReflectionExamples.

#[local] Existing Instance float32.

(** [math.pi] in [torch.float32]. *)
Lemma float32_fpi : fpi = dyadic 13176795 (-22).
Proof.
  unfold fpi, round. cbn [prec emax float32].
  pose proof (cexp_PI float32_valid_format) as Hc.
  cbn [prec emax float32] in Hc.
  rewrite (round_nearest 24 128 PI 13176795); rewrite Hc; [reflexivity|].
  pose proof PI_tight as [L U].
  change (- (2 - 24))%Z with 22%Z. unfold bpow. simpl.
  apply Rabs_def1; lra.
Qed.

Lemma float32_fpi_above : PI < fpi < PI + bpow (- 23).
Proof.
  rewrite float32_fpi. pose proof PI_tight as [L U].
  unfold dyadic, bpow. simpl. lra.
Qed.

Lemma symmetric_transform_rotation_reflection_witness :
  symmetric_transform [[Fin 1]] [[Fin 0]] [Fin 0] (Fin (1 / 2)) !! 0%nat
    ≫= (.!! 0%nat)
  = Some (frotate_about (Fin (1 / 2)) (Fin 0) (Fin 1, Fin 0)).
Proof.
  apply (symmetric_transform_rotation_reflection
           [[Fin 1]] [[Fin 0]] [Fin 0] 0 0 [Fin 1] [Fin 0] 1 0 0 (1 / 2) 0
           float32_valid_format);
    try reflexivity.
  pose proof (fpi_bounds float32_valid_format). lra.
Defined.

(** C3 as stated fails at the split itself.  The draw 1/2 has the angle
    [2 * pi] of [torch.float32], which lies in [[2 * pi, 4 * pi)], but
    the mask [phi > 2 * pi] is false there: the node (1, 0) is rotated
    and not reflected, it stays next to (1, 0) and away from its mirror
    image next to (0, 1). *)
Lemma symmetric_transform_no_reflection_at_split :
  draw (2 ^ 23) = 1 / 2 /\
  drawn_angle (2 ^ 23) = Fin (2 * fpi) /\
  2 * PI <= 2 * fpi < 4 * PI /\
  fgt (Fin (2 * fpi)) (Fin (2 * fpi)) = false /\
  (exists p : R * R,
     symmetric_transform [[Fin 1]] [[Fin 0]] [Fin (2 * fpi)] default_offset
     = [[fpoint p]] /\
     fpoint p = frotate_about (Fin (1 / 2)) (Fin (2 * fpi)) (Fin 1, Fin 0) /\
     3 / 4 < p.1 /\ p.2 < 1 / 4) /\
  symmetric_transform [[Fin 1]] [[Fin 0]] [Fin (2 * fpi)] default_offset
  <> [[fswap_axes (frotate_about (Fin (1 / 2)) (Fin (2 * fpi)) (Fin 1, Fin 0))]].
Proof.
  pose proof float32_valid_format as V.
  pose proof float32_fpi_above as [F1 F2].
  pose proof PI_bounds as [P1 P2].
  assert (Hb : bpow (- 23) <= 1 / 16) by (unfold bpow; simpl; lra).
  destruct (drawn_angle_half V) as [D1 D2]. cbn [prec float32] in D1, D2.
  change (24 - 1)%Z with 23%Z in D1, D2.
  assert (E : symmetric_transform [[Fin 1]] [[Fin 0]] [Fin (2 * fpi)]
                default_offset
              = [[frotate_about (Fin (1 / 2)) (Fin (2 * fpi)) (Fin 1, Fin 0)]]).
  { rewrite symmetric_transform_rows. cbn [zip zip_with fst snd].
    unfold default_offset.
    rewrite symmetric_point_rotation by lra. reflexivity. }
  destruct (symmetric_point_close 1 0 (2 * fpi) (bpow (- 24)) V
              float32_valid_trig float32_trig_accurate
              ltac:(lra) ltac:(lra)) as (p & Ep & Hp).
  { apply Rabs_le. lra. }
  rewrite symmetric_point_rotation in Ep by lra.
  cbn zeta in Hp. destruct (Rlt_dec (2 * fpi) (2 * fpi)) as [H|_]; [lra|].
  destruct (near_full_turn (2 * fpi)) as [C S]; [apply Rabs_le; lra|].
  apply Rabs_le_inv in S.
  unfold rotate_about, rotate, transform_error in Hp.
  cbn [fst snd prec float32] in Hp.
  change (- (24))%Z with (-24)%Z in Hp.
  assert (Hu : 6 * bpow (- 24) + bpow (- 24) <= 1 / 32)
    by (unfold bpow; simpl; lra).
  destruct Hp as [Hp1 Hp2]. apply Rabs_le_inv in Hp1, Hp2.
  assert (Q1 : 3 / 4 < p.1) by lra.
  assert (Q2 : p.2 < 1 / 4) by lra.
  split; [exact D1|]. split; [exact D2|]. split; [lra|].
  split; [rewrite fgt_Fin; destruct (Rlt_dec _ _); [lra|reflexivity]|].
  split.
  - exists p. rewrite E, Ep. auto.
  - rewrite E, Ep. unfold fswap_axes, fpoint. cbn [fst snd].
    intros H. injection H as H _. lra.
Qed.

End RotationReflectionExamples.

(** ** Distances *)

Lemma dist_dist_euc (p q : R * R) : dist p q = dist_euc p.1 p.2 q.1 q.2.
Proof. reflexivity. Qed.

Lemma dist_triangle (p q r : R * R) : dist p q <= dist p r + dist r q.
Proof. rewrite !dist_dist_euc. apply triangle. Qed.

Lemma dist_sym (p q : R * R) : dist p q = dist q p.
Proof. rewrite !dist_dist_euc. apply distance_symm. Qed.

Lemma dist_le_abs (p q : R * R) (e : R) :
  Rabs (p.1 - q.1) <= e -> Rabs (p.2 - q.2) <= e -> dist p q <= 2 * e.
Proof.
  intros H1 H2. unfold dist.
  pose proof (Rabs_pos (p.1 - q.1)) as P1.
  pose proof (Rabs_pos (p.2 - q.2)) as P2.
  apply Rabs_le_inv in H1, H2.
  apply Rle_trans with (sqrt ((2 * e) * (2 * e))).
  - apply sqrt_le_1_alt. nra.
  - rewrite sqrt_square; lra.
Qed.

(** Two pairs of points that are coordinate by coordinate within [e] of
    each other have distances within [4 * e]. *)
Lemma dist_close (p q P Q : R * R) (e : R) :
  Rabs (p.1 - P.1) <= e -> Rabs (p.2 - P.2) <= e ->
  Rabs (q.1 - Q.1) <= e -> Rabs (q.2 - Q.2) <= e ->
  Rabs (dist p q - dist P Q) <= 4 * e.
Proof.
  intros H1 H2 H3 H4.
  pose proof (dist_le_abs p P e H1 H2) as Dp.
  pose proof (dist_le_abs q Q e H3 H4) as Dq.
  pose proof (dist_triangle p q P) as T1.
  pose proof (dist_triangle P q Q) as T2.
  pose proof (dist_triangle P Q p) as T3.
  pose proof (dist_triangle p Q q) as T4.
  rewrite (dist_sym Q q) in T2. rewrite (dist_sym P p) in T3.
  apply Rabs_le. lra.
Qed.

Lemma rotate_about_isometry (o t : R) (p q : R * R) :
  dist (rotate_about o t p) (rotate_about o t q) = dist p q.
Proof.
  destruct p as [a b], q as [c d]. unfold dist, rotate_about, rotate.
  cbn [fst snd]. f_equal.
  pose proof (sin2_cos2 t) as H. unfold Rsqr in H.
  transitivity ((sin t * sin t + cos t * cos t)
                * ((a - c) * (a - c) + (b - d) * (b - d))); [ring|].
  rewrite H. ring.
Qed.

Lemma swap_axes_isometry (p q : R * R) :
  dist (swap_axes p) (swap_axes q) = dist p q.
Proof. unfold dist, swap_axes. cbn [fst snd]. f_equal. ring. Qed.

(** The distance of two points with the same second coordinate. *)
Lemma dist_horizontal (a c b : R) : c <= a -> dist (c, b) (a, b) = a - c.
Proof.
  intros H. unfold dist. cbn [fst snd].
  replace ((c - a) * (c - a) + (b - b) * (b - b)) with ((a - c) * (a - c))
    by ring.
  apply sqrt_square. lra.
Qed.

Section Distances.

Context {dtype : Dtype}.

(** C8, as amended: on tensors [x] and [y] of one shape with one angle
    per row, [symmetric_transform] with the default offset keeps the
    Euclidean distance of any two nodes of one instance up to rounding:
    for nodes of the unit square, an angle up to 16 (every drawn angle is
    below [4 * pi]) and a cosine and a sine within [tau], the two
    transformed nodes are finite and their distance differs from the
    distance of the original nodes by at most [4 * transform_error tau],
    reflected or not. *)
Theorem symmetric_transform_isometry (x y : Tensor1) (phi : list fval)
    (i j k : nat) (rx ry : list fval) (a b c d t tau : R) :
  valid_format -> valid_trig -> trig_accurate tau ->
  length <$> x = length <$> y -> length phi = length x ->
  x !! i = Some rx -> y !! i = Some ry -> phi !! i = Some (Fin t) ->
  rx !! j = Some (Fin a) -> ry !! j = Some (Fin b) ->
  rx !! k = Some (Fin c) -> ry !! k = Some (Fin d) ->
  0 <= a <= 1 -> 0 <= b <= 1 -> 0 <= c <= 1 -> 0 <= d <= 1 ->
  Rabs t <= 16 ->
  exists p q : R * R,
    symmetric_transform x y phi default_offset !! i ≫= (.!! j)
    = Some (fpoint p) /\
    symmetric_transform x y phi default_offset !! i ≫= (.!! k)
    = Some (fpoint q) /\
    Rabs (dist p q - dist (a, b) (c, d)) <= 4 * transform_error tau.
Proof.
  intros V VT Hacc _ _ Hx Hy Hphi Ha Hb Hc Hd Ia Ib Ic Id Ht.
  destruct (symmetric_point_close a b t tau V VT Hacc Ia Ib Ht)
    as (p & Ep & Hp1 & Hp2).
  destruct (symmetric_point_close c d t tau V VT Hacc Ic Id Ht)
    as (q & Eq & Hq1 & Hq2).
  exists p, q. unfold default_offset.
  split; [rewrite <- Ep; eapply symmetric_transform_node; eassumption|].
  split; [rewrite <- Eq; eapply symmetric_transform_node; eassumption|].
  destruct (Rlt_dec (2 * fpi) t) as [Hm|Hm].
  - rewrite <- (rotate_about_isometry (1 / 2) t (a, b) (c, d)).
    rewrite <- (swap_axes_isometry (rotate_about (1 / 2) t (a, b))).
    apply dist_close; assumption.
  - rewrite <- (rotate_about_isometry (1 / 2) t (a, b) (c, d)).
    apply dist_close; assumption.
Qed.

(** ** The angle 0 *)

Lemma fsub_half_finite (r : R) :
  valid_format -> Rabs r <= bpow (emax - 2) ->
  exists A : R, fsub (Fin r) (Fin (1 / 2)) = Fin A /\ representable A.
Proof.
  intros V Hr. pose proof V as [Hp He].
  assert (HB : representable (bpow (emax - 1)))
    by (apply representable_bpow; [exact V|lia]).
  assert (H2 : bpow (emax - 1) = 2 * bpow (emax - 2)).
  { replace (emax - 1)%Z with (1 + (emax - 2))%Z by lia.
    rewrite bpow_plus, bpow_1. reflexivity. }
  assert (H1 : 1 <= bpow (emax - 2)) by (apply bpow_ge_1; lia).
  apply Rabs_le_inv in Hr.
  assert (Hb : - bpow (emax - 1) <= r - 1 / 2 <= bpow (emax - 1)) by lra.
  assert (Hp1 : (1 <= prec)%Z) by lia.
  destruct (rnd_between_Fin (- bpow (emax - 1)) (bpow (emax - 1)) (r - 1 / 2)
              Hp1 (representable_opp _ HB) HB Hb)
    as (A & EA & _).
  exists A. rewrite fsub_Fin. split; [exact EA|].
  eapply rnd_representable; [exact V|exact EA].
Qed.

(** At the angle 0 a node is recentred: the offset is subtracted and
    added back. *)
Lemma symmetric_point_zero (p : point) :
  valid_format -> valid_trig -> moderate_point p ->
  symmetric_point p.1 p.2 (Fin 0) (Fin (1 / 2)) = recentre_point p.
Proof.
  intros V (C0 & S0 & _) [(a & Ea & Ha) (b & Eb & Hb)].
  destruct p as [pa pb]. cbn [fst snd] in *. subst pa pb.
  pose proof (fpi_bounds V) as [L U].
  rewrite symmetric_point_rotation by lra.
  unfold frotate_about, frotate, recentre_point, recentre. cbn [fst snd].
  destruct (fsub_half_finite a V Ha) as (A & -> & RA).
  destruct (fsub_half_finite b V Hb) as (B & -> & RB).
  cbn [fcos fsin]. rewrite C0, S0.
  rewrite !fmul_1_l, !fmul_0_l by assumption.
  rewrite fsub_0_r, fadd_0_l by assumption. reflexivity.
Qed.

Lemma symmetric_row_zero (row : list point) :
  valid_format -> valid_trig -> Forall moderate_point row ->
  (fun p : point => symmetric_point p.1 p.2 (Fin 0) (Fin (1 / 2))) <$> row
  = recentre_point <$> row.
Proof.
  intros V VT. induction 1 as [|p row Hp _ IH]; [reflexivity|].
  cbn [fmap list_fmap] in *. f_equal; [|exact IH].
  apply symmetric_point_zero; assumption.
Qed.

Lemma symmetric_transform_zero (xy : Tensor) :
  valid_format -> valid_trig -> Forall (Forall moderate_point) xy ->
  symmetric_transform (tmap fst xy) (tmap snd xy)
    (replicate (length xy) (Fin 0)) default_offset = tmap recentre_point xy.
Proof.
  intros V VT Hfin. rewrite symmetric_transform_tensor. unfold tmap.
  induction Hfin as [|row xy Hrow _ IH]; [reflexivity|].
  cbn [length replicate zip_with fmap list_fmap]. f_equal; [|exact IH].
  apply symmetric_row_zero; assumption.
Qed.

(** Recentring is exact on the grid. *)
Lemma on_grid_recentre (v : fval) :
  valid_format -> on_grid v -> recentre v = v.
Proof.
  intros V (k & Hk & ->). pose proof V as [Hp He].
  pose proof (pow_prec_split V) as (P0 & P2 & P1 & Ppos).
  assert (Hh : 1 / 2 = dyadic (2 ^ (prec - 1)) (- prec)) by
    (symmetry; apply half_mantissa, V).
  unfold recentre.
  rewrite (fsub_exact _ _ (dyadic (k - 2 ^ (prec - 1)) (- prec))).
  - apply fadd_exact.
    + rewrite Hh at 1. rewrite dyadic_add. f_equal. lia.
    + apply representable_dyadic_le; [exact V|lia|lia|lia].
  - rewrite Hh at 1. apply dyadic_sub.
  - apply representable_dyadic; lia.
Qed.

Lemma on_grid_recentre_point (p : point) :
  valid_format -> on_grid_point p -> recentre_point p = p.
Proof.
  intros V [H1 H2]. destruct p as [a b]. unfold recentre_point.
  cbn [fst snd] in *. rewrite !on_grid_recentre by assumption. reflexivity.
Qed.

(** Recentring a coordinate of the unit interval moves it by two
    roundings at most. *)
Lemma recentre_close (r : R) :
  valid_format -> 0 <= r <= 1 ->
  exists r' : R,
    recentre (Fin r) = Fin r' /\ Rabs (r' - r) <= 2 * bpow (- prec).
Proof.
  intros V Hr. pose proof (representable_half V) as Rh.
  pose proof (representable_1 V) as R1.
  destruct (rnd_close (1 / 2) (r - 1 / 2) V Rh ltac:(lra)) as (A & EA & PA & QA);
    [apply Rabs_le; lra|].
  apply Rabs_le_inv in QA.
  destruct (rnd_close 1 (A + 1 / 2) V R1 ltac:(lra)) as (r' & Er & Pr & _);
    [apply Rabs_le; lra|].
  exists r'. unfold recentre. rewrite fsub_Fin, EA, fadd_Fin, Er.
  split; [reflexivity|].
  apply Rabs_le_inv in PA, Pr. apply Rabs_le. lra.
Qed.

End Distances.

(** ** The leading rows of the symmetric augmentation *)

Lemma slice_fill_lookup {A : Type} (l : list A) (n : Z) (v : A) (i : nat) :
  (Z.of_nat i < n)%Z -> (i < length l)%nat -> slice_fill l n v !! i = Some v.
Proof.
  intros Hi Hlen. unfold slice_fill, slice_stop.
  destruct (decide (n < 0)%Z) as [Hn|Hn]; [lia|].
  rewrite lookup_app_l by (rewrite length_replicate; lia).
  apply lookup_replicate_2. lia.
Qed.

Lemma floordiv_leading (batch i : nat) (K : Z) :
  (Z.of_nat i < Z.of_nat batch / K)%Z -> (i < batch)%nat.
Proof.
  intros Hi.
  destruct (Z_lt_le_dec 0 K) as [HK|HK].
  - assert (Z.of_nat batch / K <= Z.of_nat batch)%Z
      by (apply Z.div_le_upper_bound; nia).
    lia.
  - destruct (Z.eq_dec K 0%Z) as [->|HK0].
    + rewrite Z.div_0_r in Hi. lia.
    + pose proof (Z.div_mod (Z.of_nat batch) K HK0) as Hdiv.
      pose proof (Z.mod_neg_bound (Z.of_nat batch) K ltac:(lia)) as Hmod.
      nia.
Qed.

Section LeadingRows.

Context {dtype : Dtype}.

Lemma symmetric_node_zero (a b : fval) :
  valid_format -> valid_trig -> moderate a -> moderate b ->
  symmetric_point a b (Fin 0) (Fin (1 / 2)) = (recentre a, recentre b).
Proof.
  intros V VT Ha Hb.
  apply (symmetric_point_zero (a, b) V VT). split; assumption.
Qed.

Lemma rand_length (n : nat) (g : rng) : length (rand n g).1 = n.
Proof. unfold rand. cbn [fst]. rewrite length_fmap. apply length_seq. Qed.

Lemma symmetric_angles_reset (batch : nat) (K : Z) (g : rng) :
  K <> 0%Z ->
  symmetric_angles batch K false g
  = Ok (slice_fill ((fun r => fmul (fmul r (Fin 4)) (Fin fpi))
                      <$> (rand batch g).1)
          (Z.of_nat batch / K) (Fin 0),
        fun i => g (batch + i)%nat).
Proof.
  intros HK. unfold symmetric_angles, floordiv. cbn [rand].
  destruct (decide (K = 0%Z)) as [E|_]; [contradiction|]. reflexivity.
Qed.

Lemma symmetric_augmentation_reset (xy : Tensor) (K : Z) (g : rng) :
  K <> 0%Z ->
  symmetric_augmentation xy K false g
  = Ok (symmetric_transform (tmap fst xy) (tmap snd xy)
          (slice_fill ((fun r => fmul (fmul r (Fin 4)) (Fin fpi))
                         <$> (rand (length xy) g).1)
             (Z.of_nat (length xy) / K) (Fin 0))
          default_offset,
        fun i => g (length xy + i)%nat).
Proof.
  intros HK. unfold symmetric_augmentation.
  rewrite (symmetric_angles_reset _ K g HK). reflexivity.
Qed.

(** C10, as amended: with [first_augment=False] and a [num_augment] other
    than 0, [symmetric_augmentation] returns and the angles of the rows
    before [batch // num_augment] are 0.  [symmetric_transform] with the
    angle 0 is not the identity map: it subtracts the offset 1/2 from
    every coordinate and adds it back, with a rounding each time, so the
    leading rows of the result are the recentred rows of the input.  They
    are the rows of the input where the coordinates are multiples of
    [2 ^ - prec] in the unit interval, as the draws of [torch.rand] are;
    any other coordinate of the unit interval moves by two roundings at
    most. *)
Theorem symmetric_augmentation_leading_rows (xy : Tensor) (K : Z) (g : rng) :
  valid_format -> valid_trig ->
  K <> 0%Z ->
  Forall (Forall moderate_point) xy ->
  exists (phi : list fval) (out : Tensor) (g' : rng),
    symmetric_angles (length xy) K false g = Ok (phi, g') /\
    symmetric_augmentation xy K false g = Ok (out, g') /\
    (forall i : nat,
        (Z.of_nat i < Z.of_nat (length xy) / K)%Z ->
        phi !! i = Some (Fin 0) /\
        out !! i = fmap recentre_point <$> xy !! i /\
        (forall row : list point,
            xy !! i = Some row -> Forall on_grid_point row ->
            out !! i = Some row)) /\
    symmetric_transform (tmap fst xy) (tmap snd xy)
      (replicate (length xy) (Fin 0)) default_offset
    = tmap recentre_point xy /\
    (forall p : point, on_grid_point p -> recentre_point p = p) /\
    (forall r : R,
        0 <= r <= 1 ->
        exists r' : R,
          recentre (Fin r) = Fin r' /\ Rabs (r' - r) <= 2 * bpow (- prec)).
Proof.
  intros V VT HK Hfin.
  set (phi0 := (fun r => fmul (fmul r (Fin 4)) (Fin fpi))
                 <$> (rand (length xy) g).1).
  set (phi := slice_fill phi0 (Z.of_nat (length xy) / K) (Fin 0)).
  exists phi, (symmetric_transform (tmap fst xy) (tmap snd xy) phi default_offset),
    (fun i => g (length xy + i)%nat).
  split; [apply symmetric_angles_reset, HK|].
  split; [apply symmetric_augmentation_reset, HK|].
  split; [|split; [apply symmetric_transform_zero; assumption|split]].
  - intros i Hi.
    assert (Hlen : (i < length xy)%nat) by (eapply floordiv_leading; exact Hi).
    assert (Hphi : phi !! i = Some (Fin 0)).
    { apply slice_fill_lookup; [exact Hi|].
      unfold phi0. rewrite length_fmap, rand_length. exact Hlen. }
    split; [exact Hphi|].
    destruct (lookup_lt_is_Some_2 xy i Hlen) as [row Hrow].
    assert (Hout : symmetric_transform (tmap fst xy) (tmap snd xy) phi
                     default_offset !! i
                   = Some (recentre_point <$> row)).
    { rewrite symmetric_transform_tensor, lookup_zip_with, Hphi, Hrow.
      cbn [mbind option_bind]. f_equal.
      unfold default_offset. apply symmetric_row_zero; try assumption.
      eapply Forall_lookup_1; [exact Hfin|exact Hrow]. }
    split; [rewrite Hout, Hrow; reflexivity|].
    intros row' Hrow' Hgrid. rewrite Hrow in Hrow'. injection Hrow' as <-.
    rewrite Hout. f_equal. clear Hrow Hout.
    induction Hgrid as [|p row' Hp _ IH]; [reflexivity|].
    cbn [fmap list_fmap]. rewrite (on_grid_recentre_point p V Hp).
    f_equal. exact IH.
  - intros p Hp. apply on_grid_recentre_point; assumption.
  - intros r Hr. apply recentre_close; assumption.
Qed.

End LeadingRows.

Section RecentreExamples.

#[local] Existing Instance float32.

Lemma float32_moderate (r : R) : Rabs r <= 2 -> moderate (Fin r).
Proof.
  intros H. exists r. split; [reflexivity|].
  cbn [emax float32]. assert (2 <= bpow (128 - 2)); [|lra].
  rewrite <- bpow_1. apply bpow_le. lia.
Qed.

Lemma symmetric_transform_isometry_witness :
  exists p q : R * R,
    symmetric_transform [[Fin 1; Fin 0]] [[Fin 0; Fin 0]] [Fin 7] default_offset
      !! 0%nat ≫= (.!! 0%nat) = Some (fpoint p) /\
    symmetric_transform [[Fin 1; Fin 0]] [[Fin 0; Fin 0]] [Fin 7] default_offset
      !! 0%nat ≫= (.!! 1%nat) = Some (fpoint q) /\
    Rabs (dist p q - dist (1, 0) (0, 0)) <= 4 * transform_error (bpow (- 24)).
Proof.
  apply (symmetric_transform_isometry
           [[Fin 1; Fin 0]] [[Fin 0; Fin 0]] [Fin 7] 0 0 1
           [Fin 1; Fin 0] [Fin 0; Fin 0] 1 0 0 0 7 (bpow (- 24))
           float32_valid_format float32_valid_trig float32_trig_accurate);
    try reflexivity; try lra.
  apply Rabs_le. lra.
Defined.

(** The number of [torch.float32] next to 0.1, recentred. *)
Lemma recentre_tenth :
  recentre (Fin (dyadic 13421773 (-27))) = Fin (dyadic 3355443 (-25)).
Proof.
  unfold recentre.
  assert (E1 : fsub (Fin (dyadic 13421773 (-27))) (Fin (1 / 2))
               = Fin (dyadic (-13421773) (-25))).
  { rewrite fsub_Fin. apply rnd_rounded.
    - rewrite (half_dyadic 26) by lia. rewrite dyadic_sub.
      apply (round_dyadic _ _ 26); float32_side.
    - apply representable_dyadic; float32_side. }
  rewrite E1. apply fadd_exact.
  - rewrite (half_dyadic 24) by lia. rewrite dyadic_add. f_equal.
  - apply representable_dyadic; float32_side.
Qed.

Lemma recentre_half : recentre (Fin (1 / 2)) = Fin (1 / 2).
Proof.
  apply on_grid_recentre; [exact float32_valid_format|].
  apply (float32_on_grid (1 / 2) (2 ^ 23)); [|reflexivity].
  rewrite (half_dyadic 23) by lia. reflexivity.
Qed.

Lemma tenth_moderate : moderate (Fin (dyadic 13421773 (-27))).
Proof.
  apply float32_moderate. apply Rabs_le. unfold dyadic, bpow. simpl. lra.
Qed.

Lemma half_moderate : moderate (Fin (1 / 2)).
Proof. apply float32_moderate. apply Rabs_le. lra. Qed.

Lemma tenth_moved : dyadic 3355443 (-25) <> dyadic 13421773 (-27).
Proof.
  rewrite (dyadic_shift 3355443 (-25) 2) by lia.
  intros H. apply dyadic_eq_inv in H. discriminate.
Qed.

(** C8 as stated fails: rounding changes distances.  In [torch.float32]
    at the angle 0, the angle of the draw 0, the node (0.1, 0.5), 0.1
    being 13421773 / 2 ^ 27, goes to (3355443 / 2 ^ 25, 0.5) and the node
    (0.5, 0.5) stays; their distance 53687091 / 2 ^ 27 becomes
    13421773 / 2 ^ 25. *)
Lemma symmetric_transform_changes_distance :
  drawn_angle 0 = Fin 0 /\
  symmetric_transform [[Fin (dyadic 13421773 (-27)); Fin (1 / 2)]]
    [[Fin (1 / 2); Fin (1 / 2)]] [Fin 0] default_offset
  = [[(Fin (dyadic 3355443 (-25)), Fin (1 / 2)); (Fin (1 / 2), Fin (1 / 2))]] /\
  dist (dyadic 13421773 (-27), 1 / 2) (1 / 2, 1 / 2) = dyadic 53687091 (-27) /\
  dist (dyadic 3355443 (-25), 1 / 2) (1 / 2, 1 / 2) = dyadic 13421773 (-25) /\
  dyadic 13421773 (-25) <> dyadic 53687091 (-27).
Proof.
  pose proof float32_valid_format as V. pose proof float32_valid_trig as VT.
  split; [apply drawn_angle_0|]. split; [|split; [|split]].
  - rewrite symmetric_transform_rows. cbn [zip zip_with fst snd].
    unfold default_offset.
    rewrite (symmetric_node_zero _ _ V VT tenth_moderate half_moderate).
    rewrite (symmetric_node_zero _ _ V VT half_moderate half_moderate).
    rewrite recentre_tenth, recentre_half. reflexivity.
  - rewrite dist_horizontal by (unfold dyadic, bpow; simpl; lra).
    rewrite (half_dyadic 26) by lia. rewrite dyadic_sub. f_equal.
  - rewrite dist_horizontal by (unfold dyadic, bpow; simpl; lra).
    rewrite (half_dyadic 24) by lia. rewrite dyadic_sub. f_equal.
  - rewrite (dyadic_shift 13421773 (-25) 2) by lia.
    intros H. apply dyadic_eq_inv in H. discriminate.
Qed.

Lemma symmetric_augmentation_leading_rows_witness :
  exists (phi : list fval) (out : Tensor) (g' : rng),
    symmetric_angles 2 2 false (fun _ => 2 ^ 22)%Z = Ok (phi, g') /\
    symmetric_augmentation
      [[(Fin 1, Fin 0)]; [(Fin 1, Fin 0)]] 2 false (fun _ => 2 ^ 22)%Z
    = Ok (out, g') /\
    (forall i : nat,
        (Z.of_nat i < 2 / 2)%Z ->
        phi !! i = Some (Fin 0) /\
        out !! i
        = fmap recentre_point <$> [[(Fin 1, Fin 0)]; [(Fin 1, Fin 0)]] !! i /\
        (forall row : list point,
            [[(Fin 1, Fin 0)]; [(Fin 1, Fin 0)]] !! i = Some row ->
            Forall on_grid_point row -> out !! i = Some row)) /\
    symmetric_transform
      (tmap fst [[(Fin 1, Fin 0)]; [(Fin 1, Fin 0)]])
      (tmap snd [[(Fin 1, Fin 0)]; [(Fin 1, Fin 0)]])
      (replicate 2 (Fin 0)) default_offset
    = tmap recentre_point [[(Fin 1, Fin 0)]; [(Fin 1, Fin 0)]] /\
    (forall p : point, on_grid_point p -> recentre_point p = p) /\
    (forall r : R,
        0 <= r <= 1 ->
        exists r' : R,
          recentre (Fin r) = Fin r' /\ Rabs (r' - r) <= 2 * bpow (- 24)).
Proof.
  apply (symmetric_augmentation_leading_rows
           [[(Fin 1, Fin 0)]; [(Fin 1, Fin 0)]] 2 (fun _ => 2 ^ 22)%Z
           float32_valid_format float32_valid_trig).
  - lia.
  - repeat constructor; apply float32_moderate; apply Rabs_le; lra.
Defined.

(** C10 as stated fails: the transform with the angle 0 is not the
    identity map.  In [torch.float32] with [num_augment=1] the only row
    is a leading row, its angle is 0, and its node (0.1, 0.5), 0.1 being
    13421773 / 2 ^ 27, comes back as (3355443 / 2 ^ 25, 0.5). *)
Lemma symmetric_augmentation_changes_leading_row :
  (Z.of_nat 0 < Z.of_nat 1 / 1)%Z /\
  symmetric_augmentation [[(Fin (dyadic 13421773 (-27)), Fin (1 / 2))]] 1
    false zero_draws
  = Ok ([[(Fin (dyadic 3355443 (-25)), Fin (1 / 2))]], zero_draws) /\
  dyadic 3355443 (-25) <> dyadic 13421773 (-27).
Proof.
  pose proof float32_valid_format as V. pose proof float32_valid_trig as VT.
  split; [reflexivity|]. split; [|exact tenth_moved].
  rewrite symmetric_augmentation_reset by lia.
  change (fun i : nat => zero_draws (_ + i)%nat) with zero_draws.
  f_equal. f_equal.
  cbn [length rand fst seq fmap list_fmap].
  generalize (fmul (fmul (Fin (draw (zero_draws 0%nat))) (Fin 4)) (Fin fpi)).
  intros z.
  change (slice_fill [z] (Z.of_nat 1 / 1) (Fin 0)) with [Fin 0].
  rewrite symmetric_transform_tensor. cbn [zip_with fmap list_fmap fst snd].
  unfold default_offset.
  rewrite (symmetric_node_zero _ _ V VT tenth_moderate half_moderate).
  rewrite recentre_tenth, recentre_half. reflexivity.
Qed.

End RecentreExamples.

Section Normalisation.

Context {dtype : Dtype}.

(** ** Normalisation of a constant tensor *)

Lemma fmin2_same (c : R) : fmin2 (Fin c) (Fin c) = Fin c.
Proof. unfold fmin2. destruct (fgt (Fin c) (Fin c)); reflexivity. Qed.

Lemma fmax2_same (c : R) : fmax2 (Fin c) (Fin c) = Fin c.
Proof. unfold fmax2. destruct (fgt (Fin c) (Fin c)); reflexivity. Qed.

Lemma Rsign_zero (r : R) : r = 0 -> Rsign r = Zero.
Proof.
  intros ->. unfold Rsign. destruct (Req_EM_T 0 0) as [_|H]; [reflexivity|].
  contradiction.
Qed.

(** The quotient of a zero range: 0 / 0. *)
Lemma fdiv_zero_range (c : R) :
  fdiv (fsub (Fin c) (Fin c)) (fsub (Fin c) (Fin c)) = NaN.
Proof.
  rewrite fsub_same. cbn [fdiv].
  destruct (Req_EM_T 0 0) as [_|H]; [|contradiction].
  rewrite Rsign_zero by reflexivity. reflexivity.
Qed.

Lemma foldl_constant (op : fval -> fval -> fval) (c : R) (vs : list fval) :
  op (Fin c) (Fin c) = Fin c ->
  Forall (fun v => v = Fin c) vs -> foldl op (Fin c) vs = Fin c.
Proof.
  intros Hop. induction 1 as [|v vs -> _ IH]; [reflexivity|].
  simpl. rewrite Hop. exact IH.
Qed.

Lemma elements_constant (x : Tensor) (c : R) :
  Forall (Forall (fun p : point => p = (Fin c, Fin c))) x ->
  Forall (fun v => v = Fin c) (elements x).
Proof.
  unfold elements. induction 1 as [|row x Hrow _ IH]; [constructor|].
  cbn [fmap list_fmap concat]. apply Forall_app. split; [|exact IH].
  clear IH. induction Hrow as [|p row -> _ IH]; [constructor|].
  cbn [fmap list_fmap concat fst snd]. repeat constructor. exact IH.
Qed.

Lemma reduce_all_constant (op : fval -> fval -> fval) (x : Tensor) (c : R) :
  op (Fin c) (Fin c) = Fin c ->
  elements x <> [] ->
  Forall (Forall (fun p : point => p = (Fin c, Fin c))) x ->
  reduce_all op x = Ok (Fin c).
Proof.
  intros Hop Hne Hc. apply elements_constant in Hc. unfold reduce_all.
  destruct (elements x) as [|v vs]; [contradiction|].
  apply Forall_cons in Hc as [-> Hvs].
  rewrite foldl_constant by assumption. reflexivity.
Qed.

Lemma min_max_normalize_zero_range (x : Tensor) (c : R) :
  elements x <> [] ->
  Forall (Forall (fun p : point => p = (Fin c, Fin c))) x ->
  min_max_normalize x = Ok (tmap (fun _ => (NaN, NaN)) x).
Proof.
  intros Hne Hc. unfold min_max_normalize, tensor_min, tensor_max.
  rewrite !(reduce_all_constant _ x c)
    by (assumption || apply fmin2_same || apply fmax2_same).
  cbn [mbind result_bind]. f_equal. unfold tmap.
  apply list_fmap_ext. intros i row Hrow.
  apply list_fmap_ext. intros j p Hp.
  assert (p = (Fin c, Fin c)) as ->.
  { eapply Forall_lookup_1 in Hc; [|exact Hrow].
    eapply Forall_lookup_1 in Hc; [|exact Hp]. exact Hc. }
  cbn [fst snd]. rewrite fdiv_zero_range. reflexivity.
Qed.

(** C6, as amended: [min_max_normalize] has no guard.  On a tensor with at
    least one entry whose entries are all the same finite number, the
    minimum and the maximum are that number, the divisor [max - min] is 0,
    the division is carried out all the same, and every entry of the
    result is the quotient 0 / 0, NaN. *)
Theorem min_max_normalize_constant (x : Tensor) (c : R) :
  elements x <> [] ->
  Forall (Forall (fun p : point => p = (Fin c, Fin c))) x ->
  tensor_min x = Ok (Fin c) /\
  tensor_max x = Ok (Fin c) /\
  fsub (Fin c) (Fin c) = Fin 0 /\
  min_max_normalize x = Ok (tmap (fun _ => (NaN, NaN)) x).
Proof.
  intros Hne Hc.
  split; [apply (reduce_all_constant _ x c); [apply fmin2_same|exact Hne|exact Hc]|].
  split; [apply (reduce_all_constant _ x c); [apply fmax2_same|exact Hne|exact Hc]|].
  split; [apply fsub_same|].
  apply (min_max_normalize_zero_range x c); assumption.
Qed.

Lemma fmin2_le (a b : R) : a <= b -> fmin2 (Fin a) (Fin b) = Fin a.
Proof.
  intros H. unfold fmin2. rewrite fgt_Fin.
  destruct (Rlt_dec b a); [lra|reflexivity].
Qed.

Lemma fmin2_gt (a b : R) : b < a -> fmin2 (Fin a) (Fin b) = Fin b.
Proof.
  intros H. unfold fmin2. rewrite fgt_Fin.
  destruct (Rlt_dec b a); [reflexivity|lra].
Qed.

Lemma fmax2_ge (a b : R) : b <= a -> fmax2 (Fin a) (Fin b) = Fin a.
Proof.
  intros H. unfold fmax2. rewrite fgt_Fin.
  destruct (Rlt_dec a b); [lra|reflexivity].
Qed.

Lemma fmax2_lt (a b : R) : a < b -> fmax2 (Fin a) (Fin b) = Fin b.
Proof.
  intros H. unfold fmax2. rewrite fgt_Fin.
  destruct (Rlt_dec a b); [reflexivity|lra].
Qed.


End Normalisation.

(** Minima and maxima of concrete reals. *)
Ltac reduce_concrete :=
  repeat first [ rewrite fmin2_le by lra | rewrite fmin2_gt by lra
               | rewrite fmax2_ge by lra | rewrite fmax2_lt by lra ].

Section CallLoop.

Context {dtype : Dtype}.

(** ** The loop of [__call__] *)

Lemma setitem2_getitem2 (t t' : Tensor) (i j : nat) (p : point) :
  setitem2 t i j p = Ok t' -> getitem2 t' i j = Ok p.
Proof.
  unfold setitem2, getitem2. intros H.
  destruct (t !! i) as [row|] eqn:Hrow; [|discriminate].
  destruct (row !! j) as [q|] eqn:Hq; [|discriminate].
  injection H as <-.
  rewrite list_lookup_insert_eq by (eapply lookup_lt_Some; exact Hrow).
  rewrite list_lookup_insert_eq by (eapply lookup_lt_Some; exact Hq).
  reflexivity.
Qed.

Lemma td_setitem_Ok (td td' : TensorDict) (key : string) (t : Tensor) :
  td_setitem td key t = Ok td' ->
  length t = batch_size td /\
  td' = {| batch_size := batch_size td; entries := <[key := t]> (entries td) |}.
Proof.
  unfold td_setitem. intros H.
  destruct (decide (length t = batch_size td)) as [E|_]; [|discriminate].
  injection H as <-. split; [exact E|reflexivity].
Qed.

(** A successful pass of the loop body, step by step. *)
Lemma augment_feat_Ok (self : StateAugmentation) (td td_aug td_aug' : TensorDict)
    (g g' : rng) (feat : string) :
  augment_feat self td (td_aug, g) feat = Ok (td_aug', g') ->
  exists (t aug aug_n aug_r : Tensor) (p : point),
    entries td_aug !! feat = Some t /\
    getitem2 t (batch_size td) 0 = Ok p /\
    apply_augmentation (augmentation_of self) t (num_augment self) g
      = Ok (aug, g') /\
    (if normalize self then min_max_normalize aug else Ok aug) = Ok aug_n /\
    (if first_aug_identity self then setitem2 aug_n (batch_size td) 0 p
     else Ok aug_n) = Ok aug_r /\
    length aug_r = batch_size td_aug /\
    td_aug' = {| batch_size := batch_size td_aug;
                 entries := <[feat := aug_r]> (entries td_aug) |}.
Proof.
  unfold augment_feat, td_getitem. intros H.
  destruct (entries td_aug !! feat) as [t|] eqn:Ht; [|discriminate].
  cbn [mbind result_bind] in H.
  destruct (getitem2 t (batch_size td) 0) as [p|] eqn:Hp; [|discriminate].
  cbn [mbind result_bind] in H.
  destruct (apply_augmentation _ t _ g) as [[aug g1]|] eqn:Haug; [|discriminate].
  cbn [mbind result_bind] in H.
  destruct (if normalize self then _ else _) as [aug_n|] eqn:Hn; [|discriminate].
  cbn [mbind result_bind] in H.
  destruct (if first_aug_identity self then _ else _) as [aug_r|] eqn:Hr;
    [|discriminate].
  cbn [mbind result_bind] in H.
  destruct (td_setitem td_aug feat aug_r) as [td1|] eqn:Hset; [|discriminate].
  cbn [mbind result_bind] in H.
  injection H as <- <-.
  apply td_setitem_Ok in Hset as [Hlen ->].
  exists t, aug, aug_n, aug_r, p. repeat split; assumption.
Qed.

Lemma augment_feat_eval (self : StateAugmentation) (td td_aug : TensorDict)
    (g g' : rng) (feat : string) (t aug aug_n aug_r : Tensor) (p : point) :
  entries td_aug !! feat = Some t ->
  getitem2 t (batch_size td) 0 = Ok p ->
  apply_augmentation (augmentation_of self) t (num_augment self) g
    = Ok (aug, g') ->
  (if normalize self then min_max_normalize aug else Ok aug) = Ok aug_n ->
  (if first_aug_identity self then setitem2 aug_n (batch_size td) 0 p
   else Ok aug_n) = Ok aug_r ->
  length aug_r = batch_size td_aug ->
  augment_feat self td (td_aug, g) feat
  = Ok ({| batch_size := batch_size td_aug;
           entries := <[feat := aug_r]> (entries td_aug) |}, g').
Proof.
  intros Ht Hp Haug Hn Hr Hlen. unfold augment_feat, td_getitem.
  rewrite Ht. cbn [mbind result_bind].
  rewrite Hp. cbn [mbind result_bind].
  rewrite Haug. cbn [mbind result_bind].
  rewrite Hn. cbn [mbind result_bind].
  rewrite Hr. cbn [mbind result_bind].
  unfold td_setitem. destruct (decide (length aug_r = batch_size td_aug));
    [reflexivity|contradiction].
Qed.

(** The write-back touches the row [batch_size td] only: every other row
    of the stored feature, the rows of replica 0 among them, is the row
    that the augmentation and the normalisation produced. *)
Lemma augment_feat_other_rows (self : StateAugmentation)
    (td td_aug td_aug' : TensorDict) (g g' : rng) (feat : string) :
  augment_feat self td (td_aug, g) feat = Ok (td_aug', g') ->
  exists t aug aug_n aug_r : Tensor,
    entries td_aug !! feat = Some t /\
    apply_augmentation (augmentation_of self) t (num_augment self) g
      = Ok (aug, g') /\
    (if normalize self then min_max_normalize aug else Ok aug) = Ok aug_n /\
    entries td_aug' !! feat = Some aug_r /\
    forall i : nat, i <> batch_size td -> aug_r !! i = aug_n !! i.
Proof.
  intros H.
  apply augment_feat_Ok in H
    as (t & aug & aug_n & aug_r & p & Ht & _ & Haug & Hn & Hr & _ & ->).
  exists t, aug, aug_n, aug_r.
  split; [exact Ht|]. split; [exact Haug|]. split; [exact Hn|].
  split; [cbn [entries]; apply lookup_insert_eq|].
  intros i Hi. destruct (first_aug_identity self).
  - unfold setitem2 in Hr.
    destruct (aug_n !! batch_size td) as [row|]; [|discriminate].
    destruct (row !! 0%nat); [|discriminate].
    injection Hr as <-. apply list_lookup_insert_ne. congruence.
  - injection Hr as <-. reflexivity.
Qed.

Lemma augment_feat_identity_slot (self : StateAugmentation)
    (td td_aug td_aug' : TensorDict) (g g' : rng) (feat : string) :
  first_aug_identity self = true ->
  augment_feat self td (td_aug, g) feat = Ok (td_aug', g') ->
  (exists p, identity_slot td_aug (batch_size td) feat = Ok p) /\
  forall f, identity_slot td_aug' (batch_size td) f
            = identity_slot td_aug (batch_size td) f.
Proof.
  intros Hid H.
  apply augment_feat_Ok in H
    as (t & aug & aug_n & aug_r & p & Ht & Hp & _ & _ & Hr & _ & ->).
  rewrite Hid in Hr. apply setitem2_getitem2 in Hr.
  assert (Hslot : identity_slot td_aug (batch_size td) feat = Ok p).
  { unfold identity_slot, td_getitem. rewrite Ht. exact Hp. }
  split; [exists p; exact Hslot|].
  intros f. destruct (decide (f = feat)) as [->|Hne].
  - rewrite Hslot. unfold identity_slot, td_getitem. cbn [entries].
    rewrite lookup_insert_eq. exact Hr.
  - unfold identity_slot, td_getitem. cbn [entries].
    rewrite lookup_insert_ne by congruence. reflexivity.
Qed.

Lemma for_each_identity_slot (self : StateAugmentation) (td : TensorDict)
    (l : list string) :
  first_aug_identity self = true ->
  forall (td_aug out : TensorDict) (g g' : rng),
    for_each (augment_feat self td) (td_aug, g) l = Ok (out, g') ->
    (forall f, identity_slot out (batch_size td) f
               = identity_slot td_aug (batch_size td) f) /\
    (forall feat, feat ∈ l ->
                  exists p, identity_slot td_aug (batch_size td) feat = Ok p).
Proof.
  intros Hid. induction l as [|feat l IH]; intros td_aug out g g' H.
  - injection H as <- <-. split; [reflexivity|].
    intros feat Hin. apply elem_of_nil in Hin. contradiction.
  - cbn [for_each] in H.
    destruct (augment_feat self td (td_aug, g) feat) as [[td1 g1]|] eqn:Hstep;
      [|discriminate].
    cbn [mbind result_bind] in H.
    apply (augment_feat_identity_slot self td td_aug td1 g g1 feat Hid) in Hstep
      as [Hp Hsame].
    apply IH in H as [Hout Hl].
    split.
    + intros f. rewrite Hout. apply Hsame.
    + intros f Hin. apply elem_of_cons in Hin as [->|Hin]; [exact Hp|].
      destruct (Hl f Hin) as [p Hf]. exists p. rewrite <- Hsame. exact Hf.
Qed.

(** What the saved entry is: with a batch of [batch_size td] rows, row
    [batch_size td] of the tiled batch is the second copy of instance 0. *)
Lemma batchify_identity_slot (td : TensorDict) (K : Z) (feat : string)
    (t : Tensor) (p : point) :
  entries td !! feat = Some t ->
  length t = batch_size td ->
  identity_slot (batchify td K) (batch_size td) feat = Ok p ->
  (2 <= K)%Z /\ getitem2 t 0 0 = Ok p.
Proof.
  intros Ht Hlen. unfold identity_slot, td_getitem, batchify.
  destruct (decide (0 < K)%Z) as [HK|HK]; cbn [entries].
  - rewrite lookup_fmap, Ht. cbn [fmap option_fmap option_map mbind result_bind].
    unfold getitem2.
    destruct (tile (Z.to_nat K) t !! batch_size td) as [row|] eqn:Hrow;
      [|discriminate].
    assert (Hlt : (batch_size td < Z.to_nat K * length t)%nat).
    { apply lookup_lt_Some in Hrow. rewrite tile_length in Hrow. exact Hrow. }
    assert (HK2 : (2 <= K)%Z) by nia.
    assert (Hpos : (0 < length t)%nat) by nia.
    pose proof (tile_lookup (Z.to_nat K) t 1 0 ltac:(lia) Hpos) as Htile.
    replace (1 * length t + 0)%nat with (batch_size td) in Htile by lia.
    rewrite Htile in Hrow. rewrite Hrow. intros H. split; [exact HK2|exact H].
  - rewrite Ht. cbn [mbind result_bind]. unfold getitem2.
    rewrite (lookup_ge_None_2 t (batch_size td)) by lia. discriminate.
Qed.

(** ** [__call__] on concrete batches *)

Lemma batchify_locs_td (t : Tensor) (K : Z) :
  (0 < K)%Z ->
  batchify (locs_td t) K
  = {| batch_size := Z.to_nat K * length t;
       entries := {[ "locs"%string := tile (Z.to_nat K) t ]} |}.
Proof.
  intros HK. unfold batchify, locs_td. cbn [batch_size entries].
  destruct (decide (0 < K)%Z) as [_|H]; [|contradiction].
  rewrite map_fmap_singleton. reflexivity.
Qed.

(** With [num_augment=1] the augmented batch is the batch itself, it has
    no row [batch_size td], and reading the entry to save raises. *)
Lemma call_without_replica_raises (self : StateAugmentation) (td : TensorDict)
    (g : rng) (feat : string) (rest : list string) (t : Tensor) :
  feats self = feat :: rest ->
  num_augment self = 1%Z ->
  entries td !! feat = Some t ->
  length t = batch_size td ->
  StateAugmentation_call self td g = Err IndexError.
Proof.
  intros Hfeats HK Ht Hlen. unfold StateAugmentation_call. rewrite Hfeats, HK.
  cbn [for_each]. unfold augment_feat, td_getitem, batchify.
  destruct (decide (0 < 1)%Z) as [_|Hneg]; [|lia]. cbn [entries].
  rewrite lookup_fmap, Ht. cbn [fmap option_fmap option_map mbind result_bind].
  unfold tile, getitem2. change (Z.to_nat 1) with 1%nat.
  cbn [replicate concat]. rewrite app_nil_r.
  rewrite (lookup_ge_None_2 t (batch_size td)) by lia. reflexivity.
Qed.

Lemma fmap_const_seq {A : Type} (c : A) (s n : nat) :
  (fun _ => c) <$> seq s n = replicate n c.
Proof.
  revert s. induction n as [|n IH]; intros s; [reflexivity|].
  cbn [seq fmap list_fmap replicate]. f_equal. apply IH.
Qed.

Lemma slice_fill_replicate {A : Type} (m : nat) (n : Z) (v : A) :
  slice_fill (replicate m v) n v = replicate m v.
Proof.
  unfold slice_fill. rewrite length_replicate, drop_replicate.
  rewrite <- replicate_add. f_equal.
  unfold slice_stop. destruct (decide (n < 0)%Z); lia.
Qed.


(** When every draw is 0, every angle is 0 and the augmentation recentres
    its input. *)
Lemma symmetric_augmentation_zero_draws (xy : Tensor) (K : Z) :
  valid_format -> valid_trig ->
  K <> 0%Z ->
  Forall (Forall moderate_point) xy ->
  symmetric_augmentation xy K false zero_draws
  = Ok (tmap recentre_point xy, zero_draws).
Proof.
  intros V VT HK Hfin. rewrite symmetric_augmentation_reset by exact HK.
  change (fun i : nat => zero_draws (_ + i)%nat) with zero_draws.
  f_equal. f_equal. cbn [rand fst]. unfold zero_draws.
  rewrite fmap_const_seq, fmap_replicate.
  fold (drawn_angle 0). rewrite drawn_angle_0.
  rewrite slice_fill_replicate.
  apply symmetric_transform_zero; assumption.
Qed.

Lemma recentre_0 : valid_format -> recentre (Fin 0) = Fin 0.
Proof.
  intros V. apply on_grid_recentre; [exact V|].
  exists 0%Z. pose proof (valid_format_pow V). split; [lia|].
  rewrite dyadic_0. reflexivity.
Qed.

Lemma recentre_1 : valid_format -> recentre (Fin 1) = Fin 1.
Proof.
  intros V. apply on_grid_recentre; [exact V|]. pose proof V as [Hp _].
  exists (2 ^ prec)%Z. pose proof (valid_format_pow V). split; [lia|].
  rewrite bpow_prec_inv by lia. reflexivity.
Qed.

Lemma recentre_2 : valid_format -> recentre (Fin 2) = Fin 2.
Proof.
  intros V. unfold recentre.
  rewrite (fsub_exact 2 (1 / 2) (3 / 2)); [|lra|apply representable_3_2, V].
  apply fadd_exact; [lra|apply representable_2, V].
Qed.

Lemma small_moderate (r : R) : valid_format -> Rabs r <= 2 -> moderate (Fin r).
Proof.
  intros [Hp He] H. exists r. split; [reflexivity|].
  assert (2 <= bpow (emax - 2)); [|lra].
  rewrite <- bpow_1. apply bpow_le. lia.
Qed.

Lemma min_max_normalize_two_rows :
  valid_format ->
  min_max_normalize
    [[(Fin 2, Fin 2); (Fin 0, Fin 0)]; [(Fin 2, Fin 2); (Fin 0, Fin 0)]]
  = Ok [[(Fin 1, Fin 1); (Fin 0, Fin 0)]; [(Fin 1, Fin 1); (Fin 0, Fin 0)]].
Proof.
  intros V.
  unfold min_max_normalize, tensor_min, tensor_max, reduce_all, elements, tmap.
  cbn [fmap list_fmap concat app foldl fst snd].
  reduce_concrete.
  cbn [mbind result_bind fmap list_fmap fst snd].
  rewrite fsub_same.
  rewrite (fsub_0_r 2) by (apply representable_2, V).
  rewrite (fdiv_exact 2 2 1) by (try lra; apply representable_1, V).
  rewrite (fdiv_exact 0 2 0) by (try lra; apply representable_0, V).
  reflexivity.
Qed.

Lemma call_locs_td (K : Z) (a : augmentation) (n : bool)
    (t aug aug_n aug_r : Tensor) (p : point) (g g' : rng) :
  (0 < K)%Z ->
  getitem2 (tile (Z.to_nat K) t) (length t) 0 = Ok p ->
  apply_augmentation a (tile (Z.to_nat K) t) K g = Ok (aug, g') ->
  (if n then min_max_normalize aug else Ok aug) = Ok aug_n ->
  setitem2 aug_n (length t) 0 p = Ok aug_r ->
  length aug_r = (Z.to_nat K * length t)%nat ->
  StateAugmentation_call (configured K a n) (locs_td t) g
  = Ok ({| batch_size := Z.to_nat K * length t;
           entries := <["locs"%string := aug_r]>
                        {[ "locs"%string := tile (Z.to_nat K) t ]} |}, g').
Proof.
  intros HK Hp Haug Hn Hr Hlen.
  unfold StateAugmentation_call. cbn [feats num_augment configured for_each].
  rewrite batchify_locs_td by exact HK.
  erewrite augment_feat_eval; cycle 1.
  - cbn [entries]. apply lookup_singleton_eq.
  - exact Hp.
  - exact Haug.
  - exact Hn.
  - exact Hr.
  - exact Hlen.
  - reflexivity.
Qed.


Lemma call_one_minus :
  valid_format ->
  StateAugmentation_call (configured 2 one_minus false)
    (locs_td [[(Fin 0, Fin 0)]]) zero_draws
  = Ok ({| batch_size := 2;
           entries := <["locs"%string :=
                          [[(Fin 1, Fin 1)]; [(Fin 0, Fin 0)]]]>
                        {[ "locs"%string :=
                             [[(Fin 0, Fin 0)]; [(Fin 0, Fin 0)]] ]} |},
        zero_draws).
Proof.
  intros V.
  apply (call_locs_td 2 one_minus false [[(Fin 0, Fin 0)]]
           [[(Fin 1, Fin 1)]; [(Fin 1, Fin 1)]]
           [[(Fin 1, Fin 1)]; [(Fin 1, Fin 1)]]
           [[(Fin 1, Fin 1)]; [(Fin 0, Fin 0)]]
           (Fin 0, Fin 0) zero_draws zero_draws); try reflexivity.
  cbn [apply_augmentation one_minus]. unfold tmap, tile.
  change (Z.to_nat 2) with 2%nat.
  cbn [replicate concat app fmap list_fmap fst snd].
  rewrite (fsub_0_r 1) by (apply representable_1, V). reflexivity.
Qed.

Lemma call_symmetric_normalize :
  valid_format -> valid_trig ->
  StateAugmentation_call (configured 2 symmetric_fn true)
    (locs_td [[(Fin 2, Fin 2); (Fin 0, Fin 0)]]) zero_draws
  = Ok ({| batch_size := 2;
           entries := <["locs"%string :=
                          [[(Fin 1, Fin 1); (Fin 0, Fin 0)];
                           [(Fin 2, Fin 2); (Fin 0, Fin 0)]]]>
                        {[ "locs"%string :=
                             [[(Fin 2, Fin 2); (Fin 0, Fin 0)];
                              [(Fin 2, Fin 2); (Fin 0, Fin 0)]] ]} |},
        zero_draws).
Proof.
  intros V VT.
  assert (M2 : moderate (Fin 2)) by (apply small_moderate; [exact V|apply Rabs_le; lra]).
  assert (M0 : moderate (Fin 0)) by (apply small_moderate; [exact V|apply Rabs_le; lra]).
  apply (call_locs_td 2 symmetric_fn true
           [[(Fin 2, Fin 2); (Fin 0, Fin 0)]]
           [[(Fin 2, Fin 2); (Fin 0, Fin 0)];
            [(Fin 2, Fin 2); (Fin 0, Fin 0)]]
           [[(Fin 1, Fin 1); (Fin 0, Fin 0)];
            [(Fin 1, Fin 1); (Fin 0, Fin 0)]]
           [[(Fin 1, Fin 1); (Fin 0, Fin 0)];
            [(Fin 2, Fin 2); (Fin 0, Fin 0)]]
           (Fin 2, Fin 2) zero_draws zero_draws); try reflexivity.
  - cbn [apply_augmentation].
    etransitivity;
      [apply (symmetric_augmentation_zero_draws
                [[(Fin 2, Fin 2); (Fin 0, Fin 0)];
                 [(Fin 2, Fin 2); (Fin 0, Fin 0)]] 2 V VT);
       [lia|repeat constructor; assumption]|].
    unfold tmap, recentre_point. cbn [fmap list_fmap fst snd].
    rewrite (recentre_2 V), (recentre_0 V). reflexivity.
  - apply min_max_normalize_two_rows, V.
Qed.

Lemma call_symmetric_constant :
  valid_format -> valid_trig ->
  StateAugmentation_call (configured 2 symmetric_fn true)
    (locs_td [[(Fin 1, Fin 1)]]) zero_draws
  = Ok ({| batch_size := 2;
           entries := <["locs"%string := [[(NaN, NaN)]; [(Fin 1, Fin 1)]]]>
                        {[ "locs"%string :=
                             [[(Fin 1, Fin 1)]; [(Fin 1, Fin 1)]] ]} |},
        zero_draws).
Proof.
  intros V VT.
  assert (M1 : moderate (Fin 1)) by (apply small_moderate; [exact V|apply Rabs_le; lra]).
  apply (call_locs_td 2 symmetric_fn true [[(Fin 1, Fin 1)]]
           [[(Fin 1, Fin 1)]; [(Fin 1, Fin 1)]]
           [[(NaN, NaN)]; [(NaN, NaN)]]
           [[(NaN, NaN)]; [(Fin 1, Fin 1)]]
           (Fin 1, Fin 1) zero_draws zero_draws); try reflexivity.
  - cbn [apply_augmentation].
    etransitivity;
      [apply (symmetric_augmentation_zero_draws
                [[(Fin 1, Fin 1)]; [(Fin 1, Fin 1)]] 2 V VT);
       [lia|repeat constructor; assumption]|].
    unfold tmap, recentre_point. cbn [fmap list_fmap fst snd].
    rewrite (recentre_1 V). reflexivity.
  - apply (min_max_normalize_zero_range
             [[(Fin 1, Fin 1)]; [(Fin 1, Fin 1)]] 1).
    + discriminate.
    + repeat constructor.
Qed.

(** The pass of the loop that leaves a feature of the list in the
    result: the last one for it, and the only one when the list has no
    duplicates. *)
Lemma for_each_pass (self : StateAugmentation) (td : TensorDict)
    (l : list string) :
  forall (td_aug out : TensorDict) (g g' : rng) (f : string),
    for_each (augment_feat self td) (td_aug, g) l = Ok (out, g') ->
    f ∈ l ->
    exists (td0 td1 : TensorDict) (g0 g1 : rng),
      augment_feat self td (td0, g0) f = Ok (td1, g1) /\
      entries out !! f = entries td1 !! f /\
      (NoDup l -> entries td0 !! f = entries td_aug !! f).
Proof.
  induction l as [|feat l IH]; intros td_aug out g g' f H Hf.
  - apply elem_of_nil in Hf. contradiction.
  - cbn [for_each] in H.
    destruct (augment_feat self td (td_aug, g) feat) as [[tdA gA]|] eqn:Hstep;
      [|discriminate].
    cbn [mbind result_bind] in H.
    destruct (decide (f ∈ l)) as [Hin|Hnin].
    + destruct (IH tdA out gA g' f H Hin)
        as (td0 & td1 & g0 & g1 & Hrun & Hout & Hnd).
      exists td0, td1, g0, g1. split; [exact Hrun|]. split; [exact Hout|].
      intros Hdup. apply NoDup_cons in Hdup as [Hfeat Hdup].
      rewrite (Hnd Hdup).
      apply augment_feat_Ok in Hstep
        as (t & aug & aug_n & aug_r & p & _ & _ & _ & _ & _ & _ & ->).
      cbn [entries]. apply lookup_insert_ne. intros ->. contradiction.
    + apply elem_of_cons in Hf as [->|Hf]; [|contradiction].
      exists td_aug, tdA, g, gA. split; [exact Hstep|]. split; [|reflexivity].
      clear IH Hstep. revert tdA gA H.
      induction l as [|h l IHl]; intros tdA gA H.
      * injection H as <- _. reflexivity.
      * cbn [for_each] in H.
        destruct (augment_feat self td (tdA, gA) h) as [[tdB gB]|] eqn:Hstep;
          [|discriminate].
        cbn [mbind result_bind] in H.
        apply not_elem_of_cons in Hnin as [Hne Hnin].
        rewrite (IHl Hnin tdB gB H).
        apply augment_feat_Ok in Hstep
          as (t & aug & aug_n & aug_r & p & _ & _ & _ & _ & _ & _ & ->).
        cbn [entries]. apply lookup_insert_ne. congruence.
Qed.

(** C7: what [__call__] does with [normalize] and [first_aug_identity]
    both set.  For every feature of [feats], a call that returns has
    augmented the feature, then normalised the augmented tensor, then
    written the entry saved before the augmentation back: in this order.
    But the entry written back is the single node [[batch, 0]], node 0 of
    the first row of replica 1; it holds the value of the original batch.
    Every other row of the result, the [batch] rows of replica 0 among
    them, holds the normalised values.  So the identity slice does not
    hold the original values: with the symmetric augmentation, two
    augmentations, all draws 0 and the instance with the nodes (2, 2) and
    (0, 0), replica 0 of the result is the normalised (1, 1), (0, 0). *)
Theorem call_normalizes_before_restoring (self : StateAugmentation)
    (td out : TensorDict) (g g' : rng) (feat : string) :
  normalize self = true ->
  first_aug_identity self = true ->
  StateAugmentation_call self td g = Ok (out, g') ->
  feat ∈ feats self ->
  exists (t aug aug_n aug_r : Tensor) (p : point) (g0 g1 : rng),
    (NoDup (feats self) ->
     entries (batchify td (num_augment self)) !! feat = Some t) /\
    apply_augmentation (augmentation_of self) t (num_augment self) g0
    = Ok (aug, g1) /\
    min_max_normalize aug = Ok aug_n /\
    setitem2 aug_n (batch_size td) 0 p = Ok aug_r /\
    entries out !! feat = Some aug_r /\
    identity_slot (batchify td (num_augment self)) (batch_size td) feat
    = Ok p /\
    (forall t0 : Tensor,
        entries td !! feat = Some t0 -> length t0 = batch_size td ->
        getitem2 t0 0 0 = Ok p) /\
    getitem2 aug_r (batch_size td) 0 = Ok p /\
    (forall i : nat, i <> batch_size td -> aug_r !! i = aug_n !! i) /\
    take (batch_size td) aug_r = take (batch_size td) aug_n.
Proof.
  intros Hnorm Hid Hcall Hin. unfold StateAugmentation_call in Hcall.
  destruct (for_each_pass self td (feats self) _ _ _ _ feat Hcall Hin)
    as (td0 & td1 & g0 & g1 & Hrun & Hout & Hnd).
  apply (for_each_identity_slot self td (feats self) Hid) in Hcall
    as [Hslot _].
  apply augment_feat_Ok in Hrun
    as (t & aug & aug_n & aug_r & p & Ht & Hp & Haug & Hn & Hr & _ & ->).
  rewrite Hnorm in Hn. rewrite Hid in Hr.
  cbn [entries] in Hout. rewrite lookup_insert_eq in Hout.
  pose proof (setitem2_getitem2 _ _ _ _ _ Hr) as Hget.
  assert (Hp0 : identity_slot (batchify td (num_augment self)) (batch_size td)
                  feat = Ok p).
  { rewrite <- Hslot. unfold identity_slot, td_getitem. rewrite Hout.
    exact Hget. }
  assert (Hrows : forall i : nat, i <> batch_size td -> aug_r !! i = aug_n !! i).
  { intros i Hi. unfold setitem2 in Hr.
    destruct (aug_n !! batch_size td) as [row|]; [|discriminate].
    destruct (row !! 0%nat); [|discriminate].
    injection Hr as <-. apply list_lookup_insert_ne. congruence. }
  exists t, aug, aug_n, aug_r, p, g0, g1.
  split; [intros Hdup; rewrite <- (Hnd Hdup); exact Ht|].
  split; [exact Haug|]. split; [exact Hn|]. split; [exact Hr|].
  split; [exact Hout|]. split; [exact Hp0|].
  split; [intros t0 Ht0 Hlen; eapply batchify_identity_slot; eassumption|].
  split; [exact Hget|]. split; [exact Hrows|].
  apply list_eq. intros i.
  destruct (decide (i < batch_size td)%nat) as [Hi|Hi].
  - rewrite !lookup_take_lt by exact Hi. apply Hrows. lia.
  - rewrite !lookup_take_ge by lia. reflexivity.
Qed.

End CallLoop.

Section CallExamples.

#[local] Existing Instance float32.

Lemma min_max_normalize_constant_witness :
  tensor_min [[(Fin 3, Fin 3); (Fin 3, Fin 3)]] = Ok (Fin 3) /\
  tensor_max [[(Fin 3, Fin 3); (Fin 3, Fin 3)]] = Ok (Fin 3) /\
  fsub (Fin 3) (Fin 3) = Fin 0 /\
  min_max_normalize [[(Fin 3, Fin 3); (Fin 3, Fin 3)]]
  = Ok [[(NaN, NaN); (NaN, NaN)]].
Proof.
  apply (min_max_normalize_constant [[(Fin 3, Fin 3); (Fin 3, Fin 3)]] 3).
  - discriminate.
  - repeat constructor.
Defined.

(** C1: the entry written back is the node 0 of row [batch_size td], the
    first row of the second replica, and nothing else.  In
    [torch.float32], with the callable [lambda xy, n: 1 - xy], two
    augmentations and the one instance with the node (0, 0), replica 0 of
    the result is the transformed node (1, 1), not the original; with the
    symmetric transform, [normalize=True], two augmentations, all draws 0
    and the instance with the nodes (2, 2) and (0, 0), replica 0 of the
    result is the normalised instance (1, 1), (0, 0), not the original;
    and with [num_augment=1] the call raises [IndexError], whatever the
    draws. *)
Theorem call_keeps_no_identity_replica :
  (exists out : TensorDict,
      StateAugmentation_init 2 (by_callable one_minus) true false None
        = Ok (configured 2 one_minus false) /\
      StateAugmentation_call (configured 2 one_minus false)
        (locs_td [[(Fin 0, Fin 0)]]) zero_draws = Ok (out, zero_draws) /\
      entries out !! "locs"%string
        = Some [[(Fin 1, Fin 1)]; [(Fin 0, Fin 0)]] /\
      [(Fin 1, Fin 1)] <> [(Fin 0, Fin 0)]) /\
  (exists out : TensorDict,
      StateAugmentation_init 2 (by_name "symmetric") true true None
        = Ok (configured 2 symmetric_fn true) /\
      StateAugmentation_call (configured 2 symmetric_fn true)
        (locs_td [[(Fin 2, Fin 2); (Fin 0, Fin 0)]]) zero_draws
        = Ok (out, zero_draws) /\
      entries out !! "locs"%string
        = Some [[(Fin 1, Fin 1); (Fin 0, Fin 0)];
                [(Fin 2, Fin 2); (Fin 0, Fin 0)]] /\
      [(Fin 1, Fin 1); (Fin 0, Fin 0)] <> [(Fin 2, Fin 2); (Fin 0, Fin 0)]) /\
  (forall g : rng,
      StateAugmentation_init 1 (by_name "symmetric") true false None
        = Ok (configured 1 symmetric_fn false) /\
      StateAugmentation_call (configured 1 symmetric_fn false)
        (locs_td [[(Fin 0, Fin 0)]]) g = Err IndexError).
Proof.
  pose proof float32_valid_format as V. pose proof float32_valid_trig as VT.
  split; [|split].
  - eexists. split; [reflexivity|]. split; [apply call_one_minus, V|].
    split; [cbn [entries]; apply lookup_insert_eq|].
    intros H. injection H as H _. lra.
  - eexists. split; [reflexivity|].
    split; [apply call_symmetric_normalize; assumption|].
    split; [cbn [entries]; apply lookup_insert_eq|].
    intros H. injection H as H _. lra.
  - intros g. split; [reflexivity|].
    apply (call_without_replica_raises _ _ g "locs" [] [[(Fin 0, Fin 0)]]);
      reflexivity.
Qed.

Lemma call_normalizes_before_restoring_witness :
  exists (t aug aug_n aug_r : Tensor) (p : point) (g0 g1 : rng),
    (NoDup ["locs"%string] ->
     entries (batchify (locs_td [[(Fin 2, Fin 2); (Fin 0, Fin 0)]]) 2)
       !! "locs"%string = Some t) /\
    apply_augmentation symmetric_fn t 2 g0 = Ok (aug, g1) /\
    min_max_normalize aug = Ok aug_n /\
    setitem2 aug_n 1 0 p = Ok aug_r /\
    entries
      {| batch_size := 2;
         entries := <["locs"%string :=
                        [[(Fin 1, Fin 1); (Fin 0, Fin 0)];
                         [(Fin 2, Fin 2); (Fin 0, Fin 0)]]]>
                      {[ "locs"%string :=
                           [[(Fin 2, Fin 2); (Fin 0, Fin 0)];
                            [(Fin 2, Fin 2); (Fin 0, Fin 0)]] ]} |}
      !! "locs"%string = Some aug_r /\
    identity_slot (batchify (locs_td [[(Fin 2, Fin 2); (Fin 0, Fin 0)]]) 2)
      1 "locs" = Ok p /\
    (forall t0 : Tensor,
        entries (locs_td [[(Fin 2, Fin 2); (Fin 0, Fin 0)]]) !! "locs"%string
        = Some t0 ->
        length t0 = 1%nat -> getitem2 t0 0 0 = Ok p) /\
    getitem2 aug_r 1 0 = Ok p /\
    (forall i : nat, i <> 1%nat -> aug_r !! i = aug_n !! i) /\
    take 1 aug_r = take 1 aug_n.
Proof.
  apply (call_normalizes_before_restoring
           (configured 2 symmetric_fn true)
           (locs_td [[(Fin 2, Fin 2); (Fin 0, Fin 0)]]) _
           zero_draws zero_draws "locs"%string eq_refl eq_refl
           (call_symmetric_normalize float32_valid_format float32_valid_trig)).
  cbn [feats configured]. apply list_elem_of_here.
Defined.

(** C6 as stated fails: the constant tensor with the one node (1, 1) is
    not left as it is, its normalisation is NaN in both coordinates; and
    [__call__] with [normalize=True] returns this NaN for replica 0 of the
    constant batch, without raising. *)
Lemma min_max_normalize_not_skipped :
  min_max_normalize [[(Fin 1, Fin 1)]] = Ok [[(NaN, NaN)]] /\
  min_max_normalize [[(Fin 1, Fin 1)]] <> Ok [[(Fin 1, Fin 1)]] /\
  StateAugmentation_call (configured 2 symmetric_fn true)
    (locs_td [[(Fin 1, Fin 1)]]) zero_draws
  = Ok ({| batch_size := 2;
           entries := <["locs"%string := [[(NaN, NaN)]; [(Fin 1, Fin 1)]]]>
                        {[ "locs"%string :=
                             [[(Fin 1, Fin 1)]; [(Fin 1, Fin 1)]] ]} |},
        zero_draws).
Proof.
  assert (E : min_max_normalize [[(Fin 1, Fin 1)]] = Ok [[(NaN, NaN)]]).
  { apply (min_max_normalize_zero_range [[(Fin 1, Fin 1)]] 1).
    - discriminate.
    - repeat constructor. }
  split; [exact E|]. split; [rewrite E; discriminate|].
  apply call_symmetric_constant;
    [exact float32_valid_format|exact float32_valid_trig].
Qed.

End CallExamples.

(** * Further properties *)

(** ** The dihedral images *)

Lemma Rabs_self_le (x e : R) : 0 <= e -> Rabs (x - x) <= e.
Proof. intros H. rewrite Rminus_diag, Rabs_R0. exact H. Qed.

Lemma dist_image_close (x y x' y' X Y X' Y' e D : R) :
  Rabs (x - X) <= e -> Rabs (y - Y) <= e ->
  Rabs (x' - X') <= e -> Rabs (y' - Y') <= e ->
  dist (X, Y) (X', Y') = D ->
  Rabs (dist (x, y) (x', y') - D) <= 4 * e.
Proof.
  intros H1 H2 H3 H4 <-. apply dist_close; assumption.
Qed.

Section DihedralImages.

Context {dtype : Dtype}.

Lemma concat_lookup_block {A : Type} (B : nat) (zs : list (list A)) :
  Forall (fun z => length z = B) zs ->
  forall (m i : nat) (z : list A),
    zs !! m = Some z -> (i < B)%nat -> concat zs !! (m * B + i)%nat = z !! i.
Proof.
  induction 1 as [|z0 zs Hz0 _ IH]; intros m i z Hm Hi; [discriminate|].
  destruct m as [|m]; cbn [concat] in *.
  - injection Hm as <-. apply lookup_app_l. lia.
  - rewrite lookup_app_r by lia.
    replace (S m * B + i - length z0)%nat with (m * B + i)%nat by lia.
    apply IH; assumption.
Qed.

(** Row [m * batch + i] of the result is the image at position [m] of
    instance [i]. *)
Lemma dihedral_8_augmentation_row (xy : Tensor) (m i : nat)
    (T : point -> point) :
  dihedral_images !! m = Some T ->
  (i < length xy)%nat ->
  dihedral_8_augmentation xy !! (m * length xy + i)%nat
  = fmap (M := list) T <$> xy !! i.
Proof.
  intros Hm Hi. rewrite dihedral_8_augmentation_images. unfold cat_batch.
  assert (Hlen : Forall (fun z : Tensor => length z = length xy)
                   ((fun T => tmap T xy) <$> dihedral_images)).
  { apply Forall_fmap, Forall_forall. intros T' _. simpl. apply tmap_length. }
  rewrite (concat_lookup_block (length xy) _ Hlen m i (tmap T xy)).
  - unfold tmap. apply list_lookup_fmap.
  - rewrite list_lookup_fmap, Hm. reflexivity.
  - exact Hi.
Qed.

Lemma dihedral_images_position (m : nat) :
  (m < 8)%nat -> exists T, dihedral_images !! m = Some T.
Proof.
  intros Hm. apply lookup_lt_is_Some_2. exact Hm.
Qed.

(** The reflection [1 - a] of a coordinate of the unit interval: one
    rounding, none on the grid. *)
Lemma reflect_close (a : R) :
  valid_format -> 0 <= a <= 1 ->
  exists a' : R,
    fsub (Fin 1) (Fin a) = Fin a' /\
    Rabs (a' - (1 - a)) <= bpow (- prec) /\
    0 <= a' <= 1 /\
    (on_grid (Fin a) -> a' = 1 - a).
Proof.
  intros V Ha. pose proof V as [Hp He].
  assert (Hp1 : (1 <= prec)%Z) by lia.
  assert (Hx : 0 <= 1 - a <= 1) by lra.
  destruct (rnd_between 0 1 (1 - a) Hp1 (representable_0 V)
              (representable_1 V) Hx) as [E Hr].
  exists (round (1 - a)). rewrite fsub_Fin. split; [exact E|].
  split; [apply round_error_small; [exact V|apply Rabs_le; lra]|].
  split; [exact Hr|].
  intros (k & Hk & Ek). injection Ek as ->.
  pose proof (on_grid_reflect k V Hk) as H. rewrite fsub_Fin, E in H.
  injection H as ->.
  assert (H1 : dyadic (2 ^ prec) (- prec) = 1) by (apply bpow_prec_inv; lia).
  rewrite <- H1. symmetry. apply dyadic_sub.
Qed.

Lemma dihedral_image_close (m : nat) (T : point -> point) (a b c d : R) :
  valid_format ->
  dihedral_images !! m = Some T ->
  0 <= a <= 1 -> 0 <= b <= 1 -> 0 <= c <= 1 -> 0 <= d <= 1 ->
  exists p q : R * R,
    T (Fin a, Fin b) = fpoint p /\ T (Fin c, Fin d) = fpoint q /\
    Rabs (dist p q - dist (a, b) (c, d)) <= 4 * bpow (- prec) /\
    (on_grid (Fin a) -> on_grid (Fin b) -> on_grid (Fin c) ->
     on_grid (Fin d) -> dist p q = dist (a, b) (c, d)).
Proof.
  intros V Hm Ia Ib Ic Id.
  destruct (reflect_close a V Ia) as (a' & Ea & Ha & _ & Ga).
  destruct (reflect_close b V Ib) as (b' & Eb & Hb & _ & Gb).
  destruct (reflect_close c V Ic) as (c' & Ec & Hc & _ & Gc).
  destruct (reflect_close d V Id) as (d' & Ed & Hd & _ & Gd).
  pose proof (bpow_gt_0 (- prec)) as Hu.
  assert (Hu0 : 0 <= bpow (- prec)) by lra.
  cbn [fsub fneg fadd] in Ea, Eb, Ec, Ed.
  destruct m as [|[|[|[|[|[|[|[|m]]]]]]]]; try discriminate;
    injection Hm as <-; cbn [fst snd fsub fneg fadd];
    rewrite ?Ea, ?Eb, ?Ec, ?Ed;
    eexists (_, _), (_, _);
    (split; [reflexivity|]); (split; [reflexivity|]);
    (split;
     [eapply dist_image_close;
      [first [exact Ha|exact Hb|apply Rabs_self_le, Hu0]
      |first [exact Ha|exact Hb|apply Rabs_self_le, Hu0]
      |first [exact Hc|exact Hd|apply Rabs_self_le, Hu0]
      |first [exact Hc|exact Hd|apply Rabs_self_le, Hu0]
      |unfold dist; cbn [fst snd]; f_equal; ring]
     |intros G1 G2 G3 G4;
      rewrite ?(Ga G1), ?(Gb G2), ?(Gc G3), ?(Gd G4);
      unfold dist; cbn [fst snd]; f_equal; ring]).
Qed.

(** X1: each of the eight images of [dihedral_8_augmentation] keeps the
    Euclidean distance of any two nodes of an instance of the unit square
    up to the rounding of the reflections [1 - x]: in row
    [m * batch + i] of the result, the nodes [j] and [k] are finite and
    their distance differs from the one in instance [i] of the input by
    at most [4 * 2 ^ - prec], and not at all when the coordinates are
    multiples of [2 ^ - prec]. *)
Theorem dihedral_8_augmentation_isometry (xy : Tensor) (m i j k : nat)
    (row : list point) (a b c d : R) :
  valid_format ->
  (m < 8)%nat ->
  xy !! i = Some row ->
  row !! j = Some (Fin a, Fin b) -> row !! k = Some (Fin c, Fin d) ->
  0 <= a <= 1 -> 0 <= b <= 1 -> 0 <= c <= 1 -> 0 <= d <= 1 ->
  exists p q : R * R,
    dihedral_8_augmentation xy !! (m * length xy + i)%nat ≫= (.!! j)
    = Some (fpoint p) /\
    dihedral_8_augmentation xy !! (m * length xy + i)%nat ≫= (.!! k)
    = Some (fpoint q) /\
    Rabs (dist p q - dist (a, b) (c, d)) <= 4 * bpow (- prec) /\
    (on_grid (Fin a) -> on_grid (Fin b) -> on_grid (Fin c) ->
     on_grid (Fin d) -> dist p q = dist (a, b) (c, d)).
Proof.
  intros V Hm Hrow Hj Hk Ia Ib Ic Id.
  destruct (dihedral_images_position m Hm) as [T HT].
  destruct (dihedral_image_close m T a b c d V HT Ia Ib Ic Id)
    as (p & q & Ep & Eq & Hclose & Hgrid).
  exists p, q.
  rewrite (dihedral_8_augmentation_row xy m i T HT)
    by (eapply lookup_lt_Some; exact Hrow).
  rewrite Hrow. cbn [fmap option_fmap option_map mbind option_bind].
  rewrite <- Ep, <- Eq.
  split; [apply list_lookup_fmap_Some; eauto|].
  split; [apply list_lookup_fmap_Some; eauto|].
  split; assumption.
Qed.

Lemma fsub_one_involutive (v : fval) :
  valid_format -> on_grid v -> fsub (Fin 1) (fsub (Fin 1) v) = v.
Proof. exact (on_grid_reflect_twice v). Qed.

(** X2: the eight images are closed under composition on the grid.
    Taking the image at position [k] of a batch and then the image at
    position [j] of the result gives the image of the batch at position
    [dihedral_compose j k], one of the eight again, when the coordinates
    are multiples of [2 ^ - prec] in the unit interval, where two
    reflections [1 - x] cancel. *)
Theorem dihedral_8_augmentation_closure (xy : Tensor) (j k : nat) :
  valid_format ->
  Forall (Forall on_grid_point) xy ->
  (j < 8)%nat -> (k < 8)%nat ->
  (dihedral_compose j k < 8)%nat /\
  batch_slice j (length xy)
    (dihedral_8_augmentation
       (batch_slice k (length xy) (dihedral_8_augmentation xy)))
  = batch_slice (dihedral_compose j k) (length xy)
      (dihedral_8_augmentation xy).
Proof.
  intros V Hgrid Hj Hk.
  destruct j as [|[|[|[|[|[|[|[|j]]]]]]]]; try lia;
    destruct k as [|[|[|[|[|[|[|[|k]]]]]]]]; try lia;
    (split; [vm_compute; lia|]);
    erewrite dihedral_8_augmentation_twice by reflexivity;
    erewrite dihedral_8_augmentation_slice by reflexivity;
    (apply (tmap_ext_Forall on_grid_point); [exact Hgrid|]);
    intros [a b] [Ga Gb]; unfold compose; cbn [fst snd] in *;
    rewrite ?(fsub_one_involutive a V Ga), ?(fsub_one_involutive b V Gb);
    reflexivity.
Qed.

Lemma in_unit_reflect (v : fval) :
  valid_format -> in_unit v -> in_unit (fsub (Fin 1) v).
Proof.
  intros V (r & -> & Hr).
  destruct (reflect_close r V Hr) as (r' & E & _ & H & _).
  exists r'. split; assumption.
Qed.

Lemma tmap_Forall {A B : Type} (P : A -> Prop) (Q : B -> Prop) (f : A -> B)
    (t : list (list A)) :
  (forall a, P a -> Q (f a)) ->
  Forall (Forall P) t -> Forall (Forall Q) (tmap f t).
Proof.
  intros Hf Ht. unfold tmap. apply Forall_fmap.
  eapply Forall_impl; [exact Ht|]. intros row Hrow. simpl.
  apply Forall_fmap. eapply Forall_impl; [exact Hrow|]. exact Hf.
Qed.

(** X3: [dihedral_8_augmentation] keeps the unit square: when every
    coordinate of the input is a finite number between 0 and 1, so is
    every coordinate of the result, the rounded reflections included. *)
Theorem dihedral_8_augmentation_unit_square (xy : Tensor) :
  valid_format ->
  Forall (Forall in_unit_square) xy ->
  Forall (Forall in_unit_square) (dihedral_8_augmentation xy).
Proof.
  intros V Hxy. rewrite dihedral_8_augmentation_images. unfold cat_batch.
  apply Forall_concat. unfold dihedral_images.
  cbn [fmap list_fmap].
  repeat (apply Forall_cons; split;
          [apply (tmap_Forall in_unit_square in_unit_square); [|exact Hxy];
           intros [a b] [Ha Hb]; split; cbn [fst snd] in *;
           try apply (in_unit_reflect _ V); assumption|]).
  apply Forall_nil_2.
Qed.


End DihedralImages.

Section DihedralImagesExamples.

#[local] Existing Instance float32.

Lemma float32_on_grid_0 : on_grid (Fin 0).
Proof.
  apply (float32_on_grid 0 0); [|reflexivity]. rewrite dyadic_0. reflexivity.
Qed.

Lemma float32_on_grid_1 : on_grid (Fin 1).
Proof.
  apply (float32_on_grid 1 (2 ^ 24)); [|reflexivity].
  rewrite dyadic_bpow by lia. reflexivity.
Qed.

Lemma dihedral_8_augmentation_isometry_witness :
  exists p q : R * R,
    dihedral_8_augmentation [[(Fin 1, Fin 0); (Fin 0, Fin 0)]]
      !! (5 * 1 + 0)%nat ≫= (.!! 0%nat) = Some (fpoint p) /\
    dihedral_8_augmentation [[(Fin 1, Fin 0); (Fin 0, Fin 0)]]
      !! (5 * 1 + 0)%nat ≫= (.!! 1%nat) = Some (fpoint q) /\
    Rabs (dist p q - dist (1, 0) (0, 0)) <= 4 * bpow (- 24) /\
    (on_grid (Fin 1) -> on_grid (Fin 0) -> on_grid (Fin 0) ->
     on_grid (Fin 0) -> dist p q = dist (1, 0) (0, 0)).
Proof.
  apply (dihedral_8_augmentation_isometry
           [[(Fin 1, Fin 0); (Fin 0, Fin 0)]] 5 0 0 1
           [(Fin 1, Fin 0); (Fin 0, Fin 0)] 1 0 0 0 float32_valid_format);
    try reflexivity; try lra. lia.
Defined.

Lemma dihedral_8_augmentation_closure_witness :
  (dihedral_compose 5 5 < 8)%nat /\
  batch_slice 5 (length [[(Fin 0, Fin 0)]])
    (dihedral_8_augmentation
       (batch_slice 5 (length [[(Fin 0, Fin 0)]])
          (dihedral_8_augmentation [[(Fin 0, Fin 0)]])))
  = batch_slice (dihedral_compose 5 5) (length [[(Fin 0, Fin 0)]])
      (dihedral_8_augmentation [[(Fin 0, Fin 0)]]).
Proof.
  apply (dihedral_8_augmentation_closure [[(Fin 0, Fin 0)]] 5 5
           float32_valid_format); try lia.
  repeat constructor; apply float32_on_grid_0.
Defined.

Lemma dihedral_8_augmentation_unit_square_witness :
  Forall (Forall in_unit_square)
    (dihedral_8_augmentation [[(Fin 0, Fin 1); (Fin (1 / 2), Fin 1)]]).
Proof.
  apply (dihedral_8_augmentation_unit_square
           [[(Fin 0, Fin 1); (Fin (1 / 2), Fin 1)]] float32_valid_format).
  repeat constructor; eexists; (split; [reflexivity|lra]).
Defined.

End DihedralImagesExamples.

Section Wrapper.

Context {dtype : Dtype}.

(** ** The wrapper of the dihedral augmentation *)

Lemma dihedral_8_augmentation_length (xy : Tensor) :
  length (dihedral_8_augmentation xy) = (8 * length xy)%nat.
Proof.
  rewrite dihedral_8_augmentation_images. unfold cat_batch. simpl.
  rewrite !length_app, !tmap_length. simpl. lia.
Qed.

Lemma slice_to_eighth {A : Type} (l : list A) :
  slice_to l (Z.of_nat (length l) / 8)%Z = take (length l / 8) l.
Proof.
  unfold slice_to, slice_stop.
  assert (H : (Z.of_nat (length l) / 8)%Z = Z.of_nat (length l / 8))
    by (rewrite Nat2Z.inj_div; reflexivity).
  rewrite H. destruct (decide (Z.of_nat (length l / 8) < 0)%Z); [lia|].
  rewrite Nat2Z.id. f_equal.
  pose proof (Nat.Div0.div_le_upper_bound (length l) 8 (length l)). lia.
Qed.

(** X4: with [reduce] the wrapper augments the leading eighth of the
    batch, rounded down, and nothing else: the result has
    [8 * (batch // 8)] rows, as many as the input only when the batch size
    is a multiple of 8, and none at all for a batch of fewer than 8 rows.
    Without [reduce] the result has [8 * batch] rows. *)
Theorem dihedral_8_augmentation_wrapper_rows (xy : Tensor) (reduce : bool) :
  dihedral_8_augmentation_wrapper xy reduce
  = dihedral_8_augmentation (if reduce then take (length xy / 8) xy else xy) /\
  length (dihedral_8_augmentation_wrapper xy reduce)
  = (if reduce then 8 * (length xy / 8) else 8 * length xy)%nat.
Proof.
  unfold dihedral_8_augmentation_wrapper. destruct reduce.
  - rewrite slice_to_eighth. split; [reflexivity|].
    rewrite dihedral_8_augmentation_length, length_take.
    pose proof (Nat.Div0.div_le_upper_bound (length xy) 8 (length xy)). lia.
  - split; [reflexivity|]. apply dihedral_8_augmentation_length.
Qed.

Lemma take_tile {A : Type} (n : nat) (x : list A) :
  take (length x) (tile (S n) x) = x.
Proof. unfold tile. cbn [replicate concat]. apply take_app_length. Qed.

(** X5: the wrapper undoes the tiling of [batchify]: on eight copies of a
    batch, one after the other, it returns the dihedral augmentation of
    the batch itself. *)
Theorem dihedral_8_augmentation_wrapper_tile (xy : Tensor) :
  dihedral_8_augmentation_wrapper (tile 8 xy) true
  = dihedral_8_augmentation xy.
Proof.
  unfold dihedral_8_augmentation_wrapper. rewrite slice_to_eighth.
  rewrite tile_length.
  replace (8 * length xy / 8)%nat with (length xy)
    by (rewrite Nat.mul_comm, Nat.div_mul; lia).
  rewrite take_tile. reflexivity.
Qed.

(** X6: augmenting an augmented batch again changes nothing: the wrapper
    takes the leading eighth of its argument, which is the identity image
    of the first augmentation. *)
Theorem dihedral_8_augmentation_wrapper_idempotent (xy : Tensor) :
  dihedral_8_augmentation_wrapper (dihedral_8_augmentation xy) true
  = dihedral_8_augmentation xy.
Proof.
  unfold dihedral_8_augmentation_wrapper. rewrite slice_to_eighth.
  rewrite dihedral_8_augmentation_length.
  replace (8 * length xy / 8)%nat with (length xy)
    by (rewrite Nat.mul_comm, Nat.div_mul; lia).
  f_equal.
  pose proof (dihedral_identity_slice xy) as H. unfold batch_slice in H.
  rewrite drop_0 in H. exact H.
Qed.


End Wrapper.

Section SymmetricAugmentation.

Context {dtype : Dtype}.

(** ** The symmetric augmentation *)

Lemma drawn_angles (batch : nat) (g : rng) :
  (fun r => fmul (fmul r (Fin 4)) (Fin fpi)) <$> (rand batch g).1
  = (fun i => drawn_angle (g i)) <$> seq 0 batch.
Proof.
  unfold rand. cbn [fst]. rewrite <- list_fmap_compose.
  apply list_fmap_ext. intros _ i _. reflexivity.
Qed.

Lemma drawn_angles_lookup (batch : nat) (g : rng) (i : nat) :
  (i < batch)%nat ->
  ((fun i => drawn_angle (g i)) <$> seq 0 batch) !! i
  = Some (drawn_angle (g i)).
Proof.
  intros Hi. rewrite list_lookup_fmap, lookup_seq_lt by exact Hi. reflexivity.
Qed.

Lemma symmetric_angles_Ok (batch : nat) (K : Z) (fa : bool) (g g' : rng)
    (phi : list fval) :
  symmetric_angles batch K fa g = Ok (phi, g') ->
  g' = (fun i => g (batch + i)%nat) /\
  (fa = true \/ K <> 0%Z) /\
  phi = if fa then (fun i => drawn_angle (g i)) <$> seq 0 batch
        else slice_fill ((fun i => drawn_angle (g i)) <$> seq 0 batch)
               (Z.of_nat batch / K) (Fin 0).
Proof.
  unfold symmetric_angles. intros H.
  pose proof (drawn_angles batch g) as Hd. unfold rand in *. cbn [fst] in Hd.
  rewrite Hd in H. destruct fa.
  - injection H as <- <-. split; [reflexivity|]. split; [left|]; reflexivity.
  - unfold floordiv in H. destruct (decide (K = 0%Z)) as [E|HK]; [discriminate|].
    cbn [mbind result_bind] in H. injection H as <- <-.
    split; [reflexivity|]. split; [right; exact HK|reflexivity].
Qed.

Lemma slice_fill_lookup_ge {A : Type} (l : list A) (n : Z) (v : A) (i : nat) :
  (slice_stop (length l) n <= i)%nat -> slice_fill l n v !! i = l !! i.
Proof.
  intros Hi. unfold slice_fill.
  assert (Hs : (slice_stop (length l) n <= length l)%nat)
    by (unfold slice_stop; destruct (decide (n < 0)%Z); lia).
  rewrite lookup_app_r by (rewrite length_replicate; exact Hi).
  rewrite length_replicate, lookup_drop. f_equal. lia.
Qed.

Lemma slice_fill_lookup_lt {A : Type} (l : list A) (n : Z) (v : A) (i : nat) :
  (i < slice_stop (length l) n)%nat -> slice_fill l n v !! i = Some v.
Proof.
  intros Hi. unfold slice_fill.
  rewrite lookup_app_l by (rewrite length_replicate; exact Hi).
  apply lookup_replicate_2. exact Hi.
Qed.

Lemma in_leading_slice_stop (batch : nat) (K : Z) (i : nat) :
  (i < batch)%nat ->
  in_leading_slice batch K i <-> (i < slice_stop batch (Z.of_nat batch / K))%nat.
Proof.
  intros Hi. unfold in_leading_slice, slice_stop. cbn zeta.
  destruct (decide (Z.of_nat batch / K < 0)%Z); lia.
Qed.

Lemma symmetric_angles_length (batch : nat) (K : Z) (fa : bool) (g g' : rng)
    (phi : list fval) :
  symmetric_angles batch K fa g = Ok (phi, g') -> length phi = batch.
Proof.
  intros H. apply symmetric_angles_Ok in H as (_ & _ & ->).
  destruct fa.
  - rewrite length_fmap. apply length_seq.
  - unfold slice_fill. rewrite length_app, length_replicate, length_drop.
    rewrite length_fmap, length_seq.
    unfold slice_stop. destruct (decide (_ < 0)%Z); lia.
Qed.

Lemma symmetric_augmentation_nonzero (xy : Tensor) (K : Z) (g : rng) :
  K <> 0%Z -> exists r, symmetric_augmentation xy K false g = Ok r.
Proof.
  intros HK. unfold symmetric_augmentation, symmetric_angles, floordiv.
  cbn [rand]. destruct (decide (K = 0%Z)) as [E|_]; [contradiction|].
  cbn [mbind result_bind]. eexists. reflexivity.
Qed.

(** X7: [symmetric_augmentation] returns unless [first_augment] is false
    and [num_augment] is 0, in which case [batch // num_augment] raises
    [ZeroDivisionError], also for an empty batch. *)
Theorem symmetric_augmentation_returns (xy : Tensor) (K : Z) (fa : bool)
    (g : rng) :
  ((exists r, symmetric_augmentation xy K fa g = Ok r)
   <-> (fa = true \/ K <> 0%Z)) /\
  ((exists e, symmetric_augmentation xy K fa g = Err e)
   <-> symmetric_augmentation xy K fa g = Err ZeroDivisionError).
Proof.
  unfold symmetric_augmentation, symmetric_angles, floordiv. cbn [rand].
  destruct fa; cbn [mbind result_bind].
  - split; split.
    + intros _. left. reflexivity.
    + intros _. eexists. reflexivity.
    + intros [e He]. discriminate.
    + intros He. discriminate.
  - destruct (decide (K = 0%Z)) as [->|HK]; cbn [mbind result_bind].
    + split; split.
      * intros [r Hr]. discriminate.
      * intros [H|H]; [discriminate|contradiction].
      * intros _. reflexivity.
      * intros _. eexists. reflexivity.
    + split; split.
      * intros _. right. exact HK.
      * intros _. eexists. reflexivity.
      * intros [e He]. discriminate.
      * intros He. discriminate.
Qed.

(** X8: the angles of [symmetric_augmentation].  There is one angle per
    row; the angle of a row inside the slice [[: batch // num_augment]] is
    0 unless [first_augment], the angle of any other row is its draw times
    [4 * pi]; a draw in [0, 1) gives an angle in [0, 4 * pi).  A negative
    [num_augment] is not rejected: its slice counts from the end of the
    batch. *)
(** X8: the angles of [symmetric_augmentation].  There is one angle per
    row; the angle of a row inside the slice [[: batch // num_augment]] is
    0 unless [first_augment], the angle of any other row is its draw times
    4 times [pi], rounded twice; a draw lies in [0, 1) and its angle is a
    finite number in [0, 4 * pi).  A negative [num_augment] is not
    rejected: its slice counts from the end of the batch. *)
Theorem symmetric_angles_rows (batch : nat) (K : Z) (fa : bool) (g g' : rng)
    (phi : list fval) (i : nat) :
  valid_format ->
  symmetric_angles batch K fa g = Ok (phi, g') ->
  (i < batch)%nat ->
  length phi = batch /\
  (fa = false -> in_leading_slice batch K i -> phi !! i = Some (Fin 0)) /\
  (fa = true \/ ~ in_leading_slice batch K i ->
   phi !! i = Some (drawn_angle (g i))) /\
  0 <= draw (g i) < 1 /\
  (exists t, drawn_angle (g i) = Fin t /\ 0 <= t < 4 * PI).
Proof.
  intros V H Hi.
  split; [eapply symmetric_angles_length; exact H|].
  apply symmetric_angles_Ok in H as (_ & _ & ->).
  split; [|split; [|split]].
  - intros -> Hin. apply in_leading_slice_stop in Hin; [|exact Hi].
    apply slice_fill_lookup_lt. rewrite length_fmap, length_seq. exact Hin.
  - intros Hcase. destruct fa.
    + apply drawn_angles_lookup. exact Hi.
    + destruct Hcase as [E|Hout]; [discriminate|].
      rewrite slice_fill_lookup_ge.
      * apply drawn_angles_lookup. exact Hi.
      * rewrite length_fmap, length_seq.
        destruct (Nat.le_gt_cases (slice_stop batch (Z.of_nat batch / K)) i)
          as [Hle|Hlt]; [exact Hle|].
        exfalso. apply Hout. apply in_leading_slice_stop; assumption.
  - apply draw_lt_1, V.
  - destruct (drawn_angle_range (g i) V) as (t & Et & _ & [H0 _] & H4).
    exists t. split; [exact Et|]. lra.
Qed.



Lemma zip_with_row_lengths {A B C : Type} (f : A -> B -> C) (s : list A)
    (t : list (list B)) :
  length s = length t ->
  length <$> zip_with (fun a row => f a <$> row) s t = length <$> t.
Proof.
  revert t. induction s as [|a s IH]; intros [|row t] Hlen;
    try discriminate; [reflexivity|].
  cbn [zip_with fmap list_fmap]. rewrite length_fmap. f_equal.
  apply IH. simpl in Hlen. lia.
Qed.

Lemma symmetric_augmentation_Ok_shape (xy out : Tensor) (K : Z) (fa : bool)
    (g g' : rng) :
  symmetric_augmentation xy K fa g = Ok (out, g') ->
  length out = length xy /\
  length <$> out = length <$> xy /\
  forall i : nat, g' i = g (length xy + i)%nat.
Proof.
  unfold symmetric_augmentation. intros H.
  destruct (symmetric_angles (length xy) K fa g) as [[phi g1]|] eqn:Hphi;
    [|discriminate].
  cbn [mbind result_bind] in H. unfold split_last in H. injection H as <- <-.
  pose proof (symmetric_angles_length _ _ _ _ _ _ Hphi) as Hlen.
  apply symmetric_angles_Ok in Hphi as (-> & _ & _).
  rewrite symmetric_transform_tensor.
  assert (Hrows : length <$> zip_with
            (fun ph row =>
               (fun p : point => symmetric_point p.1 p.2 ph default_offset)
                 <$> row) phi xy = length <$> xy)
    by (apply (zip_with_row_lengths
                 (fun ph (p : point) =>
                    symmetric_point p.1 p.2 ph default_offset)); exact Hlen).
  split; [|split; [exact Hrows|reflexivity]].
  apply (f_equal length) in Hrows. rewrite !length_fmap in Hrows. exact Hrows.
Qed.

(** X9: a call of [symmetric_augmentation] that returns keeps the shape of
    its input, the number of rows and the number of nodes of every row,
    and takes exactly one draw per row from the generator. *)
Theorem symmetric_augmentation_shape (xy out : Tensor) (K : Z) (fa : bool)
    (g g' : rng) :
  symmetric_augmentation xy K fa g = Ok (out, g') ->
  length out = length xy /\
  length <$> out = length <$> xy /\
  forall i : nat, g' i = g (length xy + i)%nat.
Proof. apply symmetric_augmentation_Ok_shape. Qed.







End SymmetricAugmentation.

Section SymmetricAugmentationExamples.

#[local] Existing Instance float32.

Lemma symmetric_angles_rows_witness :
  length [Fin 0; Fin 0; drawn_angle (2 ^ 22); drawn_angle (2 ^ 22)] = 4%nat /\
  (false = false -> in_leading_slice 4 (-2) 1 ->
   [Fin 0; Fin 0; drawn_angle (2 ^ 22); drawn_angle (2 ^ 22)] !! 1%nat
   = Some (Fin 0)) /\
  (false = true \/ ~ in_leading_slice 4 (-2) 1 ->
   [Fin 0; Fin 0; drawn_angle (2 ^ 22); drawn_angle (2 ^ 22)] !! 1%nat
   = Some (drawn_angle (2 ^ 22))) /\
  0 <= draw (2 ^ 22) < 1 /\
  (exists t, drawn_angle (2 ^ 22) = Fin t /\ 0 <= t < 4 * PI).
Proof.
  apply (symmetric_angles_rows 4 (-2) false (fun _ => 2 ^ 22)%Z
           (fun _ => 2 ^ 22)%Z
           [Fin 0; Fin 0; drawn_angle (2 ^ 22); drawn_angle (2 ^ 22)] 1
           float32_valid_format).
  - reflexivity.
  - lia.
Defined.

(** The batch of two copies of an instance with the nodes (1, 0) and
    (0, 0), augmented with all draws 0. *)
Lemma symmetric_augmentation_two_copies :
  symmetric_augmentation
    [[(Fin 1, Fin 0); (Fin 0, Fin 0)]; [(Fin 1, Fin 0); (Fin 0, Fin 0)]]
    2 false zero_draws
  = Ok ([[(Fin 1, Fin 0); (Fin 0, Fin 0)]; [(Fin 1, Fin 0); (Fin 0, Fin 0)]],
        zero_draws).
Proof.
  pose proof float32_valid_format as V. pose proof float32_valid_trig as VT.
  rewrite (symmetric_augmentation_zero_draws _ 2 V VT);
    [|lia|repeat constructor; apply small_moderate; try exact V;
          apply Rabs_le; lra].
  unfold tmap, recentre_point. cbn [fmap list_fmap fst snd].
  rewrite (recentre_1 V), (recentre_0 V). reflexivity.
Qed.


Lemma symmetric_augmentation_shape_witness :
  length [[(Fin 1, Fin 0); (Fin 0, Fin 0)]; [(Fin 1, Fin 0); (Fin 0, Fin 0)]]
  = length [[(Fin 1, Fin 0); (Fin 0, Fin 0)]; [(Fin 1, Fin 0); (Fin 0, Fin 0)]]
  /\
  length <$> [[(Fin 1, Fin 0); (Fin 0, Fin 0)]; [(Fin 1, Fin 0); (Fin 0, Fin 0)]]
  = length <$> [[(Fin 1, Fin 0); (Fin 0, Fin 0)];
                [(Fin 1, Fin 0); (Fin 0, Fin 0)]] /\
  forall i : nat,
    zero_draws i
    = zero_draws
        (length [[(Fin 1, Fin 0); (Fin 0, Fin 0)];
                 [(Fin 1, Fin 0); (Fin 0, Fin 0)]] + i)%nat.
Proof.
  apply (symmetric_augmentation_shape _ _ 2 false zero_draws zero_draws
           symmetric_augmentation_two_copies).
Defined.




End SymmetricAugmentationExamples.

(** ** Normalisation *)

Section NormalisationRange.

Context {dtype : Dtype}.

Lemma elements_tmap (h : fval -> fval) (x : Tensor) :
  elements (tmap (fun p : point => (h p.1, h p.2)) x) = h <$> elements x.
Proof.
  unfold elements, tmap. induction x as [|row x IH]; [reflexivity|].
  cbn [fmap list_fmap concat]. rewrite fmap_app. f_equal; [|exact IH].
  clear IH. induction row as [|p row IH]; [reflexivity|].
  cbn [fmap list_fmap concat app fst snd]. f_equal. f_equal. exact IH.
Qed.

Lemma elements_Forall (P : fval -> Prop) (x : Tensor) :
  Forall P (elements x)
  <-> Forall (Forall (fun p : point => P p.1 /\ P p.2)) x.
Proof.
  unfold elements. induction x as [|row x IH]; [split; constructor|].
  cbn [fmap list_fmap concat]. rewrite Forall_app, Forall_cons, IH.
  apply and_iff_compat_r. clear IH.
  induction row as [|p row IH]; [split; constructor|].
  cbn [fmap list_fmap concat app]. rewrite !Forall_cons, IH. tauto.
Qed.

Lemma elements_finite (x : Tensor) :
  Forall (Forall finite_point) x -> Forall is_finite (elements x).
Proof. intros H. apply elements_Forall. exact H. Qed.

Lemma elements_row_lengths (x : Tensor) :
  elements x = [] <-> Forall (fun row => row = []) x.
Proof.
  unfold elements. induction x as [|row x IH]; [split; constructor|].
  cbn [fmap list_fmap concat]. split.
  - intros H. apply app_eq_nil in H as [Hrow Hx]. constructor.
    + destruct row; [reflexivity|discriminate].
    + apply IH. exact Hx.
  - intros H. apply Forall_cons in H as [-> Hx].
    apply IH in Hx. rewrite Hx. reflexivity.
Qed.

(** The running minimum and maximum of finite values. *)
Lemma foldl_fmin2_finite (vs : list fval) :
  Forall is_finite vs ->
  forall a : R,
  exists m : R,
    foldl fmin2 (Fin a) vs = Fin m /\
    Fin m ∈ Fin a :: vs /\
    forall r : R, Fin r ∈ Fin a :: vs -> m <= r.
Proof.
  induction 1 as [|v vs Hv _ IH]; intros a.
  - exists a. split; [reflexivity|]. split; [apply list_elem_of_here|].
    intros r Hr. apply list_elem_of_singleton in Hr. injection Hr as ->. lra.
  - destruct v as [b| | |]; try contradiction. cbn [foldl].
    destruct (Rle_or_lt a b) as [Hab|Hab].
    + rewrite fmin2_le by exact Hab.
      destruct (IH a) as (m & Hm & Hin & Hle). exists m.
      split; [exact Hm|]. split.
      * apply elem_of_cons in Hin as [Hin|Hin];
          [rewrite Hin; apply list_elem_of_here|].
        apply list_elem_of_further, list_elem_of_further. exact Hin.
      * intros r Hr. apply elem_of_cons in Hr as [Hr|Hr].
        -- apply Hle. rewrite Hr. apply list_elem_of_here.
        -- apply elem_of_cons in Hr as [Hr|Hr].
           ++ injection Hr as ->.
              specialize (Hle a (list_elem_of_here _ _)). lra.
           ++ apply Hle. apply list_elem_of_further. exact Hr.
    + rewrite fmin2_gt by exact Hab.
      destruct (IH b) as (m & Hm & Hin & Hle). exists m.
      split; [exact Hm|]. split.
      * apply list_elem_of_further. exact Hin.
      * intros r Hr. apply elem_of_cons in Hr as [Hr|Hr].
        -- injection Hr as ->.
           specialize (Hle b (list_elem_of_here _ _)). lra.
        -- apply Hle. exact Hr.
Qed.

Lemma foldl_fmax2_finite (vs : list fval) :
  Forall is_finite vs ->
  forall a : R,
  exists m : R,
    foldl fmax2 (Fin a) vs = Fin m /\
    Fin m ∈ Fin a :: vs /\
    forall r : R, Fin r ∈ Fin a :: vs -> r <= m.
Proof.
  induction 1 as [|v vs Hv _ IH]; intros a.
  - exists a. split; [reflexivity|]. split; [apply list_elem_of_here|].
    intros r Hr. apply list_elem_of_singleton in Hr. injection Hr as ->. lra.
  - destruct v as [b| | |]; try contradiction. cbn [foldl].
    destruct (Rle_or_lt b a) as [Hab|Hab].
    + rewrite fmax2_ge by exact Hab.
      destruct (IH a) as (m & Hm & Hin & Hle). exists m.
      split; [exact Hm|]. split.
      * apply elem_of_cons in Hin as [Hin|Hin];
          [rewrite Hin; apply list_elem_of_here|].
        apply list_elem_of_further, list_elem_of_further. exact Hin.
      * intros r Hr. apply elem_of_cons in Hr as [Hr|Hr].
        -- apply Hle. rewrite Hr. apply list_elem_of_here.
        -- apply elem_of_cons in Hr as [Hr|Hr].
           ++ injection Hr as ->.
              specialize (Hle a (list_elem_of_here _ _)). lra.
           ++ apply Hle. apply list_elem_of_further. exact Hr.
    + rewrite fmax2_lt by exact Hab.
      destruct (IH b) as (m & Hm & Hin & Hle). exists m.
      split; [exact Hm|]. split.
      * apply list_elem_of_further. exact Hin.
      * intros r Hr. apply elem_of_cons in Hr as [Hr|Hr].
        -- injection Hr as ->.
           specialize (Hle b (list_elem_of_here _ _)). lra.
        -- apply Hle. exact Hr.
Qed.

Lemma tensor_min_finite (x : Tensor) :
  Forall (Forall finite_point) x -> elements x <> [] ->
  exists lo : R,
    tensor_min x = Ok (Fin lo) /\ Fin lo ∈ elements x /\
    forall r : R, Fin r ∈ elements x -> lo <= r.
Proof.
  intros Hfin Hne. apply elements_finite in Hfin.
  unfold tensor_min, reduce_all.
  destruct (elements x) as [|v vs]; [contradiction|].
  apply Forall_cons in Hfin as [Hv Hvs].
  destruct v as [a| | |]; try contradiction.
  destruct (foldl_fmin2_finite vs Hvs a) as (m & Hm & Hin & Hle).
  exists m. rewrite Hm. auto.
Qed.

Lemma tensor_max_finite (x : Tensor) :
  Forall (Forall finite_point) x -> elements x <> [] ->
  exists hi : R,
    tensor_max x = Ok (Fin hi) /\ Fin hi ∈ elements x /\
    forall r : R, Fin r ∈ elements x -> r <= hi.
Proof.
  intros Hfin Hne. apply elements_finite in Hfin.
  unfold tensor_max, reduce_all.
  destruct (elements x) as [|v vs]; [contradiction|].
  apply Forall_cons in Hfin as [Hv Hvs].
  destruct v as [a| | |]; try contradiction.
  destruct (foldl_fmax2_finite vs Hvs a) as (m & Hm & Hin & Hle).
  exists m. rewrite Hm. auto.
Qed.

Lemma tensor_min_unique (x : Tensor) (m : R) :
  Forall (Forall finite_point) x ->
  Fin m ∈ elements x ->
  (forall r : R, Fin r ∈ elements x -> m <= r) ->
  tensor_min x = Ok (Fin m).
Proof.
  intros Hfin Hin Hle.
  destruct (tensor_min_finite x Hfin) as (lo & Hlo & Hloin & Hlole).
  { intros E. rewrite E in Hin. apply elem_of_nil in Hin. exact Hin. }
  rewrite Hlo. f_equal. f_equal.
  specialize (Hle lo Hloin). specialize (Hlole m Hin). lra.
Qed.

Lemma tensor_max_unique (x : Tensor) (m : R) :
  Forall (Forall finite_point) x ->
  Fin m ∈ elements x ->
  (forall r : R, Fin r ∈ elements x -> r <= m) ->
  tensor_max x = Ok (Fin m).
Proof.
  intros Hfin Hin Hle.
  destruct (tensor_max_finite x Hfin) as (hi & Hhi & Hhiin & Hhile).
  { intros E. rewrite E in Hin. apply elem_of_nil in Hin. exact Hin. }
  rewrite Hhi. f_equal. f_equal.
  specialize (Hle hi Hhiin). specialize (Hhile m Hin). lra.
Qed.

Lemma stored_finite (x : Tensor) :
  Forall (Forall stored_point) x -> Forall (Forall finite_point) x.
Proof.
  intros H. eapply Forall_impl; [exact H|]. intros row Hrow.
  eapply Forall_impl; [exact Hrow|].
  intros [u v] [(r1 & E1 & _) (r2 & E2 & _)]. cbn [fst snd] in *. subst.
  split; exact I.
Qed.

(** The quotient of the normalisation on numbers of the data type: it
    lies between 0 and 1, it is 0 at the least and 1 at the greatest
    entry. *)
Lemma normalize_entry (r lo hi : R) :
  valid_format ->
  stored (Fin r) -> stored (Fin lo) -> stored (Fin hi) ->
  lo <= r <= hi -> lo < hi ->
  exists q : R,
    fdiv (fsub (Fin r) (Fin lo)) (fsub (Fin hi) (Fin lo)) = Fin q /\
    representable q /\ 0 <= q <= 1 /\
    (r = lo -> q = 0) /\ (r = hi -> q = 1).
Proof.
  intros V (r0 & Er & Rr & Br) (l0 & El & Rl & Bl) (h0 & Eh & Rh & Bh) Hr Hlt.
  injection Er as <-. injection El as <-. injection Eh as <-.
  pose proof V as [Hp He]. assert (Hp1 : (1 <= prec)%Z) by lia.
  assert (HB : representable (bpow (emax - 1)))
    by (apply representable_bpow; [exact V|lia]).
  assert (Hm : representable (bpow (3 - emax - prec)))
    by (apply representable_bpow; [exact V|lia]).
  assert (H2 : bpow (emax - 1) = 2 * bpow (emax - 2)).
  { replace (emax - 1)%Z with (1 + (emax - 2))%Z by lia.
    rewrite bpow_plus, bpow_1. reflexivity. }
  pose proof (bpow_gt_0 (3 - emax - prec)) as Hmin.
  pose proof (representable_gap lo hi V Rl Rh Hlt) as Hgap.
  apply Rabs_le_inv in Br, Bl, Bh.
  assert (HD : bpow (3 - emax - prec) <= hi - lo <= bpow (emax - 1)) by lra.
  destruct (rnd_between _ _ (hi - lo) Hp1 Hm HB HD) as [ED [D1 D2]].
  assert (HN : 0 <= r - lo <= bpow (emax - 1)) by lra.
  destruct (rnd_between _ _ (r - lo) Hp1 (representable_0 V) HB HN)
    as [EN [N1 N2]].
  assert (HND : round (r - lo) <= round (hi - lo))
    by (apply (round_le prec emax Hp1); lra).
  set (N := round (r - lo)) in *. set (D := round (hi - lo)) in *.
  assert (HQ : 0 <= N / D <= 1).
  { unfold Rdiv. assert (Hi : 0 < / D) by (apply Rinv_0_lt_compat; lra).
    assert (Hone : D * / D = 1) by (apply Rinv_r; lra).
    split; nra. }
  destruct (rnd_between _ _ (N / D) Hp1 (representable_0 V)
              (representable_1 V) HQ) as [EQ HQ'].
  exists (round (N / D)).
  rewrite !fsub_Fin, EN, ED. fold N D.
  rewrite fdiv_Fin by lra.
  split; [exact EQ|].
  split; [eapply rnd_representable; [exact V|exact EQ]|].
  split; [exact HQ'|]. split.
  - intros ->. unfold N. rewrite Rminus_diag.
    replace (round 0) with 0
      by (symmetry; apply representable_round, representable_0, V).
    unfold Rdiv. rewrite Rmult_0_l.
    apply representable_round, representable_0, V.
  - intros ->. unfold N, D. unfold Rdiv. rewrite Rinv_r by (fold D; lra).
    apply representable_round, representable_1, V.
Qed.

Lemma min_max_normalize_range (x : Tensor) (a b : R) :
  valid_format ->
  Forall (Forall stored_point) x ->
  Fin a ∈ elements x -> Fin b ∈ elements x -> a <> b ->
  exists y : Tensor,
    min_max_normalize x = Ok y /\
    length <$> y = length <$> x /\
    Forall (fun v => exists q : R, v = Fin q /\ representable q /\ 0 <= q <= 1)
      (elements y) /\
    tensor_min y = Ok (Fin 0) /\ tensor_max y = Ok (Fin 1).
Proof.
  intros V Hst Ha Hb Hab. pose proof (stored_finite x Hst) as Hfin.
  assert (Hne : elements x <> []).
  { intros E. rewrite E in Ha. apply elem_of_nil in Ha. exact Ha. }
  destruct (tensor_min_finite x Hfin Hne) as (lo & Hlo & Hloin & Hlole).
  destruct (tensor_max_finite x Hfin Hne) as (hi & Hhi & Hhiin & Hhile).
  assert (Hlt : lo < hi).
  { pose proof (Hlole a Ha). pose proof (Hlole b Hb).
    pose proof (Hhile a Ha). pose proof (Hhile b Hb). lra. }
  assert (Hel : Forall stored (elements x)).
  { apply elements_Forall. exact Hst. }
  pose proof (proj1 (Forall_forall _ _) Hel) as Hstored.
  set (h := fun v => fdiv (fsub v (Fin lo)) (fsub (Fin hi) (Fin lo))).
  exists (tmap (fun p : point => (h p.1, h p.2)) x).
  split; [unfold min_max_normalize; rewrite Hlo, Hhi; reflexivity|].
  split; [apply tmap_row_lengths|].
  assert (Hunit : Forall (fun v => exists q : R,
                            v = Fin q /\ representable q /\ 0 <= q <= 1)
                    (h <$> elements x)).
  { apply Forall_fmap, Forall_forall. intros v Hv. simpl.
    pose proof (Hstored v Hv) as Hs. pose proof Hs as (r & -> & _).
    destruct (normalize_entry r lo hi V Hs (Hstored _ Hloin)
                (Hstored _ Hhiin)) as (q & Eq & Rq & Hq & _);
      [split; [apply Hlole|apply Hhile]; exact Hv|exact Hlt|].
    exists q. auto. }
  rewrite elements_tmap.
  split; [exact Hunit|].
  assert (Hyfin : Forall (Forall finite_point)
                    (tmap (fun p : point => (h p.1, h p.2)) x)).
  { apply (elements_Forall is_finite). rewrite elements_tmap.
    eapply Forall_impl; [exact Hunit|]. intros v (q & -> & _). exact I. }
  split.
  - apply tensor_min_unique; [exact Hyfin| |].
    + rewrite elements_tmap. apply list_elem_of_fmap.
      exists (Fin lo). split; [|exact Hloin].
      destruct (normalize_entry lo lo hi V (Hstored _ Hloin) (Hstored _ Hloin)
                  (Hstored _ Hhiin)) as (q & Eq & _ & _ & H0 & _);
        [lra|exact Hlt|].
      unfold h. rewrite Eq, H0; reflexivity.
    + intros r Hr. rewrite elements_tmap in Hr.
      pose proof (proj1 (Forall_forall _ _) Hunit _ Hr) as (r' & E & _ & Hr').
      injection E as ->. lra.
  - apply tensor_max_unique; [exact Hyfin| |].
    + rewrite elements_tmap. apply list_elem_of_fmap.
      exists (Fin hi). split; [|exact Hhiin].
      destruct (normalize_entry hi lo hi V (Hstored _ Hhiin) (Hstored _ Hloin)
                  (Hstored _ Hhiin)) as (q & Eq & _ & _ & _ & H1);
        [lra|exact Hlt|].
      unfold h. rewrite Eq, H1; reflexivity.
    + intros r Hr. rewrite elements_tmap in Hr.
      pose proof (proj1 (Forall_forall _ _) Hunit _ Hr) as (r' & E & _ & Hr').
      injection E as ->. lra.
Qed.

Lemma unit_elements (y : Tensor) :
  Forall (fun v => exists q : R, v = Fin q /\ representable q /\ 0 <= q <= 1)
    (elements y) ->
  Forall (Forall in_unit_square) y.
Proof.
  intros H. apply (elements_Forall in_unit).
  eapply Forall_impl; [exact H|]. intros v (q & -> & _ & Hq).
  exists q. split; [reflexivity|exact Hq].
Qed.

(** X13: on a tensor of numbers of the data type that are not all the
    same and small enough for their range not to overflow,
    [min_max_normalize] returns a tensor of the same shape whose entries
    are finite numbers between 0 and 1, with 0 as the least and 1 as the
    greatest entry. *)
Theorem min_max_normalize_unit_range (x : Tensor) (a b : R) :
  valid_format ->
  Forall (Forall stored_point) x ->
  Fin a ∈ elements x -> Fin b ∈ elements x -> a <> b ->
  exists y : Tensor,
    min_max_normalize x = Ok y /\
    length <$> y = length <$> x /\
    Forall (Forall in_unit_square) y /\
    tensor_min y = Ok (Fin 0) /\ tensor_max y = Ok (Fin 1).
Proof.
  intros V Hst Ha Hb Hab.
  destruct (min_max_normalize_range x a b V Hst Ha Hb Hab)
    as (y & Hy & Hshape & Hunit & Hmin & Hmax).
  exists y. split; [exact Hy|]. split; [exact Hshape|].
  split; [apply unit_elements; exact Hunit|]. split; assumption.
Qed.

(** X14: [min_max_normalize] is idempotent on such tensors: normalising
    the result again returns it unchanged, the least entry being 0 and
    the range 1. *)
Theorem min_max_normalize_idempotent (x : Tensor) (a b : R) :
  valid_format ->
  Forall (Forall stored_point) x ->
  Fin a ∈ elements x -> Fin b ∈ elements x -> a <> b ->
  exists y : Tensor,
    min_max_normalize x = Ok y /\ min_max_normalize y = Ok y.
Proof.
  intros V Hst Ha Hb Hab.
  destruct (min_max_normalize_range x a b V Hst Ha Hb Hab)
    as (y & Hy & _ & Hunit & Hmin & Hmax).
  exists y. split; [exact Hy|].
  unfold min_max_normalize. rewrite Hmin, Hmax. cbn [mbind result_bind].
  f_equal.
  apply (tmap_id_Forall
           (fun p : point =>
              (exists q : R, p.1 = Fin q /\ representable q /\ 0 <= q <= 1) /\
              (exists q : R, p.2 = Fin q /\ representable q /\ 0 <= q <= 1))).
  - apply (elements_Forall
             (fun v => exists q : R,
                         v = Fin q /\ representable q /\ 0 <= q <= 1)).
    exact Hunit.
  - intros [u v] [(q1 & E1 & R1 & _) (q2 & E2 & R2 & _)].
    cbn [fst snd] in *. subst.
    rewrite (fsub_0_r 1) by (apply representable_1, V).
    rewrite !fsub_0_r by assumption.
    rewrite (fdiv_exact q1 1 q1), (fdiv_exact q2 1 q2);
      try assumption; try lra; try (field; lra).
    reflexivity.
Qed.

Lemma foldl_NaN (op : fval -> fval -> fval) (vs : list fval) :
  (forall v, op NaN v = NaN) -> foldl op NaN vs = NaN.
Proof.
  intros Hop. induction vs as [|v vs IH]; [reflexivity|].
  cbn [foldl]. rewrite Hop. exact IH.
Qed.

Lemma foldl_NaN_elem (op : fval -> fval -> fval) (vs : list fval) (a : fval) :
  (forall v, op NaN v = NaN) -> (forall v, op v NaN = NaN) ->
  NaN ∈ a :: vs -> foldl op a vs = NaN.
Proof.
  intros Hl Hr. revert a. induction vs as [|v vs IH]; intros a Hin.
  - apply list_elem_of_singleton in Hin. rewrite <- Hin. reflexivity.
  - cbn [foldl]. apply elem_of_cons in Hin as [<-|Hin].
    + rewrite Hl. apply foldl_NaN. exact Hl.
    + apply IH. apply elem_of_cons in Hin as [<-|Hin].
      * rewrite Hr. apply list_elem_of_here.
      * apply list_elem_of_further. exact Hin.
Qed.

Lemma reduce_all_NaN (op : fval -> fval -> fval) (x : Tensor) :
  (forall v, op NaN v = NaN) -> (forall v, op v NaN = NaN) ->
  NaN ∈ elements x -> reduce_all op x = Ok NaN.
Proof.
  intros Hl Hr Hin. unfold reduce_all.
  destruct (elements x) as [|v vs]; [apply elem_of_nil in Hin; contradiction|].
  rewrite (foldl_NaN_elem op vs v Hl Hr Hin). reflexivity.
Qed.

(** X16: one NaN spoils the whole normalisation: when an entry of the
    tensor is NaN, the minimum and the maximum are NaN and
    [min_max_normalize] returns NaN in every entry, without raising. *)
Theorem min_max_normalize_NaN (x : Tensor) :
  NaN ∈ elements x ->
  tensor_min x = Ok NaN /\ tensor_max x = Ok NaN /\
  min_max_normalize x = Ok (tmap (fun _ => (NaN, NaN)) x).
Proof.
  intros Hin.
  assert (Hmin : tensor_min x = Ok NaN).
  { apply reduce_all_NaN; [| |exact Hin]; intros [| | |]; reflexivity. }
  assert (Hmax : tensor_max x = Ok NaN).
  { apply reduce_all_NaN; [| |exact Hin]; intros [| | |]; reflexivity. }
  split; [exact Hmin|]. split; [exact Hmax|].
  unfold min_max_normalize. rewrite Hmin, Hmax. cbn [mbind result_bind].
  f_equal. apply tmap_ext. intros [[| | |] [| | |]]; reflexivity.
Qed.
(** X17: [min_max_normalize] raises exactly on a tensor without entries,
    a batch without rows or rows without nodes, where the reduction
    [x.min()] raises [RuntimeError]; on every other tensor it returns a
    tensor of the same shape. *)
Theorem min_max_normalize_returns (x : Tensor) :
  (min_max_normalize x = Err RuntimeError
   <-> Forall (fun row => row = []) x) /\
  ((exists y, min_max_normalize x = Ok y /\ length <$> y = length <$> x)
   <-> ~ Forall (fun row => row = []) x).
Proof.
  rewrite <- elements_row_lengths.
  unfold min_max_normalize, tensor_min, tensor_max, reduce_all.
  destruct (elements x) as [|v vs]; cbn [mbind result_bind].
  - split; split.
    + reflexivity.
    + reflexivity.
    + intros (y & Hy & _). discriminate.
    + intros H. contradiction.
  - split; split.
    + discriminate.
    + discriminate.
    + intros _. discriminate.
    + intros _. eexists. split; [reflexivity|]. apply tmap_row_lengths.
Qed.


End NormalisationRange.

Section NormalisationExamples.

#[local] Existing Instance float32.

Lemma float32_stored (r : R) : representable r -> Rabs r <= 2 -> stored (Fin r).
Proof.
  intros Hr H. exists r. split; [reflexivity|]. split; [exact Hr|].
  cbn [emax float32]. assert (2 <= bpow (128 - 2)); [|lra].
  rewrite <- bpow_1. apply bpow_le. lia.
Qed.

Lemma stored_two_zero : Forall (Forall stored_point) [[(Fin 2, Fin 0)]].
Proof.
  pose proof float32_valid_format as V.
  repeat constructor; cbn [fst snd]; apply float32_stored;
    first [apply representable_2, V | apply representable_0, V
          | apply Rabs_le; lra].
Qed.

Lemma min_max_normalize_unit_range_witness :
  exists y : Tensor,
    min_max_normalize [[(Fin 2, Fin 0)]] = Ok y /\
    length <$> y = length <$> [[(Fin 2, Fin 0)]] /\
    Forall (Forall in_unit_square) y /\
    tensor_min y = Ok (Fin 0) /\ tensor_max y = Ok (Fin 1).
Proof.
  apply (min_max_normalize_unit_range [[(Fin 2, Fin 0)]] 2 0
           float32_valid_format stored_two_zero).
  - apply list_elem_of_here.
  - apply list_elem_of_further, list_elem_of_here.
  - lra.
Defined.

Lemma min_max_normalize_idempotent_witness :
  exists y : Tensor,
    min_max_normalize [[(Fin 2, Fin 0)]] = Ok y /\
    min_max_normalize y = Ok y.
Proof.
  apply (min_max_normalize_idempotent [[(Fin 2, Fin 0)]] 2 0
           float32_valid_format stored_two_zero).
  - apply list_elem_of_here.
  - apply list_elem_of_further, list_elem_of_here.
  - lra.
Defined.

Lemma min_max_normalize_NaN_witness :
  tensor_min [[(Fin 2, NaN); (Fin 0, Fin 1)]] = Ok NaN /\
  tensor_max [[(Fin 2, NaN); (Fin 0, Fin 1)]] = Ok NaN /\
  min_max_normalize [[(Fin 2, NaN); (Fin 0, Fin 1)]]
  = Ok (tmap (fun _ => (NaN, NaN)) [[(Fin 2, NaN); (Fin 0, Fin 1)]]).
Proof.
  apply (min_max_normalize_NaN [[(Fin 2, NaN); (Fin 0, Fin 1)]]).
  apply list_elem_of_further, list_elem_of_here.
Defined.


End NormalisationExamples.

Section Construction.

Context {dtype : Dtype}.

(** ** Construction, case by case *)

(** When [StateAugmentation.__init__] raises, and what it returns if it
    returns. *)
Lemma StateAugmentation_init_errors (K : Z) (fn : augment_fn_arg)
    (fai norm : bool) (feats_arg : option (list string)) :
  (StateAugmentation_init K fn fai norm feats_arg = Err ValueError
   <-> exists name, fn = by_name name /\
                    name <> "dihedral8"%string /\ name <> "symmetric"%string) /\
  (StateAugmentation_init K fn fai norm feats_arg = Err AssertionError
   <-> (fn = by_name "dihedral8" \/ fn = by_callable dihedral8_fn) /\
       K <> 8%Z) /\
  (forall self,
      StateAugmentation_init K fn fai norm feats_arg = Ok self ->
      get_augment_function fn = Ok (augmentation_of self) /\
      num_augment self = K /\ normalize self = norm /\
      first_aug_identity self = fai /\
      feats self = default ["locs"%string] feats_arg).
Proof.
  unfold StateAugmentation_init.
  destruct fn as [name|a]; cbn [get_augment_function].
  - destruct (String.eqb_spec name "dihedral8") as [->|Hd].
    + cbn [mbind result_bind is_dihedral8 andb].
      destruct (Z.eqb_spec K 8) as [->|HK]; cbn [negb].
      * split; [|split].
        -- split; [discriminate|]. intros (n & E & Hn & _). congruence.
        -- split; [discriminate|]. intros [_ H]. contradiction.
        -- intros self H. injection H as <-. destruct feats_arg; repeat split.
      * split; [|split].
        -- split; [discriminate|]. intros (n & E & Hn & _). congruence.
        -- split; [|reflexivity]. intros _. split; [left; reflexivity|exact HK].
        -- intros self H. discriminate.
    + destruct (String.eqb_spec name "symmetric") as [->|Hs].
      * cbn [mbind result_bind is_dihedral8 andb].
        split; [|split].
        -- split; [discriminate|]. intros (n & E & _ & Hn). congruence.
        -- split; [discriminate|]. intros [[E|E] _]; discriminate.
        -- intros self H. injection H as <-. destruct feats_arg; repeat split.
      * cbn [mbind result_bind].
        split; [|split].
        -- split; [|reflexivity]. intros _. exists name. auto.
        -- split; [discriminate|]. intros [[E|E] _]; [congruence|discriminate].
        -- intros self H. discriminate.
  - cbn [mbind result_bind].
    destruct a as [| |f]; cbn [is_dihedral8 andb].
    + destruct (Z.eqb_spec K 8) as [->|HK]; cbn [negb].
      * split; [|split].
        -- split; [discriminate|]. intros (n & E & _). discriminate.
        -- split; [discriminate|]. intros [_ H]. contradiction.
        -- intros self H. injection H as <-. destruct feats_arg; repeat split.
      * split; [|split].
        -- split; [discriminate|]. intros (n & E & _). discriminate.
        -- split; [|reflexivity]. intros _. split; [right; reflexivity|exact HK].
        -- intros self H. discriminate.
    + split; [|split].
      * split; [discriminate|]. intros (n & E & _). discriminate.
      * split; [discriminate|]. intros [[E|E] _]; discriminate.
      * intros self H. injection H as <-. destruct feats_arg; repeat split.
    + split; [|split].
      * split; [discriminate|]. intros (n & E & _). discriminate.
      * split; [discriminate|]. intros [[E|E] _]; discriminate.
      * intros self H. injection H as <-. destruct feats_arg; repeat split.
Qed.

(** When it returns. *)
Lemma StateAugmentation_init_returns (K : Z) (fn : augment_fn_arg)
    (fai norm : bool) (feats_arg : option (list string)) :
  (exists self, StateAugmentation_init K fn fai norm feats_arg = Ok self)
  <-> (forall name, fn = by_name name ->
                    name = "dihedral8"%string \/ name = "symmetric"%string) /\
      (fn = by_name "dihedral8" \/ fn = by_callable dihedral8_fn -> K = 8%Z).
Proof.
  unfold StateAugmentation_init.
  destruct fn as [name|a]; cbn [get_augment_function].
  - destruct (String.eqb_spec name "dihedral8") as [->|Hd].
    + cbn [mbind result_bind is_dihedral8 andb].
      destruct (Z.eqb_spec K 8) as [->|HK]; cbn [negb].
      * split; [|intros _; eexists; reflexivity].
        intros _. split; [|reflexivity].
        intros n E. injection E as <-. left. reflexivity.
      * split; [intros [self H]; discriminate|].
        intros [_ H]. exfalso. apply HK, H. left. reflexivity.
    + destruct (String.eqb_spec name "symmetric") as [->|Hs].
      * cbn [mbind result_bind is_dihedral8 andb].
        split; [|intros _; eexists; reflexivity].
        intros _. split; [|intros [E|E]; discriminate].
        intros n E. injection E as <-. right. reflexivity.
      * cbn [mbind result_bind].
        split; [intros [self H]; discriminate|].
        intros [H _]. destruct (H name eq_refl); contradiction.
  - cbn [mbind result_bind].
    destruct a as [| |f]; cbn [is_dihedral8 andb].
    + destruct (Z.eqb_spec K 8) as [->|HK]; cbn [negb].
      * split; [|intros _; eexists; reflexivity].
        intros _. split; [intros n E; discriminate|reflexivity].
      * split; [intros [self H]; discriminate|].
        intros [_ H]. exfalso. apply HK, H. right. reflexivity.
    + split; [|intros _; eexists; reflexivity].
      intros _. split; [intros n E; discriminate|intros [E|E]; discriminate].
    + split; [|intros _; eexists; reflexivity].
      intros _. split; [intros n E; discriminate|intros [E|E]; discriminate].
Qed.

(** X18: the outcome of [StateAugmentation.__init__].  It raises
    [ValueError] exactly for a name other than "dihedral8" and
    "symmetric"; it raises [AssertionError] exactly when [num_augment] is
    not 8 and the augmentation is the dihedral wrapper, given by its name
    or as the function itself; in every other case, and in no other, it
    returns, and the object it returns holds the arguments, with
    [["locs"]] for [feats=None]. *)
Theorem StateAugmentation_init_outcome (K : Z) (fn : augment_fn_arg)
    (fai norm : bool) (feats_arg : option (list string)) :
  (StateAugmentation_init K fn fai norm feats_arg = Err ValueError
   <-> exists name, fn = by_name name /\
                    name <> "dihedral8"%string /\ name <> "symmetric"%string) /\
  (StateAugmentation_init K fn fai norm feats_arg = Err AssertionError
   <-> (fn = by_name "dihedral8" \/ fn = by_callable dihedral8_fn) /\
       K <> 8%Z) /\
  ((exists self, StateAugmentation_init K fn fai norm feats_arg = Ok self)
   <-> (forall name, fn = by_name name ->
                     name = "dihedral8"%string \/ name = "symmetric"%string) /\
       (fn = by_name "dihedral8" \/ fn = by_callable dihedral8_fn ->
        K = 8%Z)) /\
  (forall self,
      StateAugmentation_init K fn fai norm feats_arg = Ok self ->
      get_augment_function fn = Ok (augmentation_of self) /\
      num_augment self = K /\ normalize self = norm /\
      first_aug_identity self = fai /\
      feats self = default ["locs"%string] feats_arg).
Proof.
  destruct (StateAugmentation_init_errors K fn fai norm feats_arg)
    as (H1 & H2 & H3).
  split; [exact H1|]. split; [exact H2|].
  split; [apply StateAugmentation_init_returns|exact H3].
Qed.

End Construction.

Section CallShape.

Context {dtype : Dtype}.

(** ** What every call that returns has done *)

Lemma batchify_batch_size (td : TensorDict) (K : Z) :
  (1 <= K)%Z -> batch_size (batchify td K) = (Z.to_nat K * batch_size td)%nat.
Proof.
  intros HK. unfold batchify. destruct (decide (0 < K)%Z); [reflexivity|lia].
Qed.

Lemma batchify_entries (td : TensorDict) (K : Z) (f : string) :
  (1 <= K)%Z ->
  entries (batchify td K) !! f = tile (Z.to_nat K) <$> entries td !! f.
Proof.
  intros HK. unfold batchify. destruct (decide (0 < K)%Z); [|lia].
  cbn [entries]. apply lookup_fmap.
Qed.

Lemma batchify_is_Some (td : TensorDict) (K : Z) (f : string) :
  is_Some (entries (batchify td K) !! f) <-> is_Some (entries td !! f).
Proof.
  unfold batchify. destruct (decide (0 < K)%Z); [|reflexivity].
  cbn [entries]. rewrite lookup_fmap. apply fmap_is_Some.
Qed.

(** What a run of the loop that returns leaves behind. *)
Lemma for_each_Ok (self : StateAugmentation) (td : TensorDict)
    (l : list string) :
  forall (td_aug out : TensorDict) (g g' : rng),
    for_each (augment_feat self td) (td_aug, g) l = Ok (out, g') ->
    batch_size out = batch_size td_aug /\
    (forall f, f ∉ l -> entries out !! f = entries td_aug !! f) /\
    (forall f, is_Some (entries out !! f) <-> is_Some (entries td_aug !! f)) /\
    (forall f, f ∈ l ->
               exists r, entries out !! f = Some r /\
                         length r = batch_size td_aug) /\
    (forall f, f ∈ l ->
               exists p, identity_slot td_aug (batch_size td) f = Ok p).
Proof.
  induction l as [|feat l IH]; intros td_aug out g g' H.
  - injection H as <- <-. split; [reflexivity|]. split; [reflexivity|].
    split; [reflexivity|].
    split; intros f Hf; apply elem_of_nil in Hf; contradiction.
  - cbn [for_each] in H.
    destruct (augment_feat self td (td_aug, g) feat) as [[td1 g1]|] eqn:Hstep;
      [|discriminate].
    cbn [mbind result_bind] in H.
    apply augment_feat_Ok in Hstep
      as (t & aug & aug_n & aug_r & p & Ht & Hp & _ & _ & _ & Hlen & ->).
    apply IH in H as (Hsize & Hframe & Hkeys & Hrows & Hslots).
    cbn [batch_size entries] in *.
    split; [exact Hsize|]. split; [|split; [|split]].
    + intros f Hf. apply not_elem_of_cons in Hf as [Hne Hf].
      rewrite (Hframe f Hf). apply lookup_insert_ne. congruence.
    + intros f. rewrite Hkeys.
      destruct (decide (f = feat)) as [->|Hne].
      * rewrite lookup_insert_eq, Ht. split; intros _; eexists; reflexivity.
      * rewrite lookup_insert_ne by congruence. reflexivity.
    + intros f Hf.
      destruct (decide (f ∈ l)) as [Hin|Hnin]; [apply Hrows; exact Hin|].
      apply elem_of_cons in Hf as [->|Hf]; [|contradiction].
      rewrite (Hframe feat Hnin), lookup_insert_eq.
      exists aug_r. split; [reflexivity|exact Hlen].
    + intros f Hf.
      destruct (decide (f = feat)) as [->|Hne].
      * exists p. unfold identity_slot, td_getitem. rewrite Ht. exact Hp.
      * apply elem_of_cons in Hf as [->|Hf]; [contradiction|].
        destruct (Hslots f Hf) as [q Hq]. exists q.
        unfold identity_slot, td_getitem in *. cbn [entries] in Hq.
        rewrite lookup_insert_ne in Hq by congruence. exact Hq.
Qed.

(** X19: what [__call__] needs in order to return.  Every feature of
    [feats] is a key of the batch; and for a feature whose tensor has
    [batch_size] rows, there are at least two augmentations, the batch is
    not empty and its first instance has a node. *)
Theorem call_returns_only_if (self : StateAugmentation) (td out : TensorDict)
    (g g' : rng) (feat : string) :
  StateAugmentation_call self td g = Ok (out, g') ->
  feat ∈ feats self ->
  exists t : Tensor,
    entries td !! feat = Some t /\
    (length t = batch_size td ->
     (2 <= num_augment self)%Z /\ exists p, getitem2 t 0 0 = Ok p).
Proof.
  unfold StateAugmentation_call. intros H Hin.
  apply for_each_Ok in H as (_ & _ & _ & _ & Hslots).
  destruct (Hslots feat Hin) as [p Hp].
  assert (Hsome : is_Some (entries td !! feat)).
  { apply (batchify_is_Some td (num_augment self)).
    unfold identity_slot, td_getitem in Hp.
    destruct (entries (batchify td (num_augment self)) !! feat);
      [eexists; reflexivity|discriminate]. }
  destruct Hsome as [t Ht]. exists t. split; [exact Ht|].
  intros Hlen.
  destruct (batchify_identity_slot td _ feat t p Ht Hlen Hp) as [HK Hget].
  split; [exact HK|]. exists p. exact Hget.
Qed.

(** X20: a call that returns keeps the tensor dictionary in shape.  With
    at least one augmentation the batch size of the result is
    [num_augment] times that of the input; the result has the keys of the
    input; and when every entry of the input has [batch_size] rows, every
    entry of the result has the new batch size of rows. *)
Theorem call_keeps_shape (self : StateAugmentation) (td out : TensorDict)
    (g g' : rng) :
  StateAugmentation_call self td g = Ok (out, g') ->
  (1 <= num_augment self)%Z ->
  batch_size out = (Z.to_nat (num_augment self) * batch_size td)%nat /\
  (forall f, is_Some (entries out !! f) <-> is_Some (entries td !! f)) /\
  (td_wf td -> td_wf out).
Proof.
  unfold StateAugmentation_call. intros H HK.
  apply for_each_Ok in H as (Hsize & Hframe & Hkeys & Hrows & _).
  rewrite batchify_batch_size in * by exact HK.
  split; [exact Hsize|]. split.
  - intros f. rewrite Hkeys. apply batchify_is_Some.
  - intros Hwf f r Hr. rewrite Hsize.
    destruct (decide (f ∈ feats self)) as [Hin|Hnin].
    + destruct (Hrows f Hin) as (r' & Hr' & Hlen). congruence.
    + rewrite (Hframe f Hnin), batchify_entries in Hr by exact HK.
      destruct (entries td !! f) as [t|] eqn:Ht; [|discriminate].
      injection Hr as <-. rewrite tile_length. f_equal.
      exact (Hwf f t Ht).
Qed.


Lemma tile_nil {A : Type} (n : nat) : tile n ([] : list A) = [].
Proof. unfold tile. induction n as [|n IH]; [reflexivity|exact IH]. Qed.

Lemma tile_one {A : Type} (x : list A) : tile 1 x = x.
Proof. unfold tile. cbn [replicate concat]. apply app_nil_r. Qed.

(** Row [batch] of the tiled batch. *)
Lemma tile_second_copy {A : Type} (n : nat) (x : list A) :
  (2 <= n)%nat -> (0 < length x)%nat -> tile n x !! length x = x !! 0%nat.
Proof.
  intros Hn Hx. pose proof (tile_lookup n x 1 0 ltac:(lia) Hx) as H.
  replace (1 * length x + 0)%nat with (length x) in H by lia. exact H.
Qed.

(** X22: the exceptions of [__call__] at the first feature of [feats],
    with at least one augmentation.  A feature that is not a key of the
    batch raises [KeyError]; a feature of [batch_size] rows raises
    [IndexError] when there is one augmentation only, when the batch is
    empty, or when its instances have no node. *)
Theorem call_first_feature_raises (self : StateAugmentation) (td : TensorDict)
    (g : rng) (feat : string) (rest : list string) :
  feats self = feat :: rest ->
  (1 <= num_augment self)%Z ->
  (entries td !! feat = None ->
   StateAugmentation_call self td g = Err KeyError) /\
  (forall t : Tensor,
      entries td !! feat = Some t -> length t = batch_size td ->
      num_augment self = 1%Z \/ t = [] \/ t !! 0%nat = Some [] ->
      StateAugmentation_call self td g = Err IndexError).
Proof.
  intros Hfeats HK. unfold StateAugmentation_call. rewrite Hfeats.
  cbn [for_each]. unfold augment_feat, td_getitem.
  rewrite batchify_entries by exact HK. split.
  - intros ->. reflexivity.
  - intros t -> Hlen Hcase.
    cbn [fmap option_fmap option_map mbind result_bind].
    assert (Hget : getitem2 (tile (Z.to_nat (num_augment self)) t)
                     (batch_size td) 0 = Err IndexError).
    { unfold getitem2. rewrite <- Hlen.
      destruct (decide (num_augment self = 1%Z)) as [E|Hne].
      - rewrite E. change (Z.to_nat 1) with 1%nat. rewrite tile_one.
        rewrite (lookup_ge_None_2 t (length t)) by lia. reflexivity.
      - destruct Hcase as [E|[->|Hrow]]; [contradiction| |].
        + rewrite tile_nil. reflexivity.
        + rewrite tile_second_copy;
            [|lia|apply lookup_lt_Some in Hrow; exact Hrow].
          rewrite Hrow. reflexivity. }
    rewrite Hget. reflexivity.
Qed.


End CallShape.

Section CallShapeExamples.

#[local] Existing Instance float32.

Lemma call_returns_only_if_witness :
  exists t : Tensor,
    entries (locs_td [[(Fin 0, Fin 0)]]) !! "locs"%string = Some t /\
    (length t = batch_size (locs_td [[(Fin 0, Fin 0)]]) ->
     (2 <= num_augment (configured 2 one_minus false))%Z /\
     exists p, getitem2 t 0 0 = Ok p).
Proof.
  apply (call_returns_only_if (configured 2 one_minus false)
           (locs_td [[(Fin 0, Fin 0)]]) _ zero_draws zero_draws "locs"
           (call_one_minus float32_valid_format)).
  apply list_elem_of_here.
Defined.

Lemma call_keeps_shape_witness :
  batch_size
    {| batch_size := 2;
       entries := <["locs"%string :=
                      [[(Fin 1, Fin 1)]; [(Fin 0, Fin 0)]]]>
                    {[ "locs"%string :=
                         [[(Fin 0, Fin 0)]; [(Fin 0, Fin 0)]] ]} |}
  = (Z.to_nat (num_augment (configured 2 one_minus false))
     * batch_size (locs_td [[(Fin 0, Fin 0)]]))%nat /\
  (forall f,
      is_Some (entries
                 {| batch_size := 2;
                    entries := <["locs"%string :=
                                   [[(Fin 1, Fin 1)];
                                    [(Fin 0, Fin 0)]]]>
                                 {[ "locs"%string :=
                                      [[(Fin 0, Fin 0)]; [(Fin 0, Fin 0)]] ]} |}
               !! f)
      <-> is_Some (entries (locs_td [[(Fin 0, Fin 0)]]) !! f)) /\
  (td_wf (locs_td [[(Fin 0, Fin 0)]]) ->
   td_wf
     {| batch_size := 2;
        entries := <["locs"%string :=
                       [[(Fin 1, Fin 1)]; [(Fin 0, Fin 0)]]]>
                     {[ "locs"%string :=
                          [[(Fin 0, Fin 0)]; [(Fin 0, Fin 0)]] ]} |}).
Proof.
  apply (call_keeps_shape (configured 2 one_minus false)
           (locs_td [[(Fin 0, Fin 0)]]) _ zero_draws zero_draws
           (call_one_minus float32_valid_format)).
  cbn [num_augment configured]. lia.
Defined.


Lemma call_first_feature_raises_witness :
  (entries (locs_td [[(Fin 0, Fin 0)]]) !! "locs"%string = None ->
   StateAugmentation_call (configured 1 symmetric_fn false)
     (locs_td [[(Fin 0, Fin 0)]]) zero_draws = Err KeyError) /\
  (forall t : Tensor,
      entries (locs_td [[(Fin 0, Fin 0)]]) !! "locs"%string = Some t ->
      length t = batch_size (locs_td [[(Fin 0, Fin 0)]]) ->
      num_augment (configured 1 symmetric_fn false) = 1%Z \/ t = []
      \/ t !! 0%nat = Some [] ->
      StateAugmentation_call (configured 1 symmetric_fn false)
        (locs_td [[(Fin 0, Fin 0)]]) zero_draws = Err IndexError).
Proof.
  apply (call_first_feature_raises (configured 1 symmetric_fn false)
           (locs_td [[(Fin 0, Fin 0)]]) zero_draws "locs" []).
  - reflexivity.
  - cbn [num_augment configured]. lia.
Defined.

End CallShapeExamples.

Section CallAugmentations.

Context {dtype : Dtype}.

(** The loop of [__call__] under an invariant [I] of the entries still to
    be processed and a property [J] of the processed ones. *)
Lemma for_each_invariant (self : StateAugmentation) (td : TensorDict)
    (I J : string -> Tensor -> Prop) (N : nat) :
  (forall feat s, J feat s -> I feat s) ->
  (forall feat s td_aug g,
      entries td_aug !! feat = Some s -> batch_size td_aug = N -> I feat s ->
      exists r g1,
        augment_feat self td (td_aug, g) feat
        = Ok ({| batch_size := N;
                 entries := <[feat := r]> (entries td_aug) |}, g1) /\
        J feat r) ->
  forall (l : list string) (td_aug : TensorDict) (g : rng),
    batch_size td_aug = N ->
    (forall feat, feat ∈ l ->
                  exists s, entries td_aug !! feat = Some s /\ I feat s) ->
    exists out g',
      for_each (augment_feat self td) (td_aug, g) l = Ok (out, g') /\
      forall feat, feat ∈ l ->
                   exists r, entries out !! feat = Some r /\ J feat r.
Proof.
  intros HJI Hstep. induction l as [|feat l IH]; intros td_aug g HN Hl.
  - exists td_aug, g. split; [reflexivity|].
    intros feat Hin. apply elem_of_nil in Hin. contradiction.
  - destruct (Hl feat (list_elem_of_here _ _)) as (s & Hs & HI).
    destruct (Hstep feat s td_aug g Hs HN HI) as (r & g1 & Hrun & HJ).
    cbn [for_each]. rewrite Hrun. cbn [mbind result_bind].
    destruct (IH {| batch_size := N;
                    entries := <[feat := r]> (entries td_aug) |} g1)
      as (out & g' & Hout & Hall); [reflexivity| |].
    + intros f Hf. cbn [entries].
      destruct (decide (f = feat)) as [->|Hne].
      * exists r. rewrite lookup_insert_eq. split; [reflexivity|].
        apply HJI. exact HJ.
      * rewrite lookup_insert_ne by congruence.
        apply Hl. apply list_elem_of_further. exact Hf.
    + exists out, g'. split; [exact Hout|].
      intros f Hf.
      destruct (decide (f ∈ l)) as [Hin|Hnin]; [apply Hall; exact Hin|].
      apply elem_of_cons in Hf as [->|Hf]; [|contradiction].
      apply for_each_Ok in Hout as (_ & Hframe & _).
      rewrite (Hframe feat Hnin). cbn [entries]. rewrite lookup_insert_eq.
      exists r. split; [reflexivity|exact HJ].
Qed.

(** ** [__call__] with the dihedral augmentation *)

Lemma dihedral_8_augmentation_take (t : Tensor) :
  take (length t) (dihedral_8_augmentation t) = t.
Proof.
  pose proof (dihedral_identity_slice t) as H. unfold batch_slice in H.
  rewrite drop_0 in H. exact H.
Qed.

Lemma wrapper_of_leading (s t : Tensor) :
  length s = (8 * length t)%nat -> take (length t) s = t ->
  dihedral_8_augmentation_wrapper s true = dihedral_8_augmentation t.
Proof.
  intros Hlen Htake. unfold dihedral_8_augmentation_wrapper.
  rewrite slice_to_eighth, Hlen.
  replace (8 * length t / 8)%nat with (length t)
    by (rewrite Nat.mul_comm, Nat.div_mul; lia).
  rewrite Htake. reflexivity.
Qed.

(** Row [batch] of the augmentation is the second image of instance 0. *)
Lemma dihedral_8_augmentation_second (t : Tensor) (row0 : list point) :
  t !! 0%nat = Some row0 ->
  dihedral_8_augmentation t !! length t
  = Some ((fun p : point => (fsub (Fin 1) p.1, p.2)) <$> row0).
Proof.
  intros Hrow.
  pose proof (dihedral_8_augmentation_row t 1 0 _ eq_refl
                ltac:(apply lookup_lt_Some in Hrow; exact Hrow)) as H.
  replace (1 * length t + 0)%nat with (length t) in H by lia.
  etransitivity; [exact H|]. rewrite Hrow. reflexivity.
Qed.

Lemma getitem2_Ok (t : Tensor) (i j : nat) (p : point) :
  getitem2 t i j = Ok p <->
  exists row, t !! i = Some row /\ row !! j = Some p.
Proof.
  unfold getitem2. split.
  - destruct (t !! i) as [row|]; [|discriminate].
    destruct (row !! j) as [q|] eqn:Hq; [|discriminate].
    intros H. injection H as <-. exists row. auto.
  - intros (row & -> & ->). reflexivity.
Qed.

Lemma setitem2_Ok (t : Tensor) (i j : nat) (p q : point) (row : list point) :
  t !! i = Some row -> row !! j = Some q ->
  setitem2 t i j p = Ok (<[i := <[j := p]> row]> t).
Proof. intros Hrow Hq. unfold setitem2. rewrite Hrow, Hq. reflexivity. Qed.

Lemma setitem2_take (t r : Tensor) (i j : nat) (p : point) :
  setitem2 t i j p = Ok r -> length r = length t /\ take i r = take i t.
Proof.
  unfold setitem2. intros H.
  destruct (t !! i) as [row|]; [|discriminate].
  destruct (row !! j); [|discriminate]. injection H as <-.
  split; [apply length_insert|]. apply take_insert_ge. lia.
Qed.

(** The restored augmentation exists for a batch with a first node. *)
Lemma dihedral_restore (t : Tensor) (p : point) :
  getitem2 t 0 0 = Ok p ->
  exists r0 q,
    getitem2 (dihedral_8_augmentation t) (length t) 0 = Ok q /\
    setitem2 (dihedral_8_augmentation t) (length t) 0 p = Ok r0.
Proof.
  intros Hp. apply getitem2_Ok in Hp as (row0 & Hrow0 & Hp).
  pose proof (dihedral_8_augmentation_second t row0 Hrow0) as Hrow.
  assert (Hq : ((fun p : point => (fsub (Fin 1) p.1, p.2)) <$> row0) !! 0%nat
               = Some (fsub (Fin 1) p.1, p.2)).
  { apply list_lookup_fmap_Some. exists p. split; [reflexivity|exact Hp]. }
  eexists _, _. split.
  - apply getitem2_Ok. eexists. split; [exact Hrow|exact Hq].
  - eapply setitem2_Ok; [exact Hrow|exact Hq].
Qed.

(** X23: [__call__] with the dihedral augmentation, 8 augmentations and no
    normalisation.  When every feature of [feats] is a tensor of
    [batch_size] rows whose first instance has a node, the call returns,
    and every such feature of the result is the dihedral augmentation of
    the original tensor, with the entry [[batch, 0]] replaced by the first
    node of the original when [first_aug_identity] is set.  A feature that
    is listed twice gives the same result. *)
Theorem call_dihedral8 (self : StateAugmentation) (td : TensorDict) (g : rng) :
  augmentation_of self = dihedral8_fn ->
  num_augment self = 8%Z ->
  normalize self = false ->
  (forall feat, feat ∈ feats self ->
                exists t p, entries td !! feat = Some t /\
                            length t = batch_size td /\
                            getitem2 t 0 0 = Ok p) ->
  exists out g',
    StateAugmentation_call self td g = Ok (out, g') /\
    forall feat, feat ∈ feats self ->
      exists t p r0,
        entries td !! feat = Some t /\
        getitem2 t 0 0 = Ok p /\
        setitem2 (dihedral_8_augmentation t) (batch_size td) 0 p = Ok r0 /\
        entries out !! feat
        = Some (if first_aug_identity self then r0
                else dihedral_8_augmentation t).
Proof.
  intros Haug HK Hnorm Hfeats. unfold StateAugmentation_call.
  set (B := batch_size td).
  set (J := fun (feat : string) (r : Tensor) =>
              exists t p r0,
                entries td !! feat = Some t /\ length t = B /\
                getitem2 t 0 0 = Ok p /\
                setitem2 (dihedral_8_augmentation t) B 0 p = Ok r0 /\
                r = if first_aug_identity self then r0
                    else dihedral_8_augmentation t).
  set (I := fun (feat : string) (s : Tensor) =>
              J feat s \/
              exists t p, entries td !! feat = Some t /\ length t = B /\
                          getitem2 t 0 0 = Ok p /\ s = tile 8 t).
  destruct (for_each_invariant self td I J (8 * B)) with
    (l := feats self) (td_aug := batchify td (num_augment self)) (g := g)
    as (out & g' & Hrun & Hall).
  - intros feat s HJ. left. exact HJ.
  - intros feat s td_aug g0 Hs HN HI.
    assert (Hcur : exists t p r0 q,
               entries td !! feat = Some t /\ length t = B /\
               getitem2 t 0 0 = Ok p /\
               setitem2 (dihedral_8_augmentation t) B 0 p = Ok r0 /\
               length s = (8 * length t)%nat /\ take (length t) s = t /\
               getitem2 s B 0 = Ok q /\
               (first_aug_identity self = true -> q = p)).
    { destruct HI as [(t & p & r0 & Ht & Hlen & Hp & Hr0 & ->)
                     |(t & p & Ht & Hlen & Hp & ->)].
      - destruct (dihedral_restore t p Hp) as (r0' & q & Hq & Hr0').
        rewrite Hlen in Hq, Hr0'.
        destruct (setitem2_take _ _ _ _ _ Hr0) as [Hl0 Ht0].
        destruct (first_aug_identity self) eqn:Hid.
        + exists t, p, r0, p. repeat split; try assumption.
          * rewrite Hl0. apply dihedral_8_augmentation_length.
          * rewrite Hlen, Ht0, <- Hlen. apply dihedral_8_augmentation_take.
          * eapply setitem2_getitem2. exact Hr0.
        + exists t, p, r0, q. repeat split; try assumption.
          * apply dihedral_8_augmentation_length.
          * apply dihedral_8_augmentation_take.
          * discriminate.
      - destruct (dihedral_restore t p Hp) as (r0 & q & _ & Hr0).
        rewrite Hlen in Hr0.
        exists t, p, r0, p. repeat split; try assumption.
        + apply tile_length.
        + apply take_tile.
        + apply getitem2_Ok in Hp as (row0 & Hrow0 & Hp).
          apply getitem2_Ok. exists row0. split; [|exact Hp].
          rewrite <- Hlen. rewrite tile_second_copy; [exact Hrow0|lia|].
          apply lookup_lt_Some in Hrow0. exact Hrow0. }
    destruct Hcur as (t & p & r0 & q & Ht & Hlen & Hp & Hr0 & Hls & Htk & Hq & Hqp).
    exists (if first_aug_identity self then r0 else dihedral_8_augmentation t), g0.
    split.
    + rewrite <- HN.
      apply (augment_feat_eval self td td_aug g0 g0 feat s
               (dihedral_8_augmentation t) (dihedral_8_augmentation t) _ q).
      * exact Hs.
      * exact Hq.
      * rewrite Haug, HK. cbn [apply_augmentation].
        change (truthy 8) with true.
        rewrite (wrapper_of_leading s t Hls Htk). reflexivity.
      * rewrite Hnorm. reflexivity.
      * destruct (first_aug_identity self); [|reflexivity].
        rewrite (Hqp eq_refl). exact Hr0.
      * rewrite HN. destruct (first_aug_identity self).
        -- destruct (setitem2_take _ _ _ _ _ Hr0) as [Hl0 _].
           rewrite Hl0, dihedral_8_augmentation_length, Hlen. reflexivity.
        -- rewrite dihedral_8_augmentation_length, Hlen. reflexivity.
    + exists t, p, r0. repeat split; assumption.
  - rewrite HK. apply batchify_batch_size. lia.
  - intros feat Hin. destruct (Hfeats feat Hin) as (t & p & Ht & Hlen & Hp).
    exists (tile 8 t). split.
    + rewrite HK, batchify_entries, Ht by lia. reflexivity.
    + right. exists t, p. repeat split; assumption.
  - exists out, g'. split; [exact Hrun|].
    intros feat Hin.
    destruct (Hall feat Hin) as (r & Hr & t & p & r0 & Ht & _ & Hp & Hr0 & ->).
    exists t, p, r0. repeat split; assumption.
Qed.


(** ** [__call__] with the symmetric augmentation *)

Lemma on_grid_moderate (p : point) :
  valid_format -> on_grid_point p -> moderate_point p.
Proof.
  intros V. pose proof V as [Hp He].
  assert (H1 : dyadic (2 ^ prec) (- prec) = 1) by (apply bpow_prec_inv; lia).
  assert (Hm : forall v, on_grid v -> moderate v).
  { intros v (k & Hk & ->). eexists. split; [reflexivity|].
    assert (L : dyadic 0 (- prec) <= dyadic k (- prec))
      by (apply dyadic_le; lia).
    assert (U : dyadic k (- prec) <= dyadic (2 ^ prec) (- prec))
      by (apply dyadic_le; lia).
    rewrite dyadic_0 in L. rewrite H1 in U.
    assert (1 <= bpow (emax - 2)) by (apply bpow_ge_1; lia).
    apply Rabs_le. lra. }
  intros [Ha Hb]. split; apply Hm; assumption.
Qed.

(** The rows before [batch // num_augment] come back unchanged when
    their coordinates are on the grid. *)
Lemma symmetric_augmentation_leading (xy out : Tensor) (K : Z) (g g' : rng)
    (i : nat) (row : list point) :
  valid_format -> valid_trig ->
  symmetric_augmentation xy K false g = Ok (out, g') ->
  (Z.of_nat i < Z.of_nat (length xy) / K)%Z ->
  xy !! i = Some row -> Forall on_grid_point row ->
  out !! i = Some row.
Proof.
  intros V VT H Hi Hrow Hgrid.
  assert (HK : K <> 0%Z).
  { intros ->. rewrite Z.div_0_r in Hi. lia. }
  rewrite (symmetric_augmentation_reset xy K g HK) in H.
  injection H as <- _.
  assert (Hlen : (i < length xy)%nat) by (eapply floordiv_leading; exact Hi).
  rewrite symmetric_transform_tensor, lookup_zip_with.
  rewrite slice_fill_lookup;
    [|exact Hi|rewrite !length_fmap, length_seq; exact Hlen].
  cbn [mbind option_bind]. rewrite Hrow. cbn [mbind option_bind]. f_equal.
  unfold default_offset. rewrite symmetric_row_zero; try assumption.
  - clear Hrow. induction Hgrid as [|p row Hp _ IH]; [reflexivity|].
    cbn [fmap list_fmap]. rewrite (on_grid_recentre_point p V Hp).
    f_equal. exact IH.
  - eapply Forall_impl; [exact Hgrid|]. intros p. apply on_grid_moderate, V.
Qed.

Lemma take_tile_pos {A : Type} (n : nat) (x : list A) :
  (1 <= n)%nat -> take (length x) (tile n x) = x.
Proof. intros Hn. destruct n as [|n]; [lia|]. apply take_tile. Qed.

(** A node of one tensor is a node of any tensor of the same shape. *)
Lemma getitem2_same_shape (s t : Tensor) (i j : nat) (q : point) :
  length <$> s = length <$> t -> getitem2 t i j = Ok q ->
  exists p, getitem2 s i j = Ok p.
Proof.
  intros Hshape Hq. apply getitem2_Ok in Hq as (row & Hrow & Hq).
  assert (Hl : (length <$> s) !! i = Some (length row))
    by (rewrite Hshape, list_lookup_fmap, Hrow; reflexivity).
  rewrite list_lookup_fmap in Hl.
  destruct (s !! i) as [srow|] eqn:Hsrow; [|discriminate].
  injection Hl as Hl.
  destruct (lookup_lt_is_Some_2 srow j) as [p Hp].
  { rewrite Hl. eapply lookup_lt_Some. exact Hq. }
  exists p. apply getitem2_Ok. exists srow. auto.
Qed.

(** X24: [__call__] with the symmetric augmentation, at least two
    augmentations and no normalisation.  When every feature of [feats] is
    a tensor of [batch_size] rows whose coordinates are multiples of
    [2 ^ - prec] in the unit interval and whose first instance has a
    node, the call returns whatever the draws, every such feature of the
    result has [num_augment * batch_size] rows, its leading [batch_size]
    rows, replica 0, are the original tensor, and with
    [first_aug_identity] its entry [[batch, 0]] is the first node of the
    original. *)
Theorem call_symmetric (self : StateAugmentation) (td : TensorDict) (g : rng) :
  valid_format -> valid_trig ->
  augmentation_of self = symmetric_fn ->
  normalize self = false ->
  (2 <= num_augment self)%Z ->
  (forall feat, feat ∈ feats self ->
                exists t p, entries td !! feat = Some t /\
                            length t = batch_size td /\
                            Forall (Forall on_grid_point) t /\
                            getitem2 t 0 0 = Ok p) ->
  exists out g',
    StateAugmentation_call self td g = Ok (out, g') /\
    forall feat, feat ∈ feats self ->
      exists t r,
        entries td !! feat = Some t /\
        entries out !! feat = Some r /\
        length r = (Z.to_nat (num_augment self) * batch_size td)%nat /\
        take (batch_size td) r = t /\
        (first_aug_identity self = true ->
         getitem2 r (batch_size td) 0 = getitem2 t 0 0).
Proof.
  intros V VT Haug Hnorm HK Hfeats. unfold StateAugmentation_call.
  set (B := batch_size td). set (K := Z.to_nat (num_augment self)).
  assert (HK2 : (2 <= K)%nat) by (unfold K; lia).
  set (I := fun (feat : string) (s : Tensor) =>
              exists t p q,
                entries td !! feat = Some t /\ length t = B /\
                Forall (Forall on_grid_point) t /\
                getitem2 t 0 0 = Ok p /\
                length s = (K * B)%nat /\ take B s = t /\
                getitem2 s B 0 = Ok q /\
                (first_aug_identity self = true -> q = p)).
  destruct (for_each_invariant self td I I (K * B)) with
    (l := feats self) (td_aug := batchify td (num_augment self)) (g := g)
    as (out & g' & Hrun & Hall).
  - intros feat s HI. exact HI.
  - intros feat s td_aug g0 Hs HN
      (t & p & q & Ht & Hlen & Hgrid & Hp & Hls & Htk & Hq & Hqp).
    destruct (symmetric_augmentation s (num_augment self) false g0)
      as [[aug g1]|] eqn:Hsym.
    2:{ exfalso.
        destruct (symmetric_augmentation_nonzero s (num_augment self) g0)
          as [r Hr]; [lia|]. congruence. }
    pose proof (symmetric_augmentation_Ok_shape _ _ _ _ _ _ Hsym)
      as (Hlaug & Hshape & _).
    assert (Hpos : (0 < B)%nat).
    { apply getitem2_Ok in Hp as (row0 & Hrow0 & _).
      apply lookup_lt_Some in Hrow0. lia. }
    assert (Htaug : take B aug = t).
    { rewrite <- Htk. apply list_eq. intros i.
      destruct (decide (i < B)%nat) as [Hi|Hi].
      - rewrite !lookup_take_lt by exact Hi.
        destruct (lookup_lt_is_Some_2 s i) as [row Hrow]; [nia|].
        rewrite Hrow.
        apply (symmetric_augmentation_leading s aug _ g0 g1 i row V VT Hsym).
        + rewrite Hls.
          replace (Z.of_nat (K * B) / num_augment self)%Z with (Z.of_nat B);
            [lia|].
          unfold K. rewrite Nat2Z.inj_mul, Z2Nat.id by lia.
          rewrite Z.mul_comm, Z.div_mul by lia. reflexivity.
        + exact Hrow.
        + eapply Forall_lookup_1; [exact Hgrid|].
          rewrite <- Htk. rewrite lookup_take_lt by exact Hi. exact Hrow.
      - rewrite !lookup_take_ge by lia. reflexivity. }
    destruct (getitem2_same_shape aug s B 0 q Hshape Hq) as [qa Hqa].
    destruct (first_aug_identity self) eqn:Hid.
    + apply getitem2_Ok in Hqa as (rowa & Hrowa & Hqa).
      pose proof (setitem2_Ok aug B 0 q qa rowa Hrowa Hqa) as Hset.
      destruct (setitem2_take _ _ _ _ _ Hset) as [Hlr Htr].
      exists (<[B := <[0%nat := q]> rowa]> aug), g1. split.
      * rewrite <- HN.
        apply (augment_feat_eval self td td_aug g0 g1 feat s aug aug _ q).
        -- exact Hs.
        -- exact Hq.
        -- rewrite Haug. exact Hsym.
        -- rewrite Hnorm. reflexivity.
        -- rewrite Hid. exact Hset.
        -- rewrite HN, Hlr, Hlaug. exact Hls.
      * exists t, p, q. repeat split; try assumption.
        -- rewrite Hlr, Hlaug. exact Hls.
        -- rewrite Htr. exact Htaug.
        -- eapply setitem2_getitem2. exact Hset.
    + exists aug, g1. split.
      * rewrite <- HN.
        apply (augment_feat_eval self td td_aug g0 g1 feat s aug aug _ q).
        -- exact Hs.
        -- exact Hq.
        -- rewrite Haug. exact Hsym.
        -- rewrite Hnorm. reflexivity.
        -- rewrite Hid. reflexivity.
        -- rewrite HN, Hlaug. exact Hls.
      * exists t, p, qa. repeat split; try assumption.
        -- rewrite Hlaug. exact Hls.
        -- discriminate.
  - apply batchify_batch_size. lia.
  - intros feat Hin.
    destruct (Hfeats feat Hin) as (t & p & Ht & Hlen & Hgrid & Hp).
    fold B in Hlen.
    exists (tile K t). split.
    + rewrite batchify_entries, Ht by lia. reflexivity.
    + exists t, p, p. repeat split; try assumption.
      * rewrite tile_length, Hlen. reflexivity.
      * rewrite <- Hlen. apply take_tile_pos. lia.
      * apply getitem2_Ok in Hp as (row0 & Hrow0 & Hp).
        apply getitem2_Ok. exists row0. split; [|exact Hp].
        rewrite <- Hlen. rewrite tile_second_copy; [exact Hrow0|exact HK2|].
        apply lookup_lt_Some in Hrow0. exact Hrow0.
  - exists out, g'. split; [exact Hrun|].
    intros feat Hin.
    destruct (Hall feat Hin)
      as (r & Hr & t & p & q & Ht & Hlen & Hgrid & Hp & Hlr & Htr & Hq & Hqp).
    exists t, r. repeat split; try assumption.
    intros Hid. rewrite Hq, Hp, (Hqp Hid). reflexivity.
Qed.

End CallAugmentations.

Section CallAugmentationsExamples.

#[local] Existing Instance float32.

Lemma call_dihedral8_witness :
  exists out g',
    StateAugmentation_call
      {| augmentation_of := dihedral8_fn; feats := ["locs"%string];
         num_augment := 8; normalize := false; first_aug_identity := true |}
      (locs_td [[(Fin 0, Fin 0)]]) zero_draws = Ok (out, g') /\
    forall feat,
      feat ∈ ["locs"%string] ->
      exists t p r0,
        entries (locs_td [[(Fin 0, Fin 0)]]) !! feat = Some t /\
        getitem2 t 0 0 = Ok p /\
        setitem2 (dihedral_8_augmentation t) 1 0 p = Ok r0 /\
        entries out !! feat = Some (if true then r0
                                    else dihedral_8_augmentation t).
Proof.
  apply (call_dihedral8
           {| augmentation_of := dihedral8_fn; feats := ["locs"%string];
              num_augment := 8; normalize := false;
              first_aug_identity := true |}
           (locs_td [[(Fin 0, Fin 0)]]) zero_draws); try reflexivity.
  intros feat Hin. apply list_elem_of_singleton in Hin as ->.
  exists [[(Fin 0, Fin 0)]], (Fin 0, Fin 0). repeat split.
Defined.


Lemma call_symmetric_witness :
  exists out g',
    StateAugmentation_call (configured 2 symmetric_fn false)
      (locs_td [[(Fin 1, Fin 0)]]) (fun _ => 3 * 2 ^ 22)%Z = Ok (out, g') /\
    forall feat,
      feat ∈ feats (configured 2 symmetric_fn false) ->
      exists t r,
        entries (locs_td [[(Fin 1, Fin 0)]]) !! feat = Some t /\
        entries out !! feat = Some r /\
        length r
        = (Z.to_nat (num_augment (configured 2 symmetric_fn false))
           * batch_size (locs_td [[(Fin 1, Fin 0)]]))%nat /\
        take (batch_size (locs_td [[(Fin 1, Fin 0)]])) r = t /\
        (first_aug_identity (configured 2 symmetric_fn false) = true ->
         getitem2 r (batch_size (locs_td [[(Fin 1, Fin 0)]])) 0
         = getitem2 t 0 0).
Proof.
  apply (call_symmetric (configured 2 symmetric_fn false)
           (locs_td [[(Fin 1, Fin 0)]]) (fun _ => 3 * 2 ^ 22)%Z
           float32_valid_format float32_valid_trig).
  - reflexivity.
  - reflexivity.
  - cbn [num_augment configured]. lia.
  - intros feat Hin. apply list_elem_of_singleton in Hin as ->.
    exists [[(Fin 1, Fin 0)]], (Fin 1, Fin 0). repeat split.
    repeat constructor; cbn [fst snd];
      [apply float32_on_grid_1|apply float32_on_grid_0].
Defined.

End CallAugmentationsExamples.

(** ** The forward pass *)

(** X25: [return_actions] decides about the key [actions] of the result
    and about nothing else: without it [forward] raises what it raises
    with it, and otherwise returns the same reward and log-likelihood and
    leaves the same state, with [None] in the place of the actions. *)
Theorem forward_return_actions
    {World TD Value Embedding Encoded Aux LogP Actions LL : Type}
    (td_get : TD -> string -> option Value)
    (init_embedding : TD -> POMO.M World Embedding)
    (encoder : Embedding -> POMO.M World (Encoded * Aux))
    (decoder : TD -> Encoded -> string -> POMO.M World (LogP * Actions * TD))
    (get_log_likelihood :
       LogP -> Actions -> option Value -> POMO.M World LL)
    (td : TD) (phase decode_type : string) (w : World) :
  POMO.forward td_get init_embedding encoder decoder get_log_likelihood
    td phase decode_type false w
  = match POMO.forward td_get init_embedding encoder decoder
            get_log_likelihood td phase decode_type true w with
    | Ok (o, w') =>
        Ok (POMO.Build_output (POMO.reward _ _ _ o)
              (POMO.log_likelihood _ _ _ o) None, w')
    | Err e => Err e
    end /\
  forall o w',
    POMO.forward td_get init_embedding encoder decoder get_log_likelihood
      td phase decode_type true w = Ok (o, w') ->
    exists acts, POMO.actions _ _ _ o = Some acts.
Proof.
  unfold POMO.forward, mbind, POMO.M_bind, mret, POMO.M_ret, POMO.raise.
  destruct (init_embedding td w) as [[emb w1]|]; [|split; [reflexivity|discriminate]].
  destruct (encoder emb w1) as [[[enc aux] w2]|];
    [|split; [reflexivity|discriminate]].
  destruct (decoder td enc decode_type w2) as [[[[logp acts] td'] w3]|];
    [|split; [reflexivity|discriminate]].
  destruct (get_log_likelihood logp acts (td_get td' "mask") w3)
    as [[ll w4]|]; [|split; [reflexivity|discriminate]].
  destruct (td_get td' "reward") as [r|]; [|split; [reflexivity|discriminate]].
  split; [reflexivity|].
  intros o w' H. injection H as <- <-. exists acts. reflexivity.
Qed.

(** X26: the exceptions of [forward].  What it raises is what one of its
    collaborators raised, called in the order embedding, encoder, decoder,
    log-likelihood, each on what the ones before returned; or it is
    [KeyError], raised after all four have returned, when the tensor
    dictionary that the decoder returned has no reward. *)
Theorem forward_raises
    {World TD Value Embedding Encoded Aux LogP Actions LL : Type}
    (td_get : TD -> string -> option Value)
    (init_embedding : TD -> POMO.M World Embedding)
    (encoder : Embedding -> POMO.M World (Encoded * Aux))
    (decoder : TD -> Encoded -> string -> POMO.M World (LogP * Actions * TD))
    (get_log_likelihood :
       LogP -> Actions -> option Value -> POMO.M World LL)
    (td : TD) (phase decode_type : string) (return_actions : bool)
    (w : World) (e : exn) :
  POMO.forward td_get init_embedding encoder decoder get_log_likelihood
    td phase decode_type return_actions w = Err e ->
  init_embedding td w = Err e \/
  exists emb w1,
    init_embedding td w = Ok (emb, w1) /\
    (encoder emb w1 = Err e \/
     exists enc aux w2,
       encoder emb w1 = Ok ((enc, aux), w2) /\
       (decoder td enc decode_type w2 = Err e \/
        exists logp acts td' w3,
          decoder td enc decode_type w2 = Ok ((logp, acts, td'), w3) /\
          (get_log_likelihood logp acts (td_get td' "mask") w3 = Err e \/
           exists ll w4,
             get_log_likelihood logp acts (td_get td' "mask") w3
             = Ok (ll, w4) /\
             td_get td' "reward" = None /\ e = KeyError))).
Proof.
  unfold POMO.forward, mbind, POMO.M_bind, mret, POMO.M_ret, POMO.raise.
  intros H.
  destruct (init_embedding td w) as [[emb w1]|]; [|left; injection H as ->; reflexivity].
  right. exists emb, w1. split; [reflexivity|].
  destruct (encoder emb w1) as [[[enc aux] w2]|]; [|left; injection H as ->; reflexivity].
  right. exists enc, aux, w2. split; [reflexivity|].
  destruct (decoder td enc decode_type w2) as [[[[logp acts] td'] w3]|];
    [|left; injection H as ->; reflexivity].
  right. exists logp, acts, td', w3. split; [reflexivity|].
  destruct (get_log_likelihood logp acts (td_get td' "mask") w3)
    as [[ll w4]|]; [|left; injection H as ->; reflexivity].
  right. exists ll, w4. split; [reflexivity|].
  destruct (td_get td' "reward") as [r|]; [discriminate|].
  injection H as <-. split; reflexivity.
Qed.

Lemma forward_raises_witness :
  (fun (_ : unit) (w : unit) => Ok (tt, w)) tt tt
  = (Err KeyError : result (unit * unit)) \/
  exists emb w1,
    (fun (_ : unit) (w : unit) => Ok (tt, w)) tt tt = Ok (emb, w1) /\
    ((fun (_ : unit) (w : unit) => Ok ((tt, tt), w)) emb w1
     = (Err KeyError : result (unit * unit * unit)) \/
     exists enc aux w2,
       (fun (_ : unit) (w : unit) => Ok ((tt, tt), w)) emb w1
       = Ok ((enc, aux), w2) /\
       ((fun (_ _ : unit) (_ : string) (w : unit) => Ok ((tt, tt, tt), w))
          tt enc "sampling"%string w2
        = (Err KeyError : result (unit * unit * unit * unit)) \/
        exists logp acts td' w3,
          (fun (_ _ : unit) (_ : string) (w : unit) => Ok ((tt, tt, tt), w))
            tt enc "sampling"%string w2
          = Ok ((logp, acts, td'), w3) /\
          ((fun (_ _ : unit) (_ : option unit) (w : unit) => Ok (tt, w))
             logp acts
             ((fun (_ : unit) (_ : string) => @None unit) td' "mask"%string)
             w3
           = (Err KeyError : result (unit * unit)) \/
           exists ll w4,
             (fun (_ _ : unit) (_ : option unit) (w : unit) => Ok (tt, w))
               logp acts
               ((fun (_ : unit) (_ : string) => @None unit) td' "mask"%string)
               w3
             = Ok (ll, w4) /\
             (fun (_ : unit) (_ : string) => @None unit) td' "reward"%string
             = None /\
             KeyError = KeyError))).
Proof.
  apply (forward_raises
           (fun (_ : unit) (_ : string) => @None unit)
           (fun (_ : unit) (w : unit) => Ok (tt, w))
           (fun (_ : unit) (w : unit) => Ok ((tt, tt), w))
           (fun (_ _ : unit) (_ : string) (w : unit) => Ok ((tt, tt, tt), w))
           (fun (_ _ : unit) (_ : option unit) (w : unit) => Ok (tt, w))
           tt "train" "sampling" false tt KeyError).
  reflexivity.
Defined.
